(** * libriscv: decoder cache, fastsim realizer and binary translator

    A shallow embedding of the parts of [decoder_cache.cpp],
    [decoder_cache.hpp], [tr_translate.cpp] and [tr_emit.cpp] that the
    specification talks about, together with the properties that were
    checked against it.

    Conventions:
    - a C++ unsigned integer of [n] bits is a [Z] in [0, 2^n); every
      operation that can leave the range is followed by [wrap n];
    - guest memory ([const uint8_t* exec_segment], a PC-relative pointer)
      is a function from addresses to bytes;
    - the decoder cache ([DecoderData<W>* exec_decoder]) is a finite map
      from the entry index [pc / DIVISOR] to entries, absent entries being
      the value-initialised entry of [DecoderCache::cache = {}];
    - [throw MachineException(...)] is the left injection of a sum;
    - loops are fixpoints over a fuel argument, and every theorem that
      speaks about a result shows that the fuel given is enough. *)

From stdpp Require Import base option list sorting gmap sets strings pretty.
From Stdlib Require Import ZArith Lia.

Local Open Scope Z_scope.

(* ===================================================================== *)
(** ** Machine integers *)
(* ===================================================================== *)

Definition wrap (n x : Z) : Z := x mod 2 ^ n.

(** [~x] on a [uint32_t]. *)
Definition not32 (x : Z) : Z := wrap 32 (Z.lnot x).

(** Bit field [x[lo + width - 1 : lo]]. *)
Definition bits (x lo width : Z) : Z := Z.land (Z.shiftr x lo) (Z.ones width).

(** Two's complement reading of an [n]-bit value. *)
Definition signed (n x : Z) : Z :=
  if Z.testbit x (n - 1) then wrap n x - 2 ^ n else wrap n x.

(* ===================================================================== *)
(** ** Guest memory and the instruction reader (decoder_cache.cpp) *)
(* ===================================================================== *)

(** [const uint8_t* exec_segment]: bytes indexed by guest address. *)
Definition memory := Z -> Z.

Definition load8 (m : memory) (a : Z) : Z := wrap 8 (m a).

(** A [uint16_t] read through a pointer cast. The value depends on the
    byte order of the host, which is taken to be little-endian. *)
Definition load16 (m : memory) (a : Z) : Z :=
  Z.lor (load8 m a) (Z.shiftl (load8 m (a + 1)) 8).

(** [struct UnalignedLoad32 { uint16_t data[2]; operator uint32_t() }]. *)
Definition UnalignedLoad32 (m : memory) (a : Z) : Z :=
  Z.lor (load16 m a) (Z.shiftl (load16 m (a + 2)) 16).

(** [struct AlignedLoad16 { uint16_t data; operator uint32_t() }]. *)
Definition AlignedLoad16 (m : memory) (a : Z) : Z := load16 m a.

(** [read_instruction(exec_segment, pc, end_pc)]; [pc] and [end_pc] are
    [uint64_t], so [pc + 4] is computed modulo [2^64]. *)
Definition read_instruction (exec_segment : memory) (pc end_pc : Z) : Z :=
  if wrap 64 (pc + 4) <=? end_pc
  then UnalignedLoad32 exec_segment pc
  else AlignedLoad16 exec_segment pc.

Definition FASTSIM_BLOCK_END : Z := 0xFFFF.

(** The little-endian word and half-word of the specification. *)
Definition le16 (buf : memory) (pc : Z) : Z :=
  load8 buf pc + 2 ^ 8 * load8 buf (pc + 1).

Definition le32 (buf : memory) (pc : Z) : Z :=
  load8 buf pc + 2 ^ 8 * load8 buf (pc + 1)
  + 2 ^ 16 * load8 buf (pc + 2) + 2 ^ 24 * load8 buf (pc + 3).

(** Memory holding the 32-bit words [ws] from address [base] on, stored
    little-endian, and zero elsewhere (the padding of a segment). *)
Definition mem_of_words (base : Z) (ws : list Z) : memory := fun a =>
  if (a <? base) then 0
  else bits (ws !!! Z.to_nat ((a - base) / 4)) (8 * ((a - base) mod 4)) 8.

(** Memory holding the bytes [bs] from address [base] on. *)
Definition mem_of_bytes (base : Z) (bs : list Z) : memory := fun a =>
  if (a <? base) then 0 else bs !!! Z.to_nat (a - base).

(* ===================================================================== *)
(** ** Instruction words *)
(* ===================================================================== *)

(** Modelled from the spec: [rv32i_instr.hpp], [rvc.hpp] and
    [instruction_list.hpp] are not among the sources. The accessors below
    are the fields of the RISC-V base and compressed encodings that the
    code reads ([opcode()], [length()], [Itype], [Utype], [Btype],
    [Jtype], [CR]) and the opcode constants that it compares against. *)
Module rv32i.

Definition RV32I_LOAD    : Z := 0x03.  (* 0b0000011 *)
Definition RV32I_STORE   : Z := 0x23.  (* 0b0100011 *)
Definition RV32I_BRANCH  : Z := 0x63.  (* 0b1100011 *)
Definition RV32I_JALR    : Z := 0x67.  (* 0b1100111 *)
Definition RV32I_JAL     : Z := 0x6F.  (* 0b1101111 *)
Definition RV32I_OP_IMM  : Z := 0x13.  (* 0b0010011 *)
Definition RV32I_OP      : Z := 0x33.  (* 0b0110011 *)
Definition RV32I_SYSTEM  : Z := 0x73.  (* 0b1110011 *)
Definition RV32I_LUI     : Z := 0x37.  (* 0b0110111 *)
Definition RV32I_AUIPC   : Z := 0x17.  (* 0b0010111 *)

(** [SYSTEM] with [imm = 0x7FF]: the STOP instruction. *)
Definition RV32_INSTR_STOP : Z := 0x7ff00073.

Definition REG_GP : Z := 3.

Definition opcode (whole : Z) : Z := bits whole 0 7.
Definition is_long (whole : Z) : bool := Z.land whole 0x3 =? 0x3.
Definition length (whole : Z) : Z := if is_long whole then 4 else 2.
Definition is_compressed (whole : Z) : bool := negb (is_long whole).
Definition half0 (whole : Z) : Z := bits whole 0 16.

Definition rd (whole : Z) : Z := bits whole 7 5.
Definition funct3 (whole : Z) : Z := bits whole 12 3.
Definition rs1 (whole : Z) : Z := bits whole 15 5.
Definition rs2 (whole : Z) : Z := bits whole 20 5.

(** [Itype.imm] and [Itype.signed_imm()]. *)
Definition Itype_imm (whole : Z) : Z := bits whole 20 12.
Definition Itype_signed_imm (whole : Z) : Z := signed 12 (Itype_imm whole).

(** [Utype.upper_imm()], an [int32_t]. *)
Definition Utype_upper_imm (whole : Z) : Z :=
  signed 32 (Z.shiftl (bits whole 12 20) 12).

(** [Btype.signed_imm()]: imm[12|10:5] in bits 31:25, imm[4:1|11] in 11:7. *)
Definition Btype_signed_imm (whole : Z) : Z :=
  signed 13 (Z.lor (Z.lor (Z.shiftl (bits whole 8 4) 1) (Z.shiftl (bits whole 25 6) 5))
                   (Z.lor (Z.shiftl (bits whole 7 1) 11) (Z.shiftl (bits whole 31 1) 12))).

(** [Jtype.jump_offset()]: imm[20|10:1|11|19:12] in bits 31:12. *)
Definition Jtype_jump_offset (whole : Z) : Z :=
  signed 21 (Z.lor (Z.lor (Z.shiftl (bits whole 21 10) 1) (Z.shiftl (bits whole 20 1) 11))
                   (Z.lor (Z.shiftl (bits whole 12 8) 12) (Z.shiftl (bits whole 31 1) 20))).

(** [rv32c_instruction]: [opcode()] keeps funct3 and the quadrant,
    [CI_CODE(x, y) = (x << 13) | y]. *)
Definition CI_CODE (x y : Z) : Z := Z.lor (Z.shiftl x 13) y.
Definition c_opcode (half : Z) : Z := Z.land half 0xE003.
Definition CR_rd (half : Z) : Z := bits half 7 5.
Definition CR_rs2 (half : Z) : Z := bits half 2 5.

(** [CJ.signed_imm()]: offset[11|4|9:8|10|6|7|3:1|5] in bits 12:2. *)
Definition CJ_signed_imm (half : Z) : Z :=
  signed 12
    (Z.lor (Z.lor (Z.lor (Z.shiftl (bits half 3 3) 1) (Z.shiftl (bits half 11 1) 4))
                  (Z.lor (Z.shiftl (bits half 2 1) 5) (Z.shiftl (bits half 7 1) 6)))
           (Z.lor (Z.lor (Z.shiftl (bits half 6 1) 7) (Z.shiftl (bits half 9 2) 8))
                  (Z.lor (Z.shiftl (bits half 8 1) 10) (Z.shiftl (bits half 12 1) 11)))).

(** [CB.signed_imm()]: offset[8|4:3] in bits 12:10, offset[7:6|2:1|5] in
    bits 6:2. *)
Definition CB_signed_imm (half : Z) : Z :=
  signed 9
    (Z.lor (Z.lor (Z.shiftl (bits half 3 2) 1) (Z.shiftl (bits half 10 2) 3))
           (Z.lor (Z.lor (Z.shiftl (bits half 2 1) 5) (Z.shiftl (bits half 5 2) 6))
                  (Z.shiftl (bits half 12 1) 8))).

End rv32i.
Import rv32i.

(* ===================================================================== *)
(** ** Decoder entries (decoder_cache.hpp) *)
(* ===================================================================== *)

(** [struct DecoderData]. With [RISCV_EXT_COMPRESSED] the header packs
    [idxend] and [icount] into 8 bits each, otherwise [idxend] is a
    [uint16_t]. [opcode_length] and [instr_count] are the two fields that
    the compressed branch of [realize_fastsim] writes; the header in the
    repository does not declare them, they are kept as separate fields
    (8 bits for [instr_count], as the specification says). *)
Record DecoderData := mkDecoderData {
  m_bytecode : Z;
  m_handler : Z;
  idxend : Z;
  icount : Z;
  opcode_length : Z;
  instr_count : Z;
  instr : Z;
}.

(** An entry of [std::array<DecoderData<W>, ...> cache = {}]. *)
Definition zero_entry : DecoderData := mkDecoderData 0 0 0 0 0 0 0.

Definition isset (e : DecoderData) : bool := negb (m_handler e =? 0).

(** Width of the [idxend] field. *)
Definition idxend_bits (compressed_enabled : bool) : Z :=
  if compressed_enabled then 8 else 16.

(** [entry.idxend = v]. *)
Definition set_idxend (compressed_enabled : bool) (v : Z) (e : DecoderData) : DecoderData :=
  mkDecoderData (m_bytecode e) (m_handler e) (wrap (idxend_bits compressed_enabled) v)
                (icount e) (opcode_length e) (instr_count e) (instr e).

(** [entry->opcode_length = v]. *)
Definition set_opcode_length (v : Z) (e : DecoderData) : DecoderData :=
  mkDecoderData (m_bytecode e) (m_handler e) (idxend e)
                (icount e) v (instr_count e) (instr e).

(** [entry->instr_count = v], [v] already a [uint8_t]. *)
Definition set_instr_count (v : Z) (e : DecoderData) : DecoderData :=
  mkDecoderData (m_bytecode e) (m_handler e) (idxend e)
                (icount e) (opcode_length e) v (instr e).

(** [block_bytes()]: [idxend * (compressed_enabled ? 2 : 4)]. *)
Definition block_bytes (compressed_enabled : bool) (e : DecoderData) : Z :=
  idxend e * (if compressed_enabled then 2 else 4).

(** [instruction_count()]. *)
Definition instruction_count (compressed_enabled : bool) (e : DecoderData) : Z :=
  if compressed_enabled then idxend e + 1 - icount e else idxend e + 1.

(** [DecoderCache<W>::DIVISOR]. *)
Definition DIVISOR (compressed_enabled : bool) : Z :=
  if compressed_enabled then 2 else 4.

(** The decoder cache as seen through [exec_decoder]. *)
Abbreviation decoder := (gmap Z DecoderData).

(** [exec_decoder[idx]]. *)
Definition entry_at (exec_decoder : decoder) (idx : Z) : DecoderData :=
  default zero_entry (exec_decoder !! idx).

(** [decoder_entry_at(cache, addr)]. *)
Definition decoder_entry_at (compressed_enabled : bool)
    (cache : decoder) (addr : Z) : DecoderData :=
  entry_at cache (addr / DIVISOR compressed_enabled).

(* ===================================================================== *)
(** ** Fastsim realizer (decoder_cache.cpp) *)
(* ===================================================================== *)

(** [is_regular_compressed<W>(instr)]: [false] for the compressed
    instructions that can change PC. *)
Definition is_regular_compressed (W : Z) (half : Z) : bool :=
  let op := c_opcode half in
  if op =? CI_CODE 1 1 then
    (if 8 <=? W then true (* C.ADDIW *) else false (* C.JAL 32-bit *))
  else if (op =? CI_CODE 5 1) || (op =? CI_CODE 6 1)
          || (op =? CI_CODE 7 1) then
    false
  else if op =? CI_CODE 4 2 then
    let topbit := Z.testbit half 12 in
    if negb topbit && negb (CR_rd half =? 0) && (CR_rs2 half =? 0) then false
    else if topbit && negb (CR_rd half =? 0) && (CR_rs2 half =? 0) then false
    else true
  else true.

(** [overflow_checked_instr_count(count)]. *)
Definition overflow_checked_instr_count (count : Z) : Z :=
  if 255 <? count then 255 else wrap 8 count.

(** The test shared by both branches of [realize_fastsim]:
    all opcodes that can modify PC and stop the machine. *)
Definition ends_block (opcode : Z) (entry : DecoderData) : bool :=
  (opcode =? RV32I_BRANCH) || (opcode =? RV32I_SYSTEM)
  || (opcode =? RV32I_JAL) || (opcode =? RV32I_JALR)
  || (opcode =? RV32I_AUIPC) || (instr entry =? FASTSIM_BLOCK_END).

(** The [while (pc >= base_pc)] loop of the [!compressed_enabled] branch.
    [idxend] is an [unsigned], [pc] an [address_type<W>]. *)
Fixpoint fastsim_backward (fuel : nat) (W base_pc last_pc : Z)
    (exec_segment : memory) (idxend pc : Z) (exec_decoder : decoder)
    : option decoder :=
  if pc <? base_pc then Some exec_decoder
  else match fuel with
  | O => None
  | S fuel =>
    let instruction := read_instruction exec_segment pc last_pc in
    let entry := entry_at exec_decoder (pc / DIVISOR false) in
    let opcode := opcode instruction in
    let idxend := if ends_block opcode entry then 0 else idxend in
    let exec_decoder :=
      <[pc / DIVISOR false := set_idxend false idxend entry]> exec_decoder in
    fastsim_backward fuel W base_pc last_pc exec_segment
      (wrap 32 (idxend + 1)) (wrap (8 * W) (pc - 4)) exec_decoder
  end.

(** The inner [while (pc < last_pc)] loop of the compressed branch:
    records the entries of one block in [data] (as entry indices) and
    measures the block in half-words. *)
Fixpoint fastsim_measure (fuel : nat) (W last_pc : Z)
    (exec_segment : memory) (exec_decoder : decoder)
    (data : list Z) (pc datalength : Z) : option (list Z * Z * Z) :=
  if pc <? last_pc then
    match fuel with
    | O => None
    | S fuel =>
      let entry := entry_at exec_decoder (pc / DIVISOR true) in
      let data := data ++ [pc / DIVISOR true] in
      let instruction := read_instruction exec_segment pc last_pc in
      let opcode := opcode instruction in
      let length := length instruction in
      let pc := wrap (8 * W) (pc + length) in
      let datalength := wrap 64 (datalength + length / 2) in
      if (if length =? 2
          then negb (is_regular_compressed W (half0 instruction))
          else ends_block opcode entry)
      then Some (data, pc, datalength)
      else fastsim_measure fuel W last_pc exec_segment exec_decoder
             data pc datalength
    end
  else Some (data, pc, datalength).

(** The [for (size_t i = 0; i < data.size(); i++)] loop; [data] is the part
    of the vector from index [i] on, [size] is [data.size()]. *)
Fixpoint fastsim_fill (W last_pc : Z) (exec_segment : memory)
    (data : list Z) (size i : Z) (block_pc datalength : Z)
    (exec_decoder : decoder) : decoder :=
  match data with
  | [] => exec_decoder
  | idx :: data =>
    let instruction := read_instruction exec_segment block_pc last_pc in
    let length := length instruction in
    let block_pc := wrap (8 * W) (block_pc + length) in
    let entry := entry_at exec_decoder idx in
    let entry := set_idxend true datalength entry in
    let entry := set_opcode_length length entry in
    let entry := set_instr_count
      (overflow_checked_instr_count (wrap 64 (datalength - (size - i)))) entry in
    let datalength := wrap 64 (datalength - length / 2) in
    fastsim_fill W last_pc exec_segment data size (i + 1) block_pc datalength
      (<[idx := entry]> exec_decoder)
  end.

(** The outer [while (pc < last_pc)] loop of the compressed branch. *)
Fixpoint fastsim_forward (fuel : nat) (W last_pc : Z)
    (exec_segment : memory) (pc : Z) (exec_decoder : decoder)
    : option decoder :=
  if pc <? last_pc then
    match fuel with
    | O => None
    | S fuel =>
      let block_pc := pc in
      match fastsim_measure (Z.to_nat (last_pc - pc)) W last_pc
              exec_segment exec_decoder [] pc 0 with
      | None => None
      | Some (data, pc, datalength) =>
        let exec_decoder :=
          fastsim_fill W last_pc exec_segment data (Z.of_nat (List.length data)) 0
            block_pc datalength exec_decoder in
        fastsim_forward fuel W last_pc exec_segment pc exec_decoder
      end
    end
  else Some exec_decoder.

(** [realize_fastsim<W>(base_pc, last_pc, exec_segment, exec_decoder)].
    [None] stands for a loop that does not come to an end within the
    number of entries of the segment. *)
Definition realize_fastsim (compressed_enabled : bool) (W : Z)
    (base_pc last_pc : Z) (exec_segment : memory) (exec_decoder : decoder)
    : option decoder :=
  if compressed_enabled then
    fastsim_forward (Z.to_nat (last_pc - base_pc)) W last_pc
      exec_segment base_pc exec_decoder
  else
    fastsim_backward (Z.to_nat ((last_pc - base_pc) / 4)) W base_pc last_pc
      exec_segment 0 (wrap (8 * W) (last_pc - 4)) exec_decoder.

(** Whether the backward walk resets its counter at [p]. *)
Definition terminates_at (exec_segment : memory) (last_pc : Z)
    (d : decoder) (p : Z) : bool :=
  ends_block (opcode (read_instruction exec_segment p last_pc))
             (entry_at d (p / 4)).

(** Number of instructions from [p] on that do not end a block, counted up
    to the next instruction that does, or to the last entry of the
    segment. *)
Fixpoint run_length (fuel : nat) (exec_segment : memory) (last_pc : Z)
    (d : decoder) (p : Z) : Z :=
  match fuel with
  | O => 0
  | S fuel =>
    if terminates_at exec_segment last_pc d p || (p + 4 =? last_pc) then 0
    else 1 + run_length fuel exec_segment last_pc d (p + 4)
  end.

(** A segment in which every aligned word is [addi x0, x0, 0]. *)
Definition nop_memory : memory := fun a => bits 0x00000013 (8 * (a mod 4)) 8.

(** *** Blocks of the compressed walk, as the measuring loop delimits them *)

(** Length in bytes of the instruction that the walk reads at [pc]. *)
Definition length_at (exec_segment : memory) (last_pc pc : Z) : Z :=
  length (read_instruction exec_segment pc last_pc).

(** The [break] test of the measuring loop for the instruction at [pc]. *)
Definition block_stops_at (W last_pc : Z) (exec_segment : memory)
    (d : decoder) (pc : Z) : bool :=
  let instruction := read_instruction exec_segment pc last_pc in
  if length instruction =? 2
  then negb (is_regular_compressed W (half0 instruction))
  else ends_block (opcode instruction) (entry_at d (pc / 2)).

(** Instruction starts of the block that begins at [pc]. *)
Fixpoint block_starts (fuel : nat) (W last_pc : Z) (exec_segment : memory)
    (d : decoder) (pc : Z) : list Z :=
  match fuel with
  | O => []
  | S fuel =>
    if pc <? last_pc then
      pc :: (if block_stops_at W last_pc exec_segment d pc then []
             else block_starts fuel W last_pc exec_segment d
                    (pc + length_at exec_segment last_pc pc))
    else []
  end.

(** Half-words covered by the instructions that start at [starts]. *)
Definition halfwords (exec_segment : memory) (last_pc : Z) (starts : list Z) : Z :=
  foldr (fun p acc => length_at exec_segment last_pc p / 2 + acc) 0 starts.

(** Instructions of four bytes among those that start at [starts]. *)
Definition long_instructions (exec_segment : memory) (last_pc : Z)
    (starts : list Z) : Z :=
  Z.of_nat (List.length
    (filter (fun p => length_at exec_segment last_pc p = 4) starts)).

(** Base addresses of the blocks of the segment, in the order in which the
    outer loop meets them. *)
Fixpoint block_bases (fuel : nat) (W last_pc : Z) (exec_segment : memory)
    (d : decoder) (pc : Z) : list Z :=
  match fuel with
  | O => []
  | S fuel =>
    if pc <? last_pc then
      pc :: block_bases fuel W last_pc exec_segment d
              (pc + 2 * halfwords exec_segment last_pc
                          (block_starts (Z.to_nat (last_pc - pc)) W last_pc
                             exec_segment d pc))
    else []
  end.

(** [starts] lists consecutive instruction starts from [pc] on. *)
Fixpoint chain (exec_segment : memory) (last_pc pc : Z) (starts : list Z) : Prop :=
  match starts with
  | [] => True
  | p :: starts =>
    p = pc /\ p < last_pc
    /\ chain exec_segment last_pc (pc + length_at exec_segment last_pc pc) starts
  end.

(* ===================================================================== *)
(** ** Exceptions *)
(* ===================================================================== *)

(** The exception kinds that the modelled code throws or emits. *)
Inductive exception_kind :=
  | ILLEGAL_OPCODE
  | ILLEGAL_OPERATION
  | MISALIGNED_INSTRUCTION
  | INVALID_PROGRAM
  | MAX_INSTRUCTIONS_REACHED.

(** [MachineException(kind, message, data)]. *)
Record MachineException := mkMachineException {
  exn_type : exception_kind;
  exn_what : string;
  exn_data : Z;
}.

(** A computation that may throw. *)
Definition result (A : Type) : Type := MachineException + A.

(** How a call ends when it does not return: with an exception thrown to
    its caller, or, when the exception leaves a function that is declared
    [noexcept], in [std::terminate], which ends the program. *)
Inductive Abort :=
  | Throw (exn : MachineException)
  | Terminate (exn : MachineException).

(** A computation that may throw or end the program. *)
Definition outcome (A : Type) : Type := Abort + A.

(* ===================================================================== *)
(** ** Handler table (decoder_cache.cpp) *)
(* ===================================================================== *)

(** [instruction_handler<W>]: a function pointer, [nullptr] being 0. *)
Abbreviation Handler := Z (only parsing).
Definition nullptr : Z := 0.

(** The [for (size_t i = 1; i < instr_handlers.size(); i++)] loop of
    [handler_index_for], entered at index [i] with [n] iterations to go.
    The table [instr_handlers] is a static vector; the code that sizes it
    is not among the sources, so it is an argument here and the updated
    table is returned with the index. *)
Definition handler_space_exn (instr_handlers : list Handler) : MachineException :=
  mkMachineException MAX_INSTRUCTIONS_REACHED
    "Not enough instruction handler space"
    (Z.of_nat (List.length instr_handlers)).

Fixpoint handler_index_from (n i : nat) (instr_handlers : list Handler)
    (new_handler : Handler) : result (nat * list Handler) :=
  match n with
  | O => inl (handler_space_exn instr_handlers)
  | S n =>
    let handler := instr_handlers !!! i in
    if handler =? new_handler then inr (i, instr_handlers)
    else if handler =? nullptr then
      inr (i, <[i := new_handler]> instr_handlers)
    else handler_index_from n (S i) instr_handlers new_handler
  end.

(** [DecoderData<W>::handler_index_for(new_handler)]. *)
Definition handler_index_for (instr_handlers : list Handler)
    (new_handler : Handler) : result (nat * list Handler) :=
  handler_index_from (List.length instr_handlers - 1) 1 instr_handlers new_handler.

(** [set_handler] called for a sequence of decoded handlers, as the first
    pass does for the instructions of a segment: the indices handed out
    and the final table, or the first exception. *)
Fixpoint intern_all (instr_handlers : list Handler) (handlers : list Handler)
    : result (list nat * list Handler) :=
  match handlers with
  | [] => inr ([], instr_handlers)
  | h :: handlers =>
    match handler_index_for instr_handlers h with
    | inl e => inl e
    | inr (i, instr_handlers) =>
      match intern_all instr_handlers handlers with
      | inl e => inl e
      | inr (idxs, instr_handlers) => inr (i :: idxs, instr_handlers)
      end
    end
  end.

(** [h] sits at index [i] and the scan from index 1 reaches it. *)
Definition interned (instr_handlers : list Handler) (h : Handler) (i : nat) : Prop :=
  (1 <= i < List.length instr_handlers)%nat
  /\ instr_handlers !!! i = h
  /\ forall j, (1 <= j < i)%nat ->
       instr_handlers !!! j <> h /\ instr_handlers !!! j <> nullptr.

(* ===================================================================== *)
(** ** Embedded translations (tr_translate.cpp) *)
(* ===================================================================== *)

Definition MAX_EMBEDDED : nat := 12.

(** [struct EmbeddedTranslation]; the three pointers are addresses. *)
Record EmbeddedTranslation := mkEmbeddedTranslation {
  et_hash : Z;
  et_nmappings : Z;
  et_nhandlers : Z;
  et_mappings : Z;
  et_handlers : Z;
  et_api_table : Z;
}.

(** [struct EmbeddedTranslations]: an array of [MAX_EMBEDDED] slots and the
    number of slots in use. *)
Record EmbeddedTranslations := mkEmbeddedTranslations {
  translations : list EmbeddedTranslation;
  count : nat;
}.

(** The registry as it comes out of BSS. *)
Definition registered_embedded_translations : EmbeddedTranslations :=
  mkEmbeddedTranslations
    (replicate MAX_EMBEDDED (mkEmbeddedTranslation 0 0 0 0 0 0)) 0.

(** [register_translation(hash, mappings, nmappings, handlers, nhandlers,
    table_ptr)], with the registry passed in and out. *)
Definition register_translation (hash mappings nmappings handlers nhandlers
    table_ptr : Z) (reg : EmbeddedTranslations)
    : result unit * EmbeddedTranslations :=
  if decide (MAX_EMBEDDED <= count reg)%nat then
    (inl (mkMachineException INVALID_PROGRAM "Too many embedded translations" 0),
     reg)
  else
    let translation :=
      mkEmbeddedTranslation hash nmappings nhandlers mappings handlers table_ptr in
    (inr (),
     mkEmbeddedTranslations (<[count reg := translation]> (translations reg))
                            (S (count reg))).

(** The arguments of one call, in the order of the parameters. *)
Definition registration : Type := Z * Z * Z * Z * Z * Z.

Definition register (r : registration) (reg : EmbeddedTranslations)
    : result unit * EmbeddedTranslations :=
  let '(hash, mappings, nmappings, handlers, nhandlers, table_ptr) := r in
  register_translation hash mappings nmappings handlers nhandlers table_ptr reg.

(** The slot that a call fills. *)
Definition slot_of (r : registration) : EmbeddedTranslation :=
  let '(hash, mappings, nmappings, handlers, nhandlers, table_ptr) := r in
  mkEmbeddedTranslation hash nmappings nhandlers mappings handlers table_ptr.

(** A run of calls; stops at the first one that throws. *)
Fixpoint register_all (rs : list registration) (reg : EmbeddedTranslations)
    : result unit * EmbeddedTranslations :=
  match rs with
  | [] => (inr (), reg)
  | r :: rs =>
    match register r reg with
    | (inl e, reg) => (inl e, reg)
    | (inr _, reg) => register_all rs reg
    end
  end.

(* ===================================================================== *)
(** ** Translation hash (tr_translate.cpp) *)
(* ===================================================================== *)

(** Modelled from the spec: [util/crc32.hpp] is not among the sources.
    [crc32c(partial, data, len)] continues a CRC-32C (Castagnoli, reflected
    polynomial [0x82F63B78]) from the running value [partial]; the
    complements before and after are left to the caller, as in
    [~crc32c(~checksum, ...)]. *)
Definition crc32c_bit (crc : Z) : Z :=
  if Z.testbit crc 0 then Z.lxor (Z.shiftr crc 1) 0x82F63B78 else Z.shiftr crc 1.

Definition crc32c_byte (crc byte : Z) : Z :=
  Nat.iter 8 crc32c_bit (Z.lxor crc (wrap 8 byte)).

Definition crc32c (partial : Z) (data : list Z) : Z :=
  foldl crc32c_byte (wrap 32 partial) data.

(** [std::to_string] of an integer. *)
Definition to_string (x : Z) : string := pretty x.

(** The bytes of a [std::string]. *)
Fixpoint bytes_of_string (s : string) : list Z :=
  match s with
  | EmptyString => []
  | String a s => Z.of_nat (Ascii.nat_of_ascii a) :: bytes_of_string s
  end.

(** The fields of [MachineOptions<W>] that the translator reads. *)
Record MachineOptions := mkMachineOptions {
  translate_enabled : bool;
  translate_enable_embedded : bool;
  translate_invoke_compiler : bool;
  translate_trace : bool;
  translate_ignore_instruction_limit : bool;
  use_shared_execute_segments : bool;
  translate_blocks_max : Z;
  translate_instr_max : Z;
  verbose_loader : bool;
  translate_timing : bool;
  translation_use_arena : bool;
}.

(** Options with translation switched on and room for [blocks_max] blocks
    and [instr_max] instructions. *)
Definition translating_options (blocks_max instr_max : Z) : MachineOptions :=
  mkMachineOptions true false true false false false blocks_max instr_max false false
    true.

(** The part of [DecodedExecuteSegment] that hashing looks at: the bytes of
    the segment, where it is mapped, and whether a translation is bound. *)
Record DecodedExecuteSegment := mkDecodedExecuteSegment {
  exec_begin : Z;
  exec_bytes : list Z;
  is_binary_translated : bool;
}.

(** [std::unordered_map<std::string, std::string>] as the code fills it:
    the pairs in the order in which they were inserted. What a map holds
    is the set of its pairs ([pairs_of]); two maps that hold the same pairs
    are identical for [operator==], whatever happened to them before. *)
Definition defines_map : Type := list (string * string).

Definition pairs_of (defines : defines_map) : gmap string string :=
  list_to_map defines.

(** [defines.emplace(key, value)]: nothing is inserted when the key is
    there already. *)
Definition emplace (key value : string) (defines : defines_map) : defines_map :=
  if bool_decide (key ∈ defines.*1) then defines else defines ++ [(key, value)].

(** [defines_to_string(cflags)]. The order in which
    [for (auto pair : cflags)] meets the pairs is not fixed by the
    language: it is what the implementation's hash table makes of the
    insertions. [iteration] stands for it: any function from the
    insertions made to a sequence of pairs. *)
Definition defines_to_string (iteration : defines_map -> list (string * string))
    (cflags : defines_map) : string :=
  foldl (fun defstr pair => defstr +:+ " -D" +:+ pair.1 +:+ "=" +:+ pair.2)
        "" (iteration cflags).

(** The platform macro that the build defines, if any. *)
Inductive Platform :=
  | LINUX | DARWIN | WINDOWS | FREEBSD | OPENBSD | OTHER_PLATFORM.

(** The constants of the build that [create_defines_for] reads; none of
    them is defined among the sources. *)
Record Build := mkBuild {
  platform : Platform;
  RISCV_SYSCALLS_MAX : Z;
  atomics_enabled : bool;
  build_compressed_enabled : bool;
  vector_extension : Z;
  nanboxing : bool;
  encompassing_Nbit_arena : Z;
}.

(** What [create_defines_for] reads of the machine: the offsets of the two
    counters and of the arena pointer inside [Machine<W>], the size of the
    memory arena and the end of the initial read-only data. *)
Record MachineLayout := mkMachineLayout {
  ins_counter_offset : Z;
  max_counter_offset : Z;
  arena_offset : Z;
  memory_arena_size : Z;
  machine_initial_rodata_end : Z;
}.

(** The keys that [create_defines_for] may insert, in the order of its
    code, each with the value it gets when it is inserted. *)
Definition define_slots (build : Build) (W : Z) (machine : MachineLayout)
    (options : MachineOptions) : list (string * option string) :=
  let arena_end :=
    if translation_use_arena options then memory_arena_size machine else 0x1000 in
  let initial_rodata_end :=
    if translation_use_arena options then machine_initial_rodata_end machine else 0 in
  let given (b : bool) (value : string) := if b then Some value else None in
  [ ("RISCV_PLATFORM_LINUX",
      given (if platform build is LINUX then true else false) "1");
    ("RISCV_PLATFORM_DARWIN",
      given (if platform build is DARWIN then true else false) "1");
    ("RISCV_PLATFORM_WINDOWS",
      given (if platform build is WINDOWS then true else false) "1");
    ("RISCV_PLATFORM_FREEBSD",
      given (if platform build is FREEBSD then true else false) "1");
    ("RISCV_PLATFORM_OPENBSD",
      given (if platform build is OPENBSD then true else false) "1");
    ("RISCV_TRANSLATION_DYLIB", Some (to_string W));
    ("RISCV_MAX_SYSCALLS", Some (to_string (RISCV_SYSCALLS_MAX build)));
    ("RISCV_ARENA_END", Some (to_string arena_end));
    ("RISCV_ARENA_ROEND", Some (to_string initial_rodata_end));
    ("RISCV_INS_COUNTER_OFF", Some (to_string (ins_counter_offset machine)));
    ("RISCV_MAX_COUNTER_OFF", Some (to_string (max_counter_offset machine)));
    ("RISCV_ARENA_OFF", Some (to_string (arena_offset machine)));
    ("RISCV_EXT_A", given (atomics_enabled build) "1");
    ("RISCV_EXT_C", given (build_compressed_enabled build) "1");
    ("RISCV_EXT_VECTOR",
      given (negb (vector_extension build =? 0)) (to_string (vector_extension build)));
    ("RISCV_NANBOXING", given (nanboxing build) "1");
    ("RISCV_TRACING", given (translate_trace options) "1");
    ("RISCV_IGNORE_INSTRUCTION_LIMIT",
      given (translate_ignore_instruction_limit options) "1");
    ("RISCV_NBIT_UNBOUNDED",
      given (negb (encompassing_Nbit_arena build =? 0))
            (to_string (encompassing_Nbit_arena build))) ].

(** The slots that are filled, as pairs. *)
Definition filled (slots : list (string * option string)) : defines_map :=
  omap (fun slot => match slot.2 with Some value => Some (slot.1, value) | None => None end)
       slots.

(** [create_defines_for(machine, options)]. *)
Definition create_defines_for (build : Build) (W : Z) (machine : MachineLayout)
    (options : MachineOptions) : defines_map :=
  let arena_end :=
    if translation_use_arena options then memory_arena_size machine else 0x1000 in
  let initial_rodata_end :=
    if translation_use_arena options then machine_initial_rodata_end machine else 0 in
  let defines : defines_map := [] in
  let defines :=
    match platform build with
    | LINUX => emplace "RISCV_PLATFORM_LINUX" "1" defines
    | DARWIN => emplace "RISCV_PLATFORM_DARWIN" "1" defines
    | WINDOWS => emplace "RISCV_PLATFORM_WINDOWS" "1" defines
    | FREEBSD => emplace "RISCV_PLATFORM_FREEBSD" "1" defines
    | OPENBSD => emplace "RISCV_PLATFORM_OPENBSD" "1" defines
    | OTHER_PLATFORM => defines
    end in
  let defines := emplace "RISCV_TRANSLATION_DYLIB" (to_string W) defines in
  let defines :=
    emplace "RISCV_MAX_SYSCALLS" (to_string (RISCV_SYSCALLS_MAX build)) defines in
  let defines := emplace "RISCV_ARENA_END" (to_string arena_end) defines in
  let defines := emplace "RISCV_ARENA_ROEND" (to_string initial_rodata_end) defines in
  let defines :=
    emplace "RISCV_INS_COUNTER_OFF" (to_string (ins_counter_offset machine)) defines in
  let defines :=
    emplace "RISCV_MAX_COUNTER_OFF" (to_string (max_counter_offset machine)) defines in
  let defines := emplace "RISCV_ARENA_OFF" (to_string (arena_offset machine)) defines in
  let defines :=
    if atomics_enabled build then emplace "RISCV_EXT_A" "1" defines else defines in
  let defines :=
    if build_compressed_enabled build then emplace "RISCV_EXT_C" "1" defines
    else defines in
  let defines :=
    if negb (vector_extension build =? 0)
    then emplace "RISCV_EXT_VECTOR" (to_string (vector_extension build)) defines
    else defines in
  let defines :=
    if nanboxing build then emplace "RISCV_NANBOXING" "1" defines else defines in
  let defines :=
    if translate_trace options then emplace "RISCV_TRACING" "1" defines
    else defines in
  let defines :=
    if translate_ignore_instruction_limit options
    then emplace "RISCV_IGNORE_INSTRUCTION_LIMIT" "1" defines
    else defines in
  let defines :=
    if negb (encompassing_Nbit_arena build =? 0)
    then emplace "RISCV_NBIT_UNBOUNDED" (to_string (encompassing_Nbit_arena build))
           defines
    else defines in
  defines.

(** Modelled from the spec: [exec.crc32c_hash()] is declared outside the
    sources; the specification has it as the CRC32C of the segment bytes. *)
Definition crc32c_hash (exec : DecodedExecuteSegment) : Z :=
  not32 (crc32c 0xFFFFFFFF (exec_bytes exec)).

(** [CPU<W>::load_translation] up to [exec.set_translation_hash(checksum)].
    The result is [None] when translation is disabled (the function returns
    -1 without hashing), and the hash that is stored otherwise. *)
Definition load_translation_hash (iteration : defines_map -> list (string * string))
    (build : Build) (W : Z) (machine : MachineLayout) (options : MachineOptions)
    (exec : DecodedExecuteSegment) : result (option Z) :=
  if (translate_blocks_max options =? 0)
     || (negb (translate_enabled options)
         && negb (translate_enable_embedded options))
  then inr None
  else if is_binary_translated exec then
    inl (mkMachineException ILLEGAL_OPERATION
           "Execute segment already binary translated" 0)
  else
    let cflags :=
      defines_to_string iteration (create_defines_for build W machine options) in
    let checksum := crc32c_hash exec in
    if checksum =? 0 then
      inl (mkMachineException INVALID_PROGRAM
             "Invalid execute segment hash for translation" 0)
    else
      let checksum := not32 (crc32c (not32 checksum) (bytes_of_string cflags)) in
      inr (Some checksum).

(** The step of the CRC run backwards. *)
Definition crc32c_bit_back (crc : Z) : Z :=
  if Z.testbit crc 31 then 2 * Z.lxor crc 0x82F63B78 + 1 else 2 * crc.

(* ===================================================================== *)
(** ** Block discovery (tr_translate.cpp) *)
(* ===================================================================== *)

(** Modelled from the spec: [safe_instr_loader.hpp], from which
    [tr_translate.cpp] takes [read_instruction], is not among the sources;
    the reader of [decoder_cache.cpp] above is the one the specification
    describes, and it is used here as well. *)

(** [pc += instruction.length()] with the C extension, [pc += 4] without. *)
Definition step_length (compressed_enabled : bool) (instruction : Z) : Z :=
  if compressed_enabled then length instruction else 4.

(** The body of the [SCAN_FOR_GP] loop at [pc]: the value of [gp] if the
    loop breaks here, [None] if it moves on. *)
Definition gp_at (W : Z) (exec_data : memory) (endbasepc pc : Z) : option Z :=
  let instruction := read_instruction exec_data pc endbasepc in
  if opcode instruction =? RV32I_AUIPC then
    let auipc := instruction in
    if rd auipc =? 3 then
      let addi := read_instruction exec_data (wrap (8 * W) (pc + 4)) endbasepc in
      if (opcode addi =? RV32I_OP_IMM) && (funct3 addi =? 0x0) then
        if (rd addi =? 3) && (rs1 addi =? 3) then
          Some (wrap (8 * W) (pc + Utype_upper_imm auipc + Itype_signed_imm addi))
        else None
      else Some (wrap (8 * W) (pc + Utype_upper_imm auipc))
    else None
  else None.

(** The [SCAN_FOR_GP] loop, entered at [pc] with [gp = 0]. *)
Fixpoint scan_for_gp (fuel : nat) (compressed_enabled : bool) (W : Z)
    (exec_data : memory) (endbasepc pc : Z) : option Z :=
  if pc <? endbasepc then
    match fuel with
    | O => None
    | S fuel =>
      match gp_at W exec_data endbasepc pc with
      | Some gp => Some gp
      | None =>
        let instruction := read_instruction exec_data pc endbasepc in
        scan_for_gp fuel compressed_enabled W exec_data endbasepc
          (wrap (8 * W) (pc + step_length compressed_enabled instruction))
      end
    end
  else Some 0.

(** The scan that starts at the first address reaches the second one. *)
Inductive scan_reaches (compressed_enabled : bool) (W : Z) (exec_data : memory)
    (endbasepc : Z) : Z -> Z -> Prop :=
  | scan_reaches_here pc :
      scan_reaches compressed_enabled W exec_data endbasepc pc pc
  | scan_reaches_next pc0 pc :
      pc0 < endbasepc ->
      gp_at W exec_data endbasepc pc0 = None ->
      scan_reaches compressed_enabled W exec_data endbasepc
        (pc0 + step_length compressed_enabled
                 (read_instruction exec_data pc0 endbasepc)) pc ->
      scan_reaches compressed_enabled W exec_data endbasepc pc0 pc.

Definition ITS_TIME_TO_SPLIT : Z := 1250.

(** [is_stopping_instruction(instr)]; the second half is compiled in with
    the C extension. *)
Definition is_stopping_instruction (compressed_enabled : bool) (instr : Z) : bool :=
  if (opcode instr =? RV32I_JALR) || (instr =? RV32_INSTR_STOP)
     || ((opcode instr =? RV32I_SYSTEM) && (funct3 instr =? 0)
         && (Itype_imm instr =? 261))
  then true
  else if compressed_enabled && is_compressed instr then
    let ci := half0 instr in
    if c_opcode ci =? CI_CODE 4 2 then
      if negb (CR_rd ci =? 0) && (CR_rs2 ci =? 0) then true else false
    else false
  else false.

(** [struct TransInfo<W>], as [try_translate] fills it. The reference to
    the shared set [global_jump_locations] and the back pointer [blocks]
    are not fields here: the set and the list are returned next to the
    blocks. *)
Record TransInfo := mkTransInfo {
  ti_instr : list Z;
  basepc : Z;
  endpc : Z;
  segment_basepc : Z;
  segment_endpc : Z;
  ti_gp : Z;
  trace_instructions : bool;
  ignore_instruction_limit : bool;
  ti_use_shared_execute_segments : bool;
  jump_locations : gset Z;
  arena_ptr : Z;
}.

(** The first inner loop: advances [pc] to the end of the block. *)
Fixpoint find_block_end (fuel : nat) (compressed_enabled : bool) (W : Z)
    (exec_data : memory) (endbasepc pc block_insns : Z) : option (Z * Z) :=
  if pc <? endbasepc then
    match fuel with
    | O => None
    | S fuel =>
      let instruction := read_instruction exec_data pc endbasepc in
      let pc := wrap (8 * W) (pc + step_length compressed_enabled instruction) in
      let block_insns := wrap 64 (block_insns + 1) in
      if (ITS_TIME_TO_SPLIT <=? block_insns)
         && is_stopping_instruction compressed_enabled instruction
      then Some (pc, block_insns)
      else find_block_end fuel compressed_enabled W exec_data endbasepc
             pc block_insns
    end
  else Some (pc, block_insns).

(** Where the instruction at [pc] jumps to, and whether it is a jump
    ([true]) or a branch ([false]); [None] for everything else. *)
Definition jump_location (compressed_enabled : bool) (W : Z)
    (instruction pc : Z) : option (bool * Z) :=
  let opcode := opcode instruction in
  if opcode =? RV32I_JAL then
    Some (true, wrap (8 * W) (pc + Jtype_jump_offset instruction))
  else if opcode =? RV32I_BRANCH then
    Some (false, wrap (8 * W) (pc + Btype_signed_imm instruction))
  else if compressed_enabled && is_compressed instruction then
    let ci := half0 instruction in
    if (W =? 4) && (c_opcode ci =? CI_CODE 1 1) then (* C.JAL *)
      Some (true, wrap (8 * W) (pc + CJ_signed_imm ci))
    else if c_opcode ci =? CI_CODE 5 1 then (* C.JMP *)
      Some (true, wrap (8 * W) (pc + CJ_signed_imm ci))
    else if c_opcode ci =? CI_CODE 6 1 then (* C.BEQZ *)
      Some (false, wrap (8 * W) (pc + CB_signed_imm ci))
    else if c_opcode ci =? CI_CODE 7 1 then (* C.BNEZ *)
      Some (false, wrap (8 * W) (pc + CB_signed_imm ci))
    else None
  else None.

(** The second inner loop: walks the block again, collects its
    instructions and the jump locations. *)
Fixpoint collect_block (fuel : nat) (compressed_enabled : bool) (W : Z)
    (exec_data : memory) (endbasepc block block_end pc : Z)
    (jump_locations global_jump_locations : gset Z)
    (block_instructions : list Z) : option (gset Z * gset Z * list Z) :=
  if pc <? block_end then
    match fuel with
    | O => None
    | S fuel =>
      let instruction := read_instruction exec_data pc endbasepc in
      let '(jump_locations, global_jump_locations) :=
        match jump_location compressed_enabled W instruction pc with
        | Some (true, location) =>
          (if (block <=? location) && (location <? block_end)
           then {[location]} ∪ jump_locations else jump_locations,
           {[location]} ∪ global_jump_locations)
        | Some (false, location) =>
          (if (block <=? location) && (location <? block_end)
           then {[location]} ∪ jump_locations else jump_locations,
           global_jump_locations)
        | None => (jump_locations, global_jump_locations)
        end in
      let block_instructions := block_instructions ++ [instruction] in
      collect_block fuel compressed_enabled W exec_data endbasepc block block_end
        (wrap (8 * W) (pc + step_length compressed_enabled instruction))
        jump_locations global_jump_locations block_instructions
    end
  else Some (jump_locations, global_jump_locations, block_instructions).

(** The block loop of [try_translate]:
    [for (pc = basepc; pc < endbasepc && icounter < translate_instr_max; )]. *)
Fixpoint scan_blocks (fuel : nat) (compressed_enabled : bool) (W : Z)
    (options : MachineOptions) (exec_data : memory) (basepc endbasepc gp : Z)
    (arena : Z) (pc icounter : Z) (global_jump_locations : gset Z)
    (blocks : list TransInfo) : option (list TransInfo * gset Z * Z) :=
  if (pc <? endbasepc) && (icounter <? translate_instr_max options) then
    match fuel with
    | O => None
    | S fuel =>
      let block := pc in
      match find_block_end (Z.to_nat (endbasepc - pc)) compressed_enabled W
              exec_data endbasepc pc 0 with
      | None => None
      | Some (pc, block_insns) =>
        let block_end := pc in
        match collect_block (Z.to_nat (block_end - block)) compressed_enabled W
                exec_data endbasepc block block_end block
                ∅ global_jump_locations [] with
        | None => None
        | Some (jump_locations, global_jump_locations, block_instructions) =>
          let length := Z.of_nat (List.length block_instructions) in
          if (0 <? length)
             && (wrap 64 (icounter + length) <? translate_instr_max options)
          then
            let blocks := blocks ++ [mkTransInfo
              block_instructions block block_end basepc endbasepc gp
              (translate_trace options)
              (translate_ignore_instruction_limit options)
              (use_shared_execute_segments options)
              jump_locations arena] in
            let icounter := wrap 64 (icounter + length) in
            if translate_blocks_max options <=? Z.of_nat (List.length blocks)
            then Some (blocks, global_jump_locations, icounter)
            else scan_blocks fuel compressed_enabled W options exec_data
                   basepc endbasepc gp arena block_end icounter
                   global_jump_locations blocks
          else scan_blocks fuel compressed_enabled W options exec_data
                 basepc endbasepc gp arena block_end icounter
                 global_jump_locations blocks
        end
      end
    end
  else Some (blocks, global_jump_locations, icounter).

(** What [try_translate] knows when code generation starts. *)
Record Discovery := mkDiscovery {
  found_gp : Z;
  found_blocks : list TransInfo;
  found_global_jump_locations : gset Z;
  found_icounter : Z;
}.

(** [CPU<W>::try_translate] up to the "Code generation" comment.
    [start_address] is [machine().memory.start_address()] and [arena] is
    [machine().memory.memory_arena_ptr_ref()]. [None] stands for a loop that
    does not come to an end; [Some None] for the early return when the
    compiler is not to be invoked. *)
Definition try_translate_discover (compressed_enabled : bool) (W : Z)
    (options : MachineOptions) (exec_data : memory)
    (start_address arena basepc endbasepc : Z) : option (option Discovery) :=
  if negb (translate_invoke_compiler options) then Some None
  else
    match scan_for_gp (Z.to_nat (endbasepc - basepc)) compressed_enabled W
            exec_data endbasepc basepc with
    | None => None
    | Some gp =>
      let elf_entry := start_address in
      let global_jump_locations : gset Z :=
        if (basepc <=? elf_entry) && (elf_entry <? endbasepc)
        then {[elf_entry]} else ∅ in
      match scan_blocks (Z.to_nat (endbasepc - basepc)) compressed_enabled W
              options exec_data basepc endbasepc gp arena basepc 0
              global_jump_locations [] with
      | None => None
      | Some (blocks, global_jump_locations, icounter) =>
        Some (Some (mkDiscovery gp blocks global_jump_locations icounter))
      end
    end.

(** The blocks that the block loop walks over from [pc] on, kept or not,
    as pairs of first address and end address. *)
Fixpoint scanned_blocks (fuel : nat) (compressed_enabled : bool) (W : Z)
    (exec_data : memory) (endbasepc pc : Z) : list (Z * Z) :=
  match fuel with
  | O => []
  | S fuel =>
    if pc <? endbasepc then
      match find_block_end (Z.to_nat (endbasepc - pc)) compressed_enabled W
              exec_data endbasepc pc 0 with
      | Some (block_end, _) =>
        (pc, block_end)
        :: scanned_blocks fuel compressed_enabled W exec_data endbasepc block_end
      | None => []
      end
    else []
  end.

(** First and end address of a block. *)
Definition extent (b : TransInfo) : Z * Z := (basepc b, endpc b).

(** Scenario S1: the three words [0x00000097], [0x00818193] and
    [0x00008067] at [0x1000]. The first one has [rd = 1]: it is
    [auipc ra, 0]. *)
Definition S1_segment : memory :=
  mem_of_words 0x1000 [0x00000097; 0x00818193; 0x00008067].

(** [l] lists blocks that follow one another from [pc] on: each begins
    where the one before ended, begins inside the range and ends less than
    one instruction past it. *)
Fixpoint contiguous_from (endbasepc pc : Z) (l : list (Z * Z)) : Prop :=
  match l with
  | [] => True
  | (b, e) :: l =>
    b = pc /\ b < e /\ b < endbasepc /\ e < endbasepc + 4
    /\ contiguous_from endbasepc e l
  end.

(** The first block ends before the second begins. *)
Definition before (x y : Z * Z) : Prop := x.2 <= y.1.

(** Where a run of blocks that starts at [pc] ends: the end address of
    its last block. *)
Definition scan_end (pc : Z) (l : list (Z * Z)) : Z := foldl (fun _ x => x.2) pc l.

(** 2499 times [addi x0, x0, 0], with [ret] as the 1250th and the 2500th
    instruction, and one more [addi] at the end. *)
Definition two_functions_memory : memory := fun a =>
  let word := (a - 0x1000) / 4 in
  bits (if (word =? 1249) || (word =? 2499) then 0x00008067 else 0x00000013)
       (8 * (a mod 4)) 8.

(* ===================================================================== *)
(** ** Code emitter: branches and jumps (tr_emit.cpp) *)
(* ===================================================================== *)

Definition hex_digit (d : Z) : string :=
  String.substring (Z.to_nat d) 1 "0123456789abcdef".

Fixpoint to_hex_go (fuel : nat) (x : Z) (acc : string) : string :=
  match fuel with
  | O => acc
  | S fuel =>
    let acc := hex_digit (x mod 16) +:+ acc in
    if x / 16 =? 0 then acc else to_hex_go fuel (x / 16) acc
  end.

(** [printf("%" PRIx64, x)]. *)
Definition to_hex (x : Z) : string := to_hex_go 16 (wrap 64 x) "".

(** The text that [funclabel] has [snprintf] format: [func], an underscore
    and the address in lower-case hexadecimal ([%s_%lx]). *)
Definition funclabel_text (func : string) (addr : Z) : string :=
  func +:+ "_" +:+ to_hex addr.

(** [funclabel<W>(func, addr)]: [snprintf] formats the text into a buffer
    of 32 bytes, which holds its first 31 characters, and returns the
    length [len] of the whole text; the label is [std::string(buf, len)].
    A text of at most 31 characters is the label. For a longer text the
    source builds the label from [len] bytes of the 32-byte buffer, so it
    reads past the end of the buffer; the model keeps the 31 characters
    that the buffer holds, and what is proved of labels is stated for
    texts that fit. The [throw] is for [len <= 0], which this format never
    gives. *)
Definition funclabel (func : string) (addr : Z) : string :=
  String.substring 0 31 (funclabel_text func addr).

Definition LOOP_EXPRESSION : string := "LIKELY(counter < max_counter)".

(** [ALIGN_MASK]. *)
Definition ALIGN_MASK (compressed_enabled : bool) : Z :=
  if compressed_enabled then 0x1 else 0x3.

(** [STRADDR(x)]. *)
Definition STRADDR (x : Z) : string := to_string x +:+ "UL".

(** [struct Emitter<W>]: the members that the BRANCH and JAL cases read or
    write. [tinfo_blocks] and [tinfo_global_jump_locations] are what
    [tinfo.blocks] and [tinfo.global_jump_locations] refer to. The member
    [instr], which [emit()] sets to the instruction it is translating, is
    an argument of the functions that translate it. *)
Record Emitter := mkEmitter {
  code : string;
  m_idx : Z;
  m_pc : Z;
  m_instr_length : Z;
  m_instr_counter : Z;
  func : string;
  tinfo : TransInfo;
  tinfo_blocks : list TransInfo;
  tinfo_global_jump_locations : gset Z;
  labels : gset Z;
  mapping_labels : gset Z;
  m_forward_declared : list string;
}.

Definition with_code (c : string) (em : Emitter) : Emitter :=
  mkEmitter c (m_idx em) (m_pc em) (m_instr_length em)
    (m_instr_counter em) (func em) (tinfo em) (tinfo_blocks em)
    (tinfo_global_jump_locations em) (labels em) (mapping_labels em)
    (m_forward_declared em).

Definition with_instr_counter (n : Z) (em : Emitter) : Emitter :=
  mkEmitter (code em) (m_idx em) (m_pc em) (m_instr_length em)
    n (func em) (tinfo em) (tinfo_blocks em)
    (tinfo_global_jump_locations em) (labels em) (mapping_labels em)
    (m_forward_declared em).

Definition with_labels (l : gset Z) (em : Emitter) : Emitter :=
  mkEmitter (code em) (m_idx em) (m_pc em) (m_instr_length em)
    (m_instr_counter em) (func em) (tinfo em) (tinfo_blocks em)
    (tinfo_global_jump_locations em) l (mapping_labels em)
    (m_forward_declared em).

Definition with_mapping_labels (l : gset Z) (em : Emitter) : Emitter :=
  mkEmitter (code em) (m_idx em) (m_pc em) (m_instr_length em)
    (m_instr_counter em) (func em) (tinfo em) (tinfo_blocks em)
    (tinfo_global_jump_locations em) (labels em) l
    (m_forward_declared em).

Definition with_forward_declared (l : list string) (em : Emitter) : Emitter :=
  mkEmitter (code em) (m_idx em) (m_pc em) (m_instr_length em)
    (m_instr_counter em) (func em) (tinfo em) (tinfo_blocks em)
    (tinfo_global_jump_locations em) (labels em) (mapping_labels em) l.

(** [pc()], [begin_pc()], [end_pc()], [index()]. *)
Definition pc (em : Emitter) : Z := m_pc em.
Definition begin_pc (em : Emitter) : Z := basepc (tinfo em).
Definition end_pc (em : Emitter) : Z := endpc (tinfo em).
Definition index (em : Emitter) : Z := m_idx em.

(** [PCRELA(x)] and [PCRELS(x)]. *)
Definition PCRELA (W : Z) (em : Emitter) (x : Z) : Z := wrap (8 * W) (pc em + x).
Definition PCRELS (W : Z) (em : Emitter) (x : Z) : string :=
  to_string (PCRELA W em x) +:+ "UL".

(** [FUNCLABEL(addr)]. *)
Definition FUNCLABEL (em : Emitter) (addr : Z) : string := funclabel (func em) addr.

(** [add_code(addendum...)]: every argument on a line of its own. *)
Definition add_code (addendum : list string) (em : Emitter) : Emitter :=
  with_code (foldl (fun c a => c +:+ a +:+ "
") (code em) addendum) em.

(** [code += s] and [code.append(s)]. *)
Definition append_code (s : string) (em : Emitter) : Emitter :=
  with_code (code em +:+ s) em.

(** [from_reg(reg)] and [to_reg(reg)], with [CACHED_REGISTERS = false]. *)
Definition from_reg (em : Emitter) (reg : Z) : string :=
  if (reg =? 3) && negb (ti_gp (tinfo em) =? 0) then to_string (ti_gp (tinfo em))
  else if negb (reg =? 0) then "cpu->r[" +:+ to_string reg +:+ "]"
  else "(addr_t)0".

Definition to_reg (reg : Z) : string :=
  if negb (reg =? 0) then "cpu->r[" +:+ to_string reg +:+ "]"
  else "(addr_t)0".

(** [exit_function(new_pc, add_bracket)]. *)
Definition exit_function (new_pc : string) (add_bracket : bool) (em : Emitter)
    : Emitter :=
  let return_code :=
    if ignore_instruction_limit (tinfo em)
    then "return (ReturnValues){0, max_counter};"
    else "return (ReturnValues){counter, max_counter};" in
  add_code [ if negb (String.eqb new_pc "cpu->pc")
             then "cpu->pc = " +:+ new_pc +:+ ";" else "";
             return_code;
             if add_bracket then " }" else "" ] em.

(** [add_reentry_next()]; [mapping_labels] is a [std::set<unsigned>]. *)
Definition add_reentry_next (W : Z) (em : Emitter) : bool * Emitter :=
  if end_pc em <=? wrap (8 * W) (pc em + m_instr_length em) then (false, em)
  else (true, with_mapping_labels ({[wrap 32 (index em + 1)]} ∪ mapping_labels em) em).

(** [increment_counter_so_far()]. *)
Definition increment_counter_so_far (em : Emitter) : Emitter :=
  let icount := m_instr_counter em in
  let em := with_instr_counter 0 em in
  if (0 <? icount) && negb (ignore_instruction_limit (tinfo em))
  then append_code ("counter += " +:+ to_string icount +:+ ";
") em
  else em.

(** [find_block_base(pc)]. *)
Fixpoint find_block_base_in (blocks : list TransInfo) (pc : Z) : Z :=
  match blocks with
  | [] => 0
  | blk :: blocks =>
    if (basepc blk <=? pc) && (pc <? endpc blk) then basepc blk
    else find_block_base_in blocks pc
  end.

Definition find_block_base (em : Emitter) (pc : Z) : Z :=
  find_block_base_in (tinfo_blocks em) pc.

(** [within_segment(addr)]. *)
Definition within_segment (em : Emitter) (addr : Z) : bool :=
  (segment_basepc (tinfo em) <=? addr) && (addr <? segment_endpc (tinfo em)).

(** [add_forward(target_func)]. *)
Definition add_forward (target_func : string) (em : Emitter) : Emitter :=
  with_forward_declared (m_forward_declared em ++ [target_func]) em.

(** [UNKNOWN_INSTRUCTION()], as it is defined without [RISCV_LIBTCC]. *)
Definition UNKNOWN_INSTRUCTION (instr : Z) (em : Emitter) : Emitter :=
  if negb (instr =? 0x0) then
    append_code ("else handler_idx = api.execute(cpu, "
                 +:+ to_string instr +:+ "); }
")
      (append_code ("if (handler_idx) api.handlers[handler_idx](cpu, "
                    +:+ to_string instr +:+ ");
")
         (append_code "{ static int handler_idx = 0;
" em))
  else
    append_code ("api.exception(cpu, " +:+ STRADDR (pc em) +:+ ", ILLEGAL_OPCODE);
") em.

(** [struct BranchInfo]. *)
Record BranchInfo := mkBranchInfo {
  bi_sign : bool;
  bi_ignore_instruction_limit : bool;
  jump_pc : Z;
  call_pc : Z;
}.

(** The line that raises the exception in a translated branch. *)
Definition misaligned_branch_exit (W : Z) (em : Emitter) : string :=
  "api.exception(cpu, " +:+ PCRELS W em 0
  +:+ ", MISALIGNED_INSTRUCTION); return (ReturnValues){0, 0};
" +:+ "}
".

(** The [if (...) {] line that opens a translated branch. *)
Definition branch_condition (instr : Z) (em : Emitter) (sign : bool)
    (op : string) : string :=
  if negb sign then
    "if (" +:+ from_reg em (rs1 instr) +:+ op
    +:+ from_reg em (rs2 instr) +:+ ") {
"
  else
    "if ((saddr_t)" +:+ from_reg em (rs1 instr) +:+ op
    +:+ " (saddr_t)" +:+ from_reg em (rs2 instr) +:+ ") {
".

(** [Emitter<W>::add_branch(binfo, op)]. *)
Definition add_branch (compressed_enabled : bool) (W : Z) (instr : Z)
    (binfo : BranchInfo) (op : string) (em : Emitter) : Emitter :=
  let em := append_code (branch_condition instr em (bi_sign binfo) op) em in
  if negb (Z.land (PCRELA W em (Btype_signed_imm instr))
                  (ALIGN_MASK compressed_enabled) =? 0)
  then
    append_code (misaligned_branch_exit W em) em
  else
    let jump :=
      if negb (jump_pc binfo =? 0) then
        if (pc em <? jump_pc binfo) || bi_ignore_instruction_limit binfo then
          (* unconditional forward jump + bracket *)
          inl (append_code ("goto " +:+ FUNCLABEL em (jump_pc binfo) +:+ "; }
") em)
        else
          (* backward jump *)
          inr (append_code ("if (" +:+ LOOP_EXPRESSION +:+ ") goto "
                            +:+ FUNCLABEL em (jump_pc binfo) +:+ ";
") em)
      else inr em in
    match jump with
    | inl em => em
    | inr em =>
      (* else, exit binary translation *)
      exit_function (PCRELS W em (Btype_signed_imm instr)) true em
    end.

(** The [case RV32I_BRANCH:] of [Emitter<W>::emit()]. *)
Definition emit_BRANCH (compressed_enabled : bool) (W : Z) (instr : Z)
    (em : Emitter) : Emitter :=
  let em := increment_counter_so_far em in
  let offset := Btype_signed_imm instr in
  let dest_pc := wrap 64 (pc em + offset) in
  let '(jump_pc, em) :=
    (* goto branch: restarts function *)
    if dest_pc =? begin_pc em then (dest_pc, em)
    (* forward label: branch inside code block *)
    else if (0 <? offset) && (dest_pc <? end_pc em) then
      (dest_pc, with_labels ({[wrap 32 dest_pc]} ∪ labels em) em)
    else if bool_decide (wrap (8 * W) dest_pc ∈ jump_locations (tinfo em)) then
      (* existing jump location *)
      if (begin_pc em <=? dest_pc) && (dest_pc <? end_pc em)
      then (dest_pc, em) else (0, em)
    else (0, em) in
  let call_pc := 0 in
  let limit := ignore_instruction_limit (tinfo em) in
  let f3 := funct3 instr in
  if f3 =? 0x0 then add_branch compressed_enabled W instr
                      (mkBranchInfo false limit jump_pc call_pc) " == " em
  else if f3 =? 0x1 then add_branch compressed_enabled W instr
                      (mkBranchInfo false limit jump_pc call_pc) " != " em
  else if (f3 =? 0x2) || (f3 =? 0x3) then UNKNOWN_INSTRUCTION instr em
  else if f3 =? 0x4 then add_branch compressed_enabled W instr
                      (mkBranchInfo true limit jump_pc call_pc) " < " em
  else if f3 =? 0x5 then add_branch compressed_enabled W instr
                      (mkBranchInfo true limit jump_pc call_pc) " >= " em
  else if f3 =? 0x6 then add_branch compressed_enabled W instr
                      (mkBranchInfo false limit jump_pc call_pc) " < " em
  else if f3 =? 0x7 then add_branch compressed_enabled W instr
                      (mkBranchInfo false limit jump_pc call_pc) " >= " em
  else em.

(** The destination that the JAL case works with:
    [(pc() + jump_offset()) & ~address_t(ALIGN_MASK)]. *)
Definition jal_dest_pc (compressed_enabled : bool) (W : Z) (instr : Z)
    (em : Emitter) : Z :=
  Z.land (wrap (8 * W) (pc em + Jtype_jump_offset instr))
         (wrap (8 * W) (Z.lnot (ALIGN_MASK compressed_enabled))).

(** The [case RV32I_JAL:] of [Emitter<W>::emit()]; [next_pc] is the local
    variable of the loop. *)
Definition emit_JAL (compressed_enabled : bool) (W : Z) (next_pc : Z)
    (instr : Z) (em : Emitter) : Emitter :=
  let em := increment_counter_so_far em in
  let em :=
    if negb (rd instr =? 0)
    then add_code [to_reg (rd instr) +:+ " = "
                   +:+ PCRELS W em (m_instr_length em) +:+ ";
"] em
    else em in
  (* XXX: mask off unaligned jumps - is this OK? *)
  let dest_pc := jal_dest_pc compressed_enabled W instr em in
  let add_reentry := negb (rd instr =? 0) in
  let '(em, add_reentry, already_exited) :=
    (* forward label: jump inside code block *)
    if (begin_pc em <=? dest_pc) && (dest_pc <? end_pc em) then
      if pc em <? dest_pc then
        (add_code ["goto " +:+ FUNCLABEL em dest_pc +:+ ";"]
           (with_labels ({[wrap 32 dest_pc]} ∪ labels em) em),
         add_reentry, false)
      else if ignore_instruction_limit (tinfo em) then
        (* jump backwards: without counters *)
        (add_code ["goto " +:+ FUNCLABEL em dest_pc +:+ ";"] em,
         if rd instr =? 0 then true else add_reentry, false)
      else
        (* jump backwards: use counters *)
        (add_code ["if (" +:+ LOOP_EXPRESSION +:+ ") goto "
                   +:+ FUNCLABEL em dest_pc +:+ ";"] em,
         if rd instr =? 0 then true else add_reentry, false)
    else if bool_decide (wrap (8 * W) dest_pc ∈ tinfo_global_jump_locations em)
            && within_segment em dest_pc then
      (* Get the function name of the target block *)
      let target_funcaddr := find_block_base em dest_pc in
      (* Allow directly calling a function, as long as it's a forward jump *)
      if negb (target_funcaddr =? 0) && (pc em <? dest_pc) then
        let target_func := funclabel "f" target_funcaddr in
        let em := add_code ["{ReturnValues rv;"] em in
        let em := add_forward target_func em in
        let em :=
          if negb (ignore_instruction_limit (tinfo em)) then
            add_code ["counter = rv.counter;"]
              (add_code ["rv = " +:+ target_func
                         +:+ "(cpu, counter, max_counter, "
                         +:+ STRADDR dest_pc +:+ ");"] em)
          else
            add_code ["rv = " +:+ target_func +:+ "(cpu, 0, max_counter, "
                      +:+ STRADDR dest_pc +:+ ");"] em in
        let em := add_code ["max_counter = rv.max_counter;}"] em in
        let em :=
          if negb (rd instr =? 0) then
            let '(added, em) := add_reentry_next W em in
            if added then
              if ignore_instruction_limit (tinfo em) then
                add_code ["if (cpu->pc == " +:+ STRADDR next_pc +:+ ") goto "
                          +:+ FUNCLABEL em next_pc +:+ ";"] em
              else
                add_code ["if (" +:+ LOOP_EXPRESSION +:+ " && cpu->pc == "
                          +:+ STRADDR next_pc +:+ ") goto "
                          +:+ FUNCLABEL em next_pc +:+ ";"] em
            else em
          else em in
        (exit_function "cpu->pc" false em, add_reentry, true)
      else (em, add_reentry, false)
    else (em, add_reentry, false) in
  (* Because of forward jumps we can't end the function here *)
  let em := if negb already_exited
            then exit_function (STRADDR dest_pc) false em else em in
  if add_reentry then snd (add_reentry_next W em) else em.

(** A one-instruction block at [0x1000] of a segment [0x1000 .. 0x2000)],
    and the emitter at its only instruction, as [emit()] finds it when it
    enters the [switch]: the constructor has named the function
    [f_1000], [emit()] has written the label [FUNCLABEL(pc())] of the
    entry, and the instruction is counted. *)
Definition single_instruction_emitter (instruction : Z) : Emitter :=
  let func := funclabel "f" 0x1000 in
  mkEmitter (funclabel func 0x1000 +:+ ":;
") 0 0x1000 4 1 func
    (mkTransInfo [instruction] 0x1000 0x1004 0x1000 0x2000 0
       false false false ∅ 0)
    [] ∅ ∅ ∅ [].



(* ===================================================================== *)
(** ** Labels and file names (tr_emit.cpp, tr_translate.cpp) *)
(* ===================================================================== *)

(** Value of a lowercase or uppercase hexadecimal digit. *)
Definition hex_value (a : Ascii.ascii) : option Z :=
  let n := Z.of_nat (Ascii.nat_of_ascii a) in
  if (48 <=? n) && (n <=? 57) then Some (n - 48)
  else if (97 <=? n) && (n <=? 102) then Some (n - 87)
  else if (65 <=? n) && (n <=? 70) then Some (n - 55)
  else None.

(** Value of a hexadecimal numeral, read from the left with [acc] as the
    value of the digits already read. *)
Fixpoint of_hex_go (s : string) (acc : Z) : option Z :=
  match s with
  | EmptyString => Some acc
  | String a s =>
    match hex_value a with
    | Some d => of_hex_go s (16 * acc + d)
    | None => None
    end
  end.

Definition of_hex (s : string) : option Z := of_hex_go s 0.

Definition HEX_digit (d : Z) : string :=
  String.substring (Z.to_nat d) 1 "0123456789ABCDEF".

(** The characters [0] to [9] and [A] to [F]. *)
Definition upper_hex_char (a : Ascii.ascii) : bool :=
  let n := Z.of_nat (Ascii.nat_of_ascii a) in
  ((48 <=? n) && (n <=? 57)) || ((65 <=? n) && (n <=? 70)).

Fixpoint upper_hex (s : string) : bool :=
  match s with
  | EmptyString => true
  | String a s => upper_hex_char a && upper_hex s
  end.

(** [printf("%08X", x)] for a [uint32_t]. *)
Definition to_HEX8 (x : Z) : string :=
  HEX_digit (bits x 28 4) +:+ HEX_digit (bits x 24 4)
  +:+ HEX_digit (bits x 20 4) +:+ HEX_digit (bits x 16 4)
  +:+ HEX_digit (bits x 12 4) +:+ HEX_digit (bits x 8 4)
  +:+ HEX_digit (bits x 4 4) +:+ HEX_digit (bits x 0 4).

(** [MachineOptions<W>::translation_filename(prefix, hash, suffix)]:
    [snprintf] into a buffer of 256 bytes, then
    [std::string(buffer, len)]. When the name does not fit, [len] is past
    the end of the buffer and the result is not defined: [None]. *)
Definition translation_filename (prefix : string) (hash : Z) (suffix : string)
    : option string :=
  let name := prefix +:+ to_HEX8 hash +:+ suffix in
  if (String.length name <? 256)%nat then Some name else None.

(* ===================================================================== *)
(** ** Addresses of the instructions of a block (tr_emit.cpp) *)
(* ===================================================================== *)

(** The head of the loop of [Emitter<W>::emit()] over [tinfo.instr]: the
    value that [m_pc] takes for each instruction, and [next_pc] after the
    last one. *)
Fixpoint emit_pcs (compressed_enabled : bool) (W : Z) (next_pc : Z)
    (instrs : list Z) : list Z * Z :=
  match instrs with
  | [] => ([], next_pc)
  | instr :: instrs =>
    let m_pc := next_pc in
    let m_instr_length := if compressed_enabled then length instr else 4 in
    let next_pc := wrap (8 * W) (m_pc + m_instr_length) in
    let '(pcs, last) := emit_pcs compressed_enabled W next_pc instrs in
    (m_pc :: pcs, last)
  end.

(** Instructions in a list of blocks: what [icounter] adds up. *)
Definition instructions_in (blocks : list TransInfo) : Z :=
  foldr (fun b acc => Z.of_nat (List.length (ti_instr b)) + acc) 0 blocks.

(** [b] is the block that one round of the block loop of [try_translate]
    makes when it starts at [basepc b]: [endpc b] is where the first inner
    loop stops, and the instructions and jump locations are those that the
    second inner loop collects ([g] stands for the global jump locations
    known at that point). *)
Definition block_of_scan (compressed_enabled : bool) (W : Z) (exec_data : memory)
    (endbasepc : Z) (b : TransInfo) : Prop :=
  (exists n', find_block_end (Z.to_nat (endbasepc - basepc b)) compressed_enabled W
                exec_data endbasepc (basepc b) 0 = Some (endpc b, n'))
  /\ (exists g g', collect_block (Z.to_nat (endpc b - basepc b)) compressed_enabled W
                     exec_data endbasepc (basepc b) (endpc b) (basepc b) ∅ g []
                   = Some (jump_locations b, g', ti_instr b)).

(* ===================================================================== *)
(** ** Decoder cache generation (decoder_cache.cpp, decoder_cache.hpp) *)
(* ===================================================================== *)

(** [entry.instr = v], [v] a [uint32_t]. *)
Definition set_instr (v : Z) (e : DecoderData) : DecoderData :=
  mkDecoderData (m_bytecode e) (m_handler e) (idxend e)
                (icount e) (opcode_length e) (instr_count e) v.

(** [this->m_handler = v]: the field is a [uint8_t]. *)
Definition set_m_handler (v : Z) (e : DecoderData) : DecoderData :=
  mkDecoderData (m_bytecode e) (wrap 8 v) (idxend e)
                (icount e) (opcode_length e) (instr_count e) (instr e).

(** [set_bytecode(uint16_t num)]: [m_bytecode] is a [uint8_t]. *)
Definition set_bytecode (num : Z) (e : DecoderData) : DecoderData :=
  mkDecoderData (wrap 8 (wrap 16 num)) (m_handler e) (idxend e)
                (icount e) (opcode_length e) (instr_count e) (instr e).

Definition get_bytecode (e : DecoderData) : Z := m_bytecode e.

(** [get_handler()]: [instr_handlers[m_handler]]. *)
Definition get_handler (instr_handlers : list Z) (e : DecoderData) : Z :=
  instr_handlers !!! Z.to_nat (m_handler e).

(** [set_insn_handler(ih)] and [set_handler(insn)], which passes
    [insn.handler] on: the index that [handler_index_for] returns is stored
    in [m_handler]. The table is passed in and out. Both functions are
    declared [noexcept]: when [handler_index_for] throws, the exception
    does not reach a caller, the program ends in [std::terminate]. *)
Definition set_insn_handler (instr_handlers : list Z) (ih : Z) (e : DecoderData)
    : outcome (list Z * DecoderData) :=
  match handler_index_for instr_handlers ih with
  | inl exn => inl (Terminate exn)
  | inr (i, instr_handlers) => inr (instr_handlers, set_m_handler (Z.of_nat i) e)
  end.

(** What the loop of [generate_decoder_cache] decodes at [dst]: the handler
    of the instruction and the instruction bits that it caches.
    [decode] stands for [CPU<W>::decode(instruction).handler] and
    [decode_rewrite] for [CPU<W>::decode_rewrite(dst, rewritten)], which
    returns a handler and may change the bits; [rewriter] is
    [!threaded_simulator_enabled && decoder_rewriter_enabled]. Neither
    function is among the sources. *)
Definition decoded_at (rewriter : bool) (decode : Z -> Z)
    (decode_rewrite : Z -> Z -> Z * Z) (exec_segment : memory)
    (end_addr dst : Z) : Z * Z :=
  let instruction := read_instruction exec_segment dst end_addr in
  if rewriter then decode_rewrite dst instruction
  else (decode instruction, instruction).

(** The [for (; dst < addr + len;)] loop of [generate_decoder_cache], built
    without [RISCV_THREADED]. [translated] is what
    [machine().is_binary_translated()] returns ([false] in a build without
    [RISCV_BINARY_TRANSLATION]). The result is the final [dst], the handler
    table and the decoder cache, or the end of the program in
    [set_handler]. *)
Fixpoint decode_segment (fuel : nat) (compressed_enabled : bool) (W : Z)
    (translated rewriter : bool) (decode : Z -> Z)
    (decode_rewrite : Z -> Z -> Z * Z) (exec_segment : memory)
    (addr len dst : Z) (was_full_instruction : bool)
    (instr_handlers : list Z) (exec_decoder : decoder)
    : option (outcome (Z * list Z * decoder)) :=
  let end_addr := wrap (8 * W) (addr + len) in
  if dst <? end_addr then
    match fuel with
    | O => None
    | S fuel =>
      let idx := dst / DIVISOR compressed_enabled in
      let entry := entry_at exec_decoder idx in
      let entry := set_instr 0x0 entry in
      let entry := set_idxend compressed_enabled 0 entry in
      (* Load unaligned instruction from execute segment *)
      let instruction := read_instruction exec_segment dst end_addr in
      if translated && isset entry then
        (* With fastsim we pretend the original opcode is JAL *)
        let entry := set_instr FASTSIM_BLOCK_END entry in
        decode_segment fuel compressed_enabled W translated rewriter decode
          decode_rewrite exec_segment addr len (wrap (8 * W) (dst + 4))
          was_full_instruction instr_handlers (<[idx := entry]> exec_decoder)
      else
        (* Insert decoded instruction into decoder cache *)
        let '(handler, rewritten) :=
          decoded_at rewriter decode decode_rewrite exec_segment end_addr dst in
        match set_insn_handler instr_handlers handler entry with
        | inl abort => Some (inl abort)
        | inr (instr_handlers, entry) =>
          (* Cache the (modified) instruction bits *)
          let entry := set_instr rewritten entry in
          let exec_decoder := <[idx := entry]> exec_decoder in
          (* Increment PC after everything *)
          if compressed_enabled then
            decode_segment fuel compressed_enabled W translated rewriter decode
              decode_rewrite exec_segment addr len (wrap (8 * W) (dst + 2))
              (if was_full_instruction then length instruction =? 2 else true)
              instr_handlers exec_decoder
          else
            decode_segment fuel compressed_enabled W translated rewriter decode
              decode_rewrite exec_segment addr len (wrap (8 * W) (dst + 4))
              was_full_instruction instr_handlers exec_decoder
        end
    end
  else Some (inr (dst, instr_handlers, exec_decoder)).

(** [n_pages] of [generate_decoder_cache]; [Page::size()] is
    [2 ^ page_bits] ([Page] is not among the sources). *)
Definition decoder_cache_pages (W page_bits pbase addr len : Z) : Z :=
  let PMASK := 2 ^ page_bits - 1 in
  let prelen := wrap 64 (wrap (8 * W) (addr - pbase)) in
  let midlen := wrap 64 (len + prelen) in
  let plen := Z.land (wrap 64 (midlen + PMASK)) (wrap 64 (Z.lnot PMASK)) in
  plen / 2 ^ page_bits.

(** [Memory<W>::generate_decoder_cache(options, exec)] for [W = 4] and
    [W = 8] on a 64-bit host. [pbase], [addr] and [len] are
    [exec.pagedata_base()], [exec.exec_begin()] and
    [exec.exec_end() - exec.exec_begin()]; [exec_segment] is
    [exec.exec_data()]. The attempt to load or make a binary translation,
    which a build with [RISCV_BINARY_TRANSLATION] makes before the loop, is
    not part of the model: [translated] is its outcome and [exec_decoder]
    the new decoder cache as it leaves it, the zeroed array [∅] otherwise.
    [None] stands for a loop that does not come to an end. *)
Definition generate_decoder_cache (compressed_enabled : bool) (W page_bits : Z)
    (translated rewriter : bool) (decode : Z -> Z)
    (decode_rewrite : Z -> Z -> Z * Z) (exec_segment : memory)
    (pbase addr len : Z) (instr_handlers : list Z) (exec_decoder : decoder)
    : option (outcome (list Z * decoder)) :=
  if decoder_cache_pages W page_bits pbase addr len =? 0 then
    Some (inl (Throw (mkMachineException INVALID_PROGRAM
                        "Program produced empty decoder cache" 0)))
  else
    match decode_segment (Z.to_nat len) compressed_enabled W translated rewriter
            decode decode_rewrite exec_segment addr len addr true
            instr_handlers exec_decoder with
    | None => None
    | Some (inl abort) => Some (inl abort)
    | Some (inr (dst, instr_handlers, exec_decoder)) =>
      match realize_fastsim compressed_enabled W addr dst exec_segment
              exec_decoder with
      | None => None
      | Some exec_decoder => Some (inr (instr_handlers, exec_decoder))
      end
    end.

(** The page geometry of [Memory<W>::create_execute_segment(options, vdata,
    vaddr, exlen)] for [W = 4] and [W = 8] on a 64-bit host: [pbase],
    [prelen], [plen] and [postlen], or the exception of its two checks.
    [PMASK] is an [address_t] here, the lengths are [size_t]. *)
Definition create_execute_segment_layout (W page_bits vaddr exlen : Z)
    : result (Z * Z * Z * Z) :=
  let PMASK := wrap (8 * W) (2 ^ page_bits - 1) in
  let pbase := Z.land vaddr (wrap (8 * W) (Z.lnot PMASK)) in
  let prelen := wrap 64 (wrap (8 * W) (vaddr - pbase)) in
  let midlen := wrap 64 (exlen + prelen) in
  let plen := Z.land (wrap 64 (midlen + PMASK)) (wrap (8 * W) (Z.lnot PMASK)) in
  let postlen := wrap 64 (plen - midlen) in
  if (plen <? prelen) || (plen <? wrap 64 (prelen + exlen)) then
    inl (mkMachineException INVALID_PROGRAM "Segment virtual base was bogus" 0)
  else if wrap 64 (pbase + plen) <? pbase then
    inl (mkMachineException INVALID_PROGRAM "Segment virtual base was bogus" 0)
  else inr (pbase, prelen, plen, postlen).

(** The bytes that [create_execute_segment] puts into [exec_data]:
    [prelen] zeroes, the [exlen] bytes of [vdata], [postlen] zeroes. *)
Definition create_execute_segment_bytes (prelen postlen : Z) (vdata : list Z)
    : list Z :=
  replicate (Z.to_nat prelen) 0 ++ vdata ++ replicate (Z.to_nat postlen) 0.

(** What the second pass leaves alone in an entry: everything but
    [idxend], [opcode_length] and [instr_count]. *)
Definition same_decoded (e e' : DecoderData) : Prop :=
  m_handler e' = m_handler e /\ instr e' = instr e
  /\ m_bytecode e' = m_bytecode e /\ icount e' = icount e.

(* ===================================================================== *)
(** ** Mappings of the generated code (tr_emit.cpp, tr_translate.cpp) *)
(* ===================================================================== *)

(** [struct TransMapping]: an address and the symbol of the function that
    is entered there. *)
Definition TransMapping : Type := Z * string.

(** The re-entry mappings that the loop of [Emitter::emit()] pushes while
    it walks the instructions: one for every instruction after the first
    whose index is a mapping label or whose address is a global jump
    location. [reentry i pc] stands for
    [mapping_labels.count(i) || tinfo.global_jump_locations.count(pc)]. *)
Fixpoint reentry_mappings (func : string) (reentry : nat -> Z -> bool)
    (i : nat) (pcs : list Z) : list TransMapping :=
  match pcs with
  | [] => []
  | pc :: pcs =>
    (if (0 <? i)%nat && reentry i pc then [(pc, func)] else [])
    ++ reentry_mappings func reentry (S i) pcs
  end.

(** The mappings that [CPU::emit] returns for one block: the entry of the
    function, which the constructor of the emitter names after the first
    address of the block, and the re-entries. *)
Definition emit_mappings (compressed_enabled : bool) (W : Z)
    (reentry : nat -> Z -> bool) (tinfo : TransInfo) : list TransMapping :=
  let func := funclabel "f" (basepc tinfo) in
  (basepc tinfo, func)
  :: reentry_mappings func reentry 0
       (emit_pcs compressed_enabled W (basepc tinfo) (ti_instr tinfo)).1.

(** The code generation loop of [try_translate]: the mappings of all
    blocks, in the order of the blocks, for a code generation in which no
    emitter throws. *)
Definition dlmappings_of (compressed_enabled : bool) (W : Z)
    (reentry : TransInfo -> nat -> Z -> bool) (blocks : list TransInfo)
    : list TransMapping :=
  concat (map (fun block => emit_mappings compressed_enabled W (reentry block) block)
              blocks).

(** The loop of [try_translate] that numbers the symbols of [dlmappings]:
    it returns the rows [{addr, mapping_index}] that it prints to the
    footer, the map [mapping_indices] and the vector [handlers]. A
    mapping index is an [unsigned]. *)
Fixpoint unique_mappings (dlmappings : list TransMapping)
    (mapping_indices : gmap string Z) (handlers : list string)
    : list (Z * Z) * gmap string Z * list string :=
  match dlmappings with
  | [] => ([], mapping_indices, handlers)
  | (addr, symbol) :: dlmappings =>
    let '(mapping_index, mapping_indices, handlers) :=
      match mapping_indices !! symbol with
      | None =>
        let mapping_index := wrap 32 (Z.of_nat (List.length handlers)) in
        (mapping_index, <[symbol := mapping_index]> mapping_indices,
         handlers ++ [symbol])
      | Some mapping_index => (mapping_index, mapping_indices, handlers)
      end in
    let '(rows, mapping_indices, handlers) :=
      unique_mappings dlmappings mapping_indices handlers in
    ((addr, mapping_index) :: rows, mapping_indices, handlers)
  end.

(** The footer of [try_translate] as data: the rows of [mappings[]] and
    the entries of [unique_mappings[]], or the exception thrown when there
    are not as many handlers as blocks. *)
Definition mappings_footer (n_blocks : nat) (dlmappings : list TransMapping)
    : result (list (Z * Z) * list string) :=
  let '(rows, mapping_indices, handlers) := unique_mappings dlmappings ∅ [] in
  if decide (List.length handlers <> n_blocks)
  then inl (mkMachineException INVALID_PROGRAM "Mismatch in unique mappings" 0)
  else inr (rows, handlers).

(** What the numbering loop keeps: the map sends a symbol to its index in
    [handlers], and no symbol is in [handlers] twice. *)
Definition numbered (mapping_indices : gmap string Z) (handlers : list string) : Prop :=
  NoDup handlers
  /\ forall s i, mapping_indices !! s = Some i
                 <-> 0 <= i /\ handlers !! Z.to_nat i = Some s.

(** The rows of the footer when every block brings a new symbol: the
    mappings of the [n]-th block carry the index [n]. *)
Fixpoint block_rows (compressed_enabled : bool) (W : Z)
    (reentry : TransInfo -> nat -> Z -> bool) (n : nat) (blocks : list TransInfo)
    : list (Z * Z) :=
  match blocks with
  | [] => []
  | block :: blocks =>
    map (fun m : TransMapping => (m.1, wrap 32 (Z.of_nat n)))
        (emit_mappings compressed_enabled W (reentry block) block)
    ++ block_rows compressed_enabled W reentry (S n) blocks
  end.

(* ===================================================================== *)
(** ** Embedded translations at load time (tr_translate.cpp) *)
(* ===================================================================== *)

(** The loop of [load_translation] that looks for a registered translation
    with the hash of the segment,
    [for (size_t i = 0; i < registered_embedded_translations<W>.count; i++)]:
    the slot at which it returns, if any. *)
Fixpoint find_embedded_translation (fuel : nat) (reg : EmbeddedTranslations)
    (checksum : Z) (i : nat) : option (nat * EmbeddedTranslation) :=
  if decide (i < count reg)%nat then
    match fuel with
    | O => None
    | S fuel =>
      match translations reg !! i with
      | Some translation =>
        if et_hash translation =? checksum then Some (i, translation)
        else find_embedded_translation fuel reg checksum (S i)
      | None => None
      end
    end
  else None.

Definition embedded_translation_for (reg : EmbeddedTranslations) (checksum : Z)
    : option (nat * EmbeddedTranslation) :=
  find_embedded_translation (count reg) reg checksum 0.

(** The loop of [load_translation] that applies the mappings of an
    embedded translation to the decoder cache: the entry of each mapped
    address gets the mapping index as its instruction bits and the
    bytecode of the block-end hint. [block_end_bytecode] stands for
    [CPU<W>::computed_index_for(RV32_INSTR_BLOCK_END)], which is not among
    the sources. *)
Fixpoint apply_embedded_mappings (compressed_enabled : bool) (block_end_bytecode : Z)
    (mappings : list (Z * Z)) (exec_decoder : decoder) : decoder :=
  match mappings with
  | [] => exec_decoder
  | (addr, mapping_index) :: mappings =>
    let entry := decoder_entry_at compressed_enabled exec_decoder addr in
    let entry := set_instr mapping_index entry in
    let entry := set_bytecode block_end_bytecode entry in
    apply_embedded_mappings compressed_enabled block_end_bytecode mappings
      (<[addr / DIVISOR compressed_enabled := entry]> exec_decoder)
  end.

(** The hash of a call to [register_translation]. *)
Definition hash_of (r : registration) : Z := et_hash (slot_of r).

(* ===================================================================== *)
(** * Properties *)
(* ===================================================================== *)

(** ** Machine integers *)

Lemma wrap_range n x : 0 <= n -> 0 <= wrap n x < 2 ^ n.
Proof. intros Hn. unfold wrap. apply Z.mod_pos_bound. by apply Z.pow_pos_nonneg. Qed.

Lemma wrap_small n x : 0 <= x < 2 ^ n -> wrap n x = x.
Proof. intros H. unfold wrap. by apply Z.mod_small. Qed.

Lemma wrap_wrap_le n m x : 0 <= n <= m -> wrap n (wrap m x) = wrap n x.
Proof.
  intros [Hn Hm]. unfold wrap.
  replace (2 ^ m) with (2 ^ n * 2 ^ (m - n)).
  - rewrite Z.rem_mul_r by (apply Z.pow_nonzero || apply Z.pow_pos_nonneg; lia).
    rewrite Z.mul_comm, Z.mod_add by (apply Z.pow_nonzero; lia).
    apply Z.mod_mod. apply Z.pow_nonzero; lia.
  - rewrite <- Z.pow_add_r by lia. f_equal. lia.
Qed.

Lemma lor_shiftl_add a b n :
  0 <= n -> 0 <= a < 2 ^ n -> Z.lor a (Z.shiftl b n) = a + b * 2 ^ n.
Proof.
  intros Hn Ha.
  assert (Hland : Z.land a (Z.shiftl b n) = 0).
  { apply Z.bits_inj'. intros i Hi. rewrite Z.land_spec, Z.bits_0.
    destruct (Z.lt_ge_cases i n) as [Hlt | Hge].
    - rewrite Z.shiftl_spec_low by done. apply andb_false_r.
    - replace (Z.testbit a i) with false; [done|].
      symmetry. destruct (Z.eq_dec a 0) as [-> | Hne]; [apply Z.bits_0|].
      apply Z.bits_above_log2; [lia|].
      apply Z.log2_lt_pow2; [lia|].
      apply Z.lt_le_trans with (2 ^ n); [lia|].
      apply Z.pow_le_mono_r; lia. }
  rewrite <- Z.lxor_lor by done.
  rewrite <- Z.add_nocarry_lxor by done.
  by rewrite Z.shiftl_mul_pow2.
Qed.

(** ** Instruction reader *)

Lemma load8_range m a : 0 <= load8 m a < 2 ^ 8.
Proof. by apply wrap_range. Qed.

Lemma load16_le16 m a : load16 m a = le16 m a.
Proof.
  unfold load16, le16. rewrite lor_shiftl_add by (done || apply load8_range). lia.
Qed.

Lemma load16_range m a : 0 <= load16 m a < 2 ^ 16.
Proof.
  rewrite load16_le16. unfold le16.
  pose proof (load8_range m a). pose proof (load8_range m (a + 1)). lia.
Qed.

Lemma UnalignedLoad32_le32 m a : UnalignedLoad32 m a = le32 m a.
Proof.
  unfold UnalignedLoad32. rewrite lor_shiftl_add by (done || apply load16_range).
  rewrite !load16_le16. unfold le16, le32.
  replace (a + 2 + 1) with (a + 3) by lia. lia.
Qed.

Lemma read_instruction_range m pc e : 0 <= read_instruction m pc e < 2 ^ 32.
Proof.
  unfold read_instruction. destruct (_ <=? _).
  - rewrite UnalignedLoad32_le32. unfold le32.
    pose proof (load8_range m pc). pose proof (load8_range m (pc + 1)).
    pose proof (load8_range m (pc + 2)). pose proof (load8_range m (pc + 3)). lia.
  - unfold AlignedLoad16. pose proof (load16_range m pc). lia.
Qed.

(** As long as [pc + 4] is a 64-bit value, the test [pc + 4 <= end_pc] of
    the reader is the test on the numbers. *)
Lemma read_instruction_no_wrap (buf : memory) (pc end_pc : Z) :
  0 <= pc < end_pc ->
  pc + 4 < 2 ^ 64 ->
  read_instruction buf pc end_pc
  = (if pc + 4 <=? end_pc then le32 buf pc else le16 buf pc)
  /\ 0 <= read_instruction buf pc end_pc < 2 ^ 32.
Proof.
  intros Hpc Hno. split; [|apply read_instruction_range].
  unfold read_instruction. rewrite wrap_small by lia.
  destruct (pc + 4 <=? end_pc).
  - apply UnalignedLoad32_le32.
  - apply load16_le16.
Qed.

(** ** Fastsim without compressed instructions *)

Lemma entry_at_insert (d : decoder) (i j : Z) (e : DecoderData) :
  entry_at (<[i := e]> d) j = if decide (i = j) then e else entry_at d j.
Proof.
  unfold entry_at. destruct (decide (i = j)) as [-> | Hne].
  - by rewrite lookup_insert_eq.
  - by rewrite lookup_insert_ne.
Qed.

Lemma ends_block_instr (o : Z) (e1 e2 : DecoderData) :
  instr e1 = instr e2 -> ends_block o e1 = ends_block o e2.
Proof. unfold ends_block. by intros ->. Qed.

Lemma wrap16_succ_wrap32 v : wrap 16 (wrap 32 (v + 1)) = wrap 16 (wrap 16 v + 1).
Proof.
  rewrite wrap_wrap_le by lia. unfold wrap.
  rewrite (Z.add_mod v 1), (Z.add_mod (v mod 2 ^ 16) 1) by lia.
  by rewrite Z.mod_mod by lia.
Qed.

Lemma fastsim_backward_inv (W base_pc last_pc : Z) (exec_segment : memory)
    (fuel : nat) :
  forall (acc pc : Z) (d : decoder),
    4 <= base_pc -> base_pc - 4 <= pc < 2 ^ (8 * W) ->
    (pc + 4 - base_pc) / 4 <= Z.of_nat fuel ->
    exists d',
      fastsim_backward fuel W base_pc last_pc exec_segment acc pc d = Some d'
      /\ (forall i, instr (entry_at d' i) = instr (entry_at d i))
      /\ (forall i, pc / 4 < i -> entry_at d' i = entry_at d i)
      /\ (base_pc <= pc ->
          idxend (entry_at d' (pc / 4))
          = wrap 16 (if terminates_at exec_segment last_pc d pc then 0 else acc))
      /\ (forall q, base_pc <= q -> q + 4 <= pc -> (pc - q) mod 4 = 0 ->
          idxend (entry_at d' (q / 4))
          = if terminates_at exec_segment last_pc d q then 0
            else wrap 16 (idxend (entry_at d' ((q + 4) / 4)) + 1)).
Proof.
  induction fuel as [|fuel IH]; intros acc pc d Hbase Hpc Hfuel.
  - assert (pc < base_pc) by (Z.div_mod_to_equations; lia).
    exists d. cbn. rewrite (proj2 (Z.ltb_lt _ _)) by done.
    repeat split; try done; intros; lia.
  - cbn [fastsim_backward]. destruct (Z.ltb_spec pc base_pc) as [Hlt | Hge].
    { exists d. repeat split; try done; intros; lia. }
    fold (terminates_at exec_segment last_pc d pc). unfold DIVISOR.
    set (v := if terminates_at exec_segment last_pc d pc then 0 else acc).
    set (d1 := <[pc / 4 := set_idxend false v (entry_at d (pc / 4))]> d).
    assert (Hinstr1 : forall i, instr (entry_at d1 i) = instr (entry_at d i)).
    { intros i. unfold d1. rewrite entry_at_insert. by destruct (decide _) as [<- |]. }
    assert (Hterm1 : forall q, terminates_at exec_segment last_pc d1 q
                               = terminates_at exec_segment last_pc d q).
    { intros q. by apply ends_block_instr. }
    destruct (IH (wrap 32 (v + 1)) (wrap (8 * W) (pc - 4)) d1)
      as (d' & Hrun & Hi & Hframe & Hhere & Hbelow).
    { done. }
    { rewrite wrap_small by lia. lia. }
    { rewrite wrap_small by lia. Z.div_mod_to_equations; lia. }
    rewrite wrap_small in * by lia.
    assert (Hdiv : (pc - 4) / 4 = pc / 4 - 1) by (Z.div_mod_to_equations; lia).
    assert (Hpcv : idxend (entry_at d' (pc / 4)) = wrap 16 v).
    { rewrite Hframe by lia. unfold d1. rewrite entry_at_insert.
      by rewrite decide_True by done. }
    exists d'. split; [done|]. split; [|split; [|split]].
    + intros i. by rewrite Hi.
    + intros i Hgt. rewrite Hframe by lia. unfold d1.
      rewrite entry_at_insert. by rewrite decide_False by lia.
    + done.
    + intros q Hq Hqpc Hmod.
      destruct (Z.eq_dec (q + 4) pc) as [Heq | Hne].
      * replace q with (pc - 4) by lia. rewrite Hhere by lia.
        replace (pc - 4 + 4) with pc by lia. rewrite Hpcv, Hterm1.
        destruct (terminates_at exec_segment last_pc d (pc - 4)); [done|].
        apply wrap16_succ_wrap32.
      * rewrite Hbelow, Hterm1; [done|done| |].
        -- Z.div_mod_to_equations; lia.
        -- replace (pc - 4 - q) with (pc - q + (-1) * 4) by lia.
           by rewrite Z.mod_add by lia.
Qed.

(** What the backward walk leaves behind, entry by entry. *)
Lemma realize_fastsim_backward_spec (W base_pc last_pc : Z)
    (exec_segment : memory) (d : decoder) :
  4 <= base_pc <= last_pc -> last_pc < 2 ^ (8 * W) ->
  exists d',
    realize_fastsim false W base_pc last_pc exec_segment d = Some d'
    /\ (forall i, instr (entry_at d' i) = instr (entry_at d i))
    /\ (forall p, base_pc <= p < last_pc -> (last_pc - p) mod 4 = 0 ->
        idxend (decoder_entry_at false d' p)
        = if terminates_at exec_segment last_pc d' p || (p + 4 =? last_pc) then 0
          else wrap 16 (idxend (decoder_entry_at false d' (p + 4)) + 1)).
Proof.
  intros Hbase Hlast. unfold realize_fastsim.
  destruct (fastsim_backward_inv W base_pc last_pc exec_segment
              (Z.to_nat ((last_pc - base_pc) / 4)) 0
              (wrap (8 * W) (last_pc - 4)) d)
    as (d' & Hrun & Hi & Hframe & Hhere & Hbelow).
  { lia. }
  { rewrite wrap_small by lia. lia. }
  { rewrite wrap_small by lia. replace (last_pc - 4 + 4 - base_pc) with (last_pc - base_pc) by lia.
    rewrite Z2Nat.id; [lia|]. apply Z.div_pos; lia. }
  rewrite wrap_small in * by lia.
  exists d'. split; [done|]. split; [done|].
  intros q Hq Hmod. unfold decoder_entry_at, DIVISOR.
  assert (Hterm : terminates_at exec_segment last_pc d' q
                  = terminates_at exec_segment last_pc d q).
  { by apply ends_block_instr. }
  rewrite Hterm.
  destruct (Z.eqb_spec (q + 4) last_pc) as [Heq | Hne].
  - replace q with (last_pc - 4) by lia. rewrite Hhere by lia.
    rewrite orb_true_r. by destruct (terminates_at _ _ _ _).
  - rewrite orb_false_r. apply Hbelow; [lia| |].
    + assert (last_pc - q <> 4) by lia. Z.div_mod_to_equations; lia.
    + replace (last_pc - 4 - q) with (last_pc - q + (-1) * 4) by lia.
      by rewrite Z.mod_add by lia.
Qed.

Lemma wrap16_succ_wrap16 v : wrap 16 (wrap 16 v + 1) = wrap 16 (1 + v).
Proof.
  unfold wrap. rewrite (Z.add_comm 1 v), (Z.add_mod v 1) by lia.
  rewrite (Z.add_mod (v mod 2 ^ 16) 1) by lia. by rewrite Z.mod_mod by lia.
Qed.

Lemma run_length_closed_form (exec_segment : memory) (last_pc : Z) (d' : decoder)
    (base_pc : Z) :
  (forall p, base_pc <= p < last_pc -> (last_pc - p) mod 4 = 0 ->
     idxend (decoder_entry_at false d' p)
     = if terminates_at exec_segment last_pc d' p || (p + 4 =? last_pc) then 0
       else wrap 16 (idxend (decoder_entry_at false d' (p + 4)) + 1)) ->
  forall (fuel : nat) (p : Z),
    base_pc <= p < last_pc -> (last_pc - p) mod 4 = 0 ->
    last_pc - p <= 4 * Z.of_nat fuel ->
    idxend (decoder_entry_at false d' p)
    = wrap 16 (run_length fuel exec_segment last_pc d' p).
Proof.
  intros Hrec. induction fuel as [|fuel IH]; intros p Hp Hmod Hfuel; [lia|].
  rewrite Hrec by done. cbn [run_length].
  destruct (terminates_at exec_segment last_pc d' p); [done|].
  destruct (Z.eqb_spec (p + 4) last_pc) as [Heq | Hne]; [done|]. cbn [orb].
  rewrite IH.
  - apply wrap16_succ_wrap16.
  - assert (last_pc - p <> 4) by lia. Z.div_mod_to_equations; lia.
  - replace (last_pc - (p + 4)) with (last_pc - p + (-1) * 4) by lia.
    by rewrite Z.mod_add by lia.
  - lia.
Qed.

(** C1 (as amended). After the second pass without the C extension, for
    every decoder entry [p] of the segment: if the instruction at [p] has
    opcode BRANCH, JAL, JALR, AUIPC or SYSTEM, or the entry holds the
    block-end sentinel [0xFFFF], or [p] is the last entry of the segment,
    then [idxend[p] = 0]; otherwise [idxend[p] = (idxend[p+4] + 1) mod 2^16].
    Equivalently [idxend[p]] is, modulo [2^16], the number of instructions
    from [p] on that come before the next block terminator or the last
    entry of the segment. *)
Theorem fastsim_idxend_without_compressed (W base_pc last_pc : Z)
    (exec_segment : memory) (d : decoder) :
  4 <= base_pc <= last_pc -> last_pc < 2 ^ (8 * W) ->
  exists d',
    realize_fastsim false W base_pc last_pc exec_segment d = Some d'
    /\ forall p, base_pc <= p < last_pc -> (last_pc - p) mod 4 = 0 ->
       let entry := decoder_entry_at false d' p in
       let opcode := opcode (read_instruction exec_segment p last_pc) in
       (ends_block opcode entry = true -> idxend entry = 0)
       /\ (p + 4 = last_pc -> idxend entry = 0)
       /\ (ends_block opcode entry = false -> p + 4 < last_pc ->
           idxend entry
           = (idxend (decoder_entry_at false d' (p + 4)) + 1) mod 2 ^ 16)
       /\ idxend entry
          = run_length (Z.to_nat ((last_pc - p) / 4)) exec_segment last_pc d' p
            mod 2 ^ 16.
Proof.
  intros Hbase Hlast.
  destruct (realize_fastsim_backward_spec W base_pc last_pc exec_segment d Hbase Hlast)
    as (d' & Hrun & _ & Hrec).
  exists d'. split; [done|]. intros p Hp Hmod. cbn zeta.
  pose proof (Hrec p Hp Hmod) as Hp'. unfold terminates_at in Hp'.
  unfold decoder_entry_at, DIVISOR in *.
  repeat split.
  - intros Ht. by rewrite Hp', Ht.
  - intros Heq. rewrite Hp'. rewrite (proj2 (Z.eqb_eq _ _) Heq). by rewrite orb_true_r.
  - intros Ht Hlt. rewrite Hp', Ht. by rewrite (proj2 (Z.eqb_neq _ _)) by lia.
  - apply (run_length_closed_form exec_segment last_pc d' base_pc Hrec); try done.
    rewrite Z2Nat.id by (apply Z.div_pos; lia). Z.div_mod_to_equations; lia.
Qed.

Lemma fastsim_idxend_without_compressed_witness :
  exists d',
    realize_fastsim false 4 0x1000 0x100C
      (mem_of_words 0x1000 [0x00000097; 0x00818193; 0x00008067]) ∅ = Some d'
    /\ idxend (decoder_entry_at false d' 0x1000) = 0
    /\ idxend (decoder_entry_at false d' 0x1004) = 1
    /\ idxend (decoder_entry_at false d' 0x1008) = 0.
Proof.
  destruct (fastsim_idxend_without_compressed 4 0x1000 0x100C
              (mem_of_words 0x1000 [0x00000097; 0x00818193; 0x00008067]) ∅
              ltac:(lia) ltac:(lia)) as (d' & Hrun & Hall).
  exists d'. split; [done|].
  destruct (Hall 0x1000 ltac:(lia) eq_refl) as (_ & _ & _ & H0).
  destruct (Hall 0x1004 ltac:(lia) eq_refl) as (_ & _ & _ & H1).
  destruct (Hall 0x1008 ltac:(lia) eq_refl) as (_ & _ & _ & H2).
  vm_compute in Hrun. injection Hrun as <-. by vm_compute.
Defined.

(** C1 as stated fails in two places. A segment that holds the single
    instruction [addi x0, x0, 0] gets [idxend = 0] on its only entry, which
    is not a block terminator and cannot be one more than anything. In a
    segment of 65537 such instructions the first entry gets [idxend = 0]
    while the next one holds 65535: the field is 16 bits wide. *)
Lemma fastsim_idxend_counterexample :
  ends_block (opcode (read_instruction nop_memory 0x1000 0x1004)) zero_entry = false
  /\ option_map (fun d' => (instr (decoder_entry_at false d' 0x1000),
                            idxend (decoder_entry_at false d' 0x1000),
                            idxend (decoder_entry_at false d' 0x1004)))
       (realize_fastsim false 4 0x1000 0x1004 nop_memory ∅)
     = Some (0, 0, 0)
  /\ option_map (fun d' => (instr (decoder_entry_at false d' 0x1000),
                            idxend (decoder_entry_at false d' 0x1000),
                            idxend (decoder_entry_at false d' 0x1004)))
       (realize_fastsim false 4 0x1000 (0x1000 + 4 * 65537) nop_memory ∅)
     = Some (0, 0, 65535).
Proof. split; [|split]; vm_compute; reflexivity. Qed.

(** ** Accessors of a decoder entry *)

(** C10. Without the C extension every entry satisfies
    [instruction_count() = idxend + 1] and [block_bytes() = 4 * idxend];
    with it, [block_bytes() = 2 * idxend] and
    [instruction_count() = idxend + 1 - icount]. Hence, after fastsim
    without the C extension, an entry that terminates a block reports
    [instruction_count() = 1] and [block_bytes() = 0]. *)
Theorem accessors_of_block_end (e : DecoderData) (W base_pc last_pc : Z)
    (exec_segment : memory) (d : decoder) :
  4 <= base_pc <= last_pc -> last_pc < 2 ^ (8 * W) ->
  (instruction_count false e = idxend e + 1
   /\ block_bytes false e = 4 * idxend e
   /\ block_bytes true e = 2 * idxend e
   /\ instruction_count true e = idxend e + 1 - icount e)
  /\ exists d',
       realize_fastsim false W base_pc last_pc exec_segment d = Some d'
       /\ forall p, base_pc <= p < last_pc -> (last_pc - p) mod 4 = 0 ->
          let entry := decoder_entry_at false d' p in
          ends_block (opcode (read_instruction exec_segment p last_pc)) entry = true ->
          instruction_count false entry = 1 /\ block_bytes false entry = 0.
Proof.
  intros Hbase Hlast. split.
  - unfold instruction_count, block_bytes. repeat split; lia.
  - destruct (realize_fastsim_backward_spec W base_pc last_pc exec_segment d Hbase Hlast)
      as (d' & Hrun & _ & Hrec).
    exists d'. split; [done|]. intros p Hp Hmod entry Hends.
    pose proof (Hrec p Hp Hmod) as Hidx. unfold terminates_at in Hidx.
    unfold decoder_entry_at, DIVISOR in *. fold entry in Hidx.
    rewrite Hends in Hidx. cbn in Hidx.
    unfold instruction_count, block_bytes. rewrite Hidx. done.
Qed.

(** Scenario S2: a segment holding only [ecall]. *)
Lemma accessors_of_block_end_witness :
  exists d',
    realize_fastsim false 4 0x1000 0x1004 (mem_of_words 0x1000 [0x00000073]) ∅ = Some d'
    /\ instruction_count false (decoder_entry_at false d' 0x1000) = 1
    /\ block_bytes false (decoder_entry_at false d' 0x1000) = 0.
Proof.
  destruct (accessors_of_block_end zero_entry 4 0x1000 0x1004
              (mem_of_words 0x1000 [0x00000073]) ∅ ltac:(lia) ltac:(lia))
    as (_ & d' & Hrun & Hall).
  exists d'. split; [done|].
  apply (Hall 0x1000); [lia|reflexivity|].
  vm_compute in Hrun. injection Hrun as <-. reflexivity.
Defined.

(** ** Fastsim with compressed instructions *)

Lemma length_at_cases seg last_pc pc :
  length_at seg last_pc pc = 2 \/ length_at seg last_pc pc = 4.
Proof. unfold length_at, length. destruct (is_long _); auto. Qed.

Lemma halfwords_cons seg last_pc p starts :
  halfwords seg last_pc (p :: starts)
  = length_at seg last_pc p / 2 + halfwords seg last_pc starts.
Proof. done. Qed.

Lemma halfwords_lower seg last_pc starts :
  Z.of_nat (List.length starts) <= halfwords seg last_pc starts.
Proof.
  induction starts as [|p starts IH]; [done|].
  rewrite halfwords_cons. cbn [List.length].
  destruct (length_at_cases seg last_pc p) as [-> | ->];
    change (2 / 2) with 1; change (4 / 2) with 2; lia.
Qed.

Lemma halfwords_long seg last_pc starts :
  halfwords seg last_pc starts - Z.of_nat (List.length starts)
  = long_instructions seg last_pc starts.
Proof.
  unfold long_instructions.
  induction starts as [|p starts IH]; [done|].
  rewrite halfwords_cons, filter_cons. cbn [List.length].
  destruct (length_at_cases seg last_pc p) as [Hl | Hl]; rewrite Hl.
  - rewrite decide_False by lia. change (2 / 2) with 1. lia.
  - rewrite decide_True by done. cbn [List.length]. change (4 / 2) with 2. lia.
Qed.

Lemma block_stops_at_instr W last_pc seg (d1 d2 : decoder) pc :
  (forall j, instr (entry_at d1 j) = instr (entry_at d2 j)) ->
  block_stops_at W last_pc seg d1 pc = block_stops_at W last_pc seg d2 pc.
Proof.
  intros H. unfold block_stops_at. destruct (_ =? 2); [done|].
  by apply ends_block_instr.
Qed.

Lemma block_starts_instr W last_pc seg (d1 d2 : decoder) fuel :
  (forall j, instr (entry_at d1 j) = instr (entry_at d2 j)) ->
  forall pc, block_starts fuel W last_pc seg d1 pc
             = block_starts fuel W last_pc seg d2 pc.
Proof.
  intros H. induction fuel as [|fuel IH]; intros pc; [done|].
  cbn [block_starts]. rewrite (block_stops_at_instr _ _ _ d1 d2) by done.
  by rewrite IH.
Qed.

Lemma block_starts_chain W last_pc seg d fuel :
  forall pc, chain seg last_pc pc (block_starts fuel W last_pc seg d pc).
Proof.
  induction fuel as [|fuel IH]; intros pc; [done|].
  cbn [block_starts]. destruct (Z.ltb_spec pc last_pc); [|done].
  cbn [chain]. split; [done|]. split; [done|].
  destruct (block_stops_at _ _ _ _ _); [done|]. apply IH.
Qed.

(** Every start of a chain lies between its origin and its end. *)
Lemma chain_bounds seg last_pc starts :
  forall pc k p, chain seg last_pc pc starts -> starts !! k = Some p ->
    pc <= p < last_pc
    /\ p + length_at seg last_pc p <= pc + 2 * halfwords seg last_pc starts.
Proof.
  induction starts as [|q starts IH]; intros pc k p Hch Hk; [done|].
  cbn [chain] in Hch. destruct Hch as (-> & Hlt & Hch).
  rewrite halfwords_cons.
  pose proof (halfwords_lower seg last_pc starts) as Hlow.
  destruct k as [|k]; cbn in Hk.
  - injection Hk as <-.
    destruct (length_at_cases seg last_pc pc) as [Hl | Hl]; rewrite Hl;
      change (2 / 2) with 1; change (4 / 2) with 2; lia.
  - destruct (IH _ _ _ Hch Hk) as [Hb He].
    destruct (length_at_cases seg last_pc pc) as [Hl | Hl]; rewrite Hl in *;
      change (2 / 2) with 1; change (4 / 2) with 2; lia.
Qed.

Lemma chain_halfwords_bound seg last_pc starts pc :
  chain seg last_pc pc starts ->
  pc + 2 * halfwords seg last_pc starts <= Z.max pc (last_pc + 3).
Proof.
  revert pc. induction starts as [|q starts IH]; intros pc Hch.
  - cbn. lia.
  - cbn [chain] in Hch. destruct Hch as (-> & Hlt & Hch).
    rewrite halfwords_cons. specialize (IH _ Hch).
    destruct (length_at_cases seg last_pc pc) as [Hl | Hl]; rewrite Hl in *;
      change (2 / 2) with 1; change (4 / 2) with 2; lia.
Qed.

Lemma fastsim_measure_spec W last_pc seg d (fuel : nat) :
  forall data pc dl,
    0 <= pc -> last_pc + 4 <= 2 ^ (8 * W) -> 0 <= dl < 2 ^ 64 ->
    last_pc - pc <= Z.of_nat fuel ->
    let starts := block_starts fuel W last_pc seg d pc in
    fastsim_measure fuel W last_pc seg d data pc dl
    = Some (data ++ map (fun p => p / 2) starts,
            pc + 2 * halfwords seg last_pc starts,
            wrap 64 (dl + halfwords seg last_pc starts)).
Proof.
  induction fuel as [|fuel IH]; intros data pc dl Hpc Hlast Hdl Hfuel starts.
  - subst starts. cbn. rewrite (proj2 (Z.ltb_ge _ _)) by lia.
    rewrite app_nil_r, Z.add_0_r, Z.add_0_r, wrap_small by done. done.
  - subst starts. cbn [fastsim_measure block_starts].
    destruct (Z.ltb_spec pc last_pc) as [Hlt | Hge].
    + fold (length_at seg last_pc pc). unfold DIVISOR.
      assert (Hwrap : wrap (8 * W) (pc + length_at seg last_pc pc)
                      = pc + length_at seg last_pc pc).
      { apply wrap_small. destruct (length_at_cases seg last_pc pc); lia. }
      rewrite Hwrap.
      change (if length_at seg last_pc pc =? 2
              then negb (is_regular_compressed W (half0 (read_instruction seg pc last_pc)))
              else ends_block (opcode (read_instruction seg pc last_pc))
                     (entry_at d (pc / 2)))
        with (block_stops_at W last_pc seg d pc).
      destruct (block_stops_at W last_pc seg d pc).
      * rewrite halfwords_cons. cbn [map halfwords foldr].
        do 3 f_equal. destruct (length_at_cases seg last_pc pc) as [-> | ->];
          change (2 / 2) with 1; change (4 / 2) with 2; lia.
        f_equal; lia.
      * rewrite IH.
        -- rewrite halfwords_cons. cbn [map]. rewrite <- app_assoc. cbn [app].
           do 2 f_equal.
           ++ f_equal. destruct (length_at_cases seg last_pc pc) as [-> | ->];
                change (2 / 2) with 1; change (4 / 2) with 2; lia.
           ++ unfold wrap. rewrite Zplus_mod_idemp_l. f_equal. lia.
        -- destruct (length_at_cases seg last_pc pc); lia.
        -- done.
        -- by apply wrap_range.
        -- destruct (length_at_cases seg last_pc pc); lia.
    + cbn. rewrite app_nil_r, Z.add_0_r, Z.add_0_r, wrap_small by done. done.
Qed.

Lemma overflow_checked_instr_count_min x :
  0 <= x -> overflow_checked_instr_count x = Z.min 255 x.
Proof.
  intros Hx. unfold overflow_checked_instr_count.
  destruct (Z.ltb_spec 255 x); [lia|].
  rewrite wrap_small; lia.
Qed.

(** The filling loop, run over the starts of a chain. *)
Lemma fastsim_fill_spec W last_pc seg :
  forall starts pc size i d,
    chain seg last_pc pc starts ->
    0 <= pc -> last_pc + 4 <= 2 ^ (8 * W) -> 8 * W <= 64 ->
    size - i = Z.of_nat (List.length starts) ->
    let d' := fastsim_fill W last_pc seg (map (fun p => p / 2) starts) size i pc
                (halfwords seg last_pc starts) d in
    (forall j, instr (entry_at d' j) = instr (entry_at d j))
    /\ (forall j, j < pc / 2 -> entry_at d' j = entry_at d j)
    /\ (forall k p, starts !! k = Some p ->
        let rest := drop k starts in
        let e := entry_at d' (p / 2) in
        idxend e = wrap 8 (halfwords seg last_pc rest)
        /\ opcode_length e = length_at seg last_pc p
        /\ instr_count e
           = Z.min 255 (halfwords seg last_pc rest - Z.of_nat (List.length rest))).
Proof.
  induction starts as [|q starts IH]; intros pc size i d Hch Hpc Hlast HW Hsize d'.
  - subst d'. cbn. repeat split; done.
  - cbn [chain] in Hch. destruct Hch as (-> & Hlt & Hch).
    subst d'. cbn [map fastsim_fill].
    fold (length_at seg last_pc pc).
    pose proof (halfwords_lower seg last_pc starts) as Hlow.
    pose proof (chain_halfwords_bound _ _ _ _ Hch) as Hup.
    assert (Hpow : 2 ^ (8 * W) <= 2 ^ 64) by (apply Z.pow_le_mono_r; lia).
    assert (Hlen : length_at seg last_pc pc = 2 \/ length_at seg last_pc pc = 4)
      by apply length_at_cases.
    assert (Hwrap : wrap (8 * W) (pc + length_at seg last_pc pc)
                    = pc + length_at seg last_pc pc).
    { apply wrap_small. lia. }
    rewrite Hwrap.
    assert (Hdl : wrap 64 (halfwords seg last_pc (pc :: starts)
                           - length_at seg last_pc pc / 2)
                  = halfwords seg last_pc starts).
    { rewrite halfwords_cons. rewrite wrap_small; [ring|].
      destruct Hlen as [Hl | Hl]; rewrite Hl in *;
        change (2 / 2) with 1; change (4 / 2) with 2; lia. }
    rewrite Hdl.
    set (e0 := set_instr_count _ _).
    set (d1 := <[pc / 2 := e0]> d).
    cbn [List.length] in Hsize.
    destruct (IH (pc + length_at seg last_pc pc) size (i + 1) d1 Hch
                ltac:(lia) Hlast HW ltac:(lia)) as (Hi & Hframe & Hfilled).
    assert (Hidx : pc / 2 < (pc + length_at seg last_pc pc) / 2).
    { destruct Hlen as [-> | ->]; Z.div_mod_to_equations; lia. }
    split; [|split].
    + intros j. rewrite Hi. unfold d1. rewrite entry_at_insert.
      destruct (decide _) as [<- |]; done.
    + intros j Hj. rewrite Hframe by lia. unfold d1.
      rewrite entry_at_insert. by rewrite decide_False by lia.
    + intros [|k] p Hk; cbn in Hk.
      * injection Hk as <-. cbn zeta. rewrite Hframe by done.
        unfold d1. rewrite entry_at_insert, decide_True by done.
        rewrite drop_0. split; [done|]. split; [done|].
        unfold e0. cbn [instr_count set_instr_count].
        rewrite wrap_small.
        -- rewrite overflow_checked_instr_count_min.
           ++ f_equal. cbn [List.length]. lia.
           ++ pose proof (halfwords_lower seg last_pc (pc :: starts)) as H'.
              cbn [List.length] in H'. lia.
        -- pose proof (halfwords_lower seg last_pc (pc :: starts)) as H'.
           cbn [List.length] in H'. rewrite halfwords_cons in *.
           destruct Hlen as [Hl | Hl]; rewrite Hl in *;
             change (2 / 2) with 1 in *; change (4 / 2) with 2 in *; lia.
      * cbn [drop]. apply (Hfilled k p Hk).
Qed.

Lemma block_starts_nonempty W last_pc seg d fuel pc :
  pc < last_pc -> (0 < fuel)%nat ->
  1 <= halfwords seg last_pc (block_starts fuel W last_pc seg d pc).
Proof.
  intros Hlt Hfuel. destruct fuel as [|fuel]; [lia|].
  cbn [block_starts]. rewrite (proj2 (Z.ltb_lt _ _)) by done.
  rewrite halfwords_cons.
  pose proof (halfwords_lower seg last_pc
    (if block_stops_at W last_pc seg d pc then []
     else block_starts fuel W last_pc seg d (pc + length_at seg last_pc pc))).
  destruct (length_at_cases seg last_pc pc) as [Hl | Hl]; rewrite Hl in *;
    change (2 / 2) with 1 in *; change (4 / 2) with 2 in *; lia.
Qed.

(** The outer loop: every block met on the way is filled as
    [fastsim_fill_spec] says, and later blocks leave it alone. *)
Lemma fastsim_forward_spec W last_pc seg (d0 : decoder) (fuel : nat) :
  forall pc (d : decoder),
    (forall j, instr (entry_at d j) = instr (entry_at d0 j)) ->
    0 <= pc -> last_pc + 4 <= 2 ^ (8 * W) -> 8 * W <= 64 ->
    last_pc - pc <= Z.of_nat fuel ->
    exists d',
      fastsim_forward fuel W last_pc seg pc d = Some d'
      /\ (forall j, instr (entry_at d' j) = instr (entry_at d0 j))
      /\ (forall j, j < pc / 2 -> entry_at d' j = entry_at d j)
      /\ (forall b, b ∈ block_bases fuel W last_pc seg d0 pc ->
          forall k p,
            block_starts (Z.to_nat (last_pc - b)) W last_pc seg d0 b !! k = Some p ->
            let rest := drop k (block_starts (Z.to_nat (last_pc - b)) W last_pc seg d0 b) in
            let e := entry_at d' (p / 2) in
            idxend e = wrap 8 (halfwords seg last_pc rest)
            /\ opcode_length e = length_at seg last_pc p
            /\ instr_count e
               = Z.min 255 (halfwords seg last_pc rest - Z.of_nat (List.length rest))).
Proof.
  induction fuel as [|fuel IH]; intros pc d Hinstr Hpc Hlast HW Hfuel.
  - exists d. cbn. rewrite (proj2 (Z.ltb_ge _ _)) by lia.
    split; [done|]. split; [done|]. split; [done|].
    intros b Hb. by apply elem_of_nil in Hb.
  - cbn [fastsim_forward block_bases].
    destruct (Z.ltb_spec pc last_pc) as [Hlt | Hge].
    2:{ exists d. split; [done|]. split; [done|]. split; [done|].
        intros b Hb. by apply elem_of_nil in Hb. }
    set (starts := block_starts (Z.to_nat (last_pc - pc)) W last_pc seg d0 pc).
    assert (Hstarts : block_starts (Z.to_nat (last_pc - pc)) W last_pc seg d pc = starts).
    { by apply block_starts_instr. }
    assert (Hch : chain seg last_pc pc starts) by apply block_starts_chain.
    pose proof (chain_halfwords_bound _ _ _ _ Hch) as Hup.
    pose proof (block_starts_nonempty W last_pc seg d0 (Z.to_nat (last_pc - pc)) pc
                  Hlt ltac:(lia)) as Hne.
    fold starts in Hne.
    assert (Hpow : 2 ^ (8 * W) <= 2 ^ 64) by (apply Z.pow_le_mono_r; lia).
    rewrite fastsim_measure_spec by lia. rewrite Hstarts.
    cbn [app]. rewrite Z.add_0_l, wrap_small by lia.
    rewrite length_map.
    destruct (fastsim_fill_spec W last_pc seg starts pc
                (Z.of_nat (List.length starts)) 0 d Hch Hpc Hlast HW ltac:(lia))
      as (Hi1 & Hframe1 & Hfilled1).
    set (d1 := fastsim_fill _ _ _ _ _ _ _ _ _) in *.
    destruct (IH (pc + 2 * halfwords seg last_pc starts) d1)
      as (d' & Hrun & Hi & Hframe & Hblocks); try lia.
    { intros j. by rewrite Hi1. }
    exists d'. split; [done|]. split; [done|]. split.
    + intros j Hj. rewrite Hframe, Hframe1; [done|done|].
      Z.div_mod_to_equations; lia.
    + intros b Hb k p Hk. apply elem_of_cons in Hb as [-> | Hb].
      * fold starts in Hk |- *. cbn zeta.
        destruct (chain_bounds _ _ _ _ _ _ Hch Hk) as [Hb1 Hb2].
        rewrite Hframe; [by apply Hfilled1|].
        destruct (length_at_cases seg last_pc p); Z.div_mod_to_equations; lia.
      * by apply Hblocks.
Qed.

Lemma halfwords_nonneg seg last_pc starts : 0 <= halfwords seg last_pc starts.
Proof. pose proof (halfwords_lower seg last_pc starts). lia. Qed.

Lemma halfwords_drop_le seg last_pc starts k :
  halfwords seg last_pc (drop k starts) <= halfwords seg last_pc starts.
Proof.
  revert k. induction starts as [|p starts IH]; intros [|k]; cbn [drop]; try done.
  rewrite halfwords_cons. specialize (IH k).
  destruct (length_at_cases seg last_pc p) as [Hl | Hl]; rewrite Hl;
    change (2 / 2) with 1; change (4 / 2) with 2; lia.
Qed.

(** C2 (as amended). After the second pass with the C extension, take any
    block [b] of the segment and let [p] be its [k]-th instruction start.
    Then [idxend[p]] is the number of half-words from [p] to the end of the
    block, modulo [2^8]; so within a block of at most 255 half-words
    [idxend] does not increase from one instruction start to the next, and
    the last entry of every block holds its own length in half-words.
    [instr_count[p]] is [min(255, H - N)], where [H] is that number of
    half-words and [N] the number of instructions from [p] on: it counts
    the four-byte instructions that remain, not the instructions. *)
Theorem fastsim_with_compressed (W base_pc last_pc : Z)
    (exec_segment : memory) (d : decoder) :
  8 * W <= 64 -> 0 <= base_pc -> last_pc + 4 <= 2 ^ (8 * W) ->
  exists d',
    realize_fastsim true W base_pc last_pc exec_segment d = Some d'
    /\ forall b,
       b ∈ block_bases (Z.to_nat (last_pc - base_pc)) W last_pc exec_segment d base_pc ->
       let starts := block_starts (Z.to_nat (last_pc - b)) W last_pc exec_segment d b in
       forall k p, starts !! k = Some p ->
         let rest := drop k starts in
         let entry := decoder_entry_at true d' p in
         idxend entry = halfwords exec_segment last_pc rest mod 2 ^ 8
         /\ (halfwords exec_segment last_pc starts <= 255 ->
             forall q, starts !! S k = Some q ->
               idxend (decoder_entry_at true d' q) <= idxend entry)
         /\ (S k = List.length starts ->
             idxend entry = length_at exec_segment last_pc p / 2)
         /\ opcode_length entry = length_at exec_segment last_pc p
         /\ instr_count entry
            = Z.min 255 (halfwords exec_segment last_pc rest
                         - Z.of_nat (List.length rest))
         /\ halfwords exec_segment last_pc rest - Z.of_nat (List.length rest)
            = long_instructions exec_segment last_pc rest.
Proof.
  intros HW Hbase Hlast. unfold realize_fastsim.
  destruct (fastsim_forward_spec W last_pc exec_segment d
              (Z.to_nat (last_pc - base_pc)) base_pc d
              ltac:(done) Hbase Hlast HW ltac:(lia))
    as (d' & Hrun & _ & _ & Hblocks).
  exists d'. split; [done|]. intros b Hb k p Hk.
  set (starts := block_starts _ _ _ _ _ b) in *.
  set (rest := drop k starts).
  set (entry := decoder_entry_at true d' p).
  unfold decoder_entry_at, DIVISOR in *.
  destruct (Hblocks b Hb k p Hk) as (Hidx & Hlen & Hcnt).
  fold starts rest in Hidx, Hlen, Hcnt.
  split; [done|]. split; [|split; [|split; [done|split; [done|]]]].
  - intros Hfit q Hq. subst entry. rewrite Hidx.
    destruct (Hblocks b Hb (S k) q Hq) as (Hidxq & _). fold starts in Hidxq.
    rewrite Hidxq. subst rest. rewrite (drop_S starts p k Hk).
    pose proof (halfwords_drop_le exec_segment last_pc starts k) as Hle.
    rewrite (drop_S starts p k Hk) in Hle.
    pose proof (halfwords_nonneg exec_segment last_pc (drop (S k) starts)).
    rewrite halfwords_cons in *.
    rewrite !wrap_small;
      destruct (length_at_cases exec_segment last_pc p) as [Hl | Hl]; rewrite Hl in *;
      change (2 / 2) with 1 in *; change (4 / 2) with 2 in *; lia.
  - intros Hlast_entry. subst entry. rewrite Hidx. subst rest.
    rewrite (drop_S starts p k Hk), Hlast_entry, drop_all, halfwords_cons.
    cbn. destruct (length_at_cases exec_segment last_pc p) as [-> | ->]; done.
  - apply halfwords_long.
Qed.

Lemma fastsim_with_compressed_witness :
  exists d',
    realize_fastsim true 4 0x1000 0x100A
      (mem_of_bytes 0x1000 [0x01; 0x00; 0x13; 0x00; 0x00; 0x00; 0x82; 0x80; 0x01; 0x00]) ∅
    = Some d'
    /\ idxend (decoder_entry_at true d' 0x1002) = 3
    /\ instr_count (decoder_entry_at true d' 0x1002) = 1.
Proof.
  destruct (fastsim_with_compressed 4 0x1000 0x100A
              (mem_of_bytes 0x1000 [0x01; 0x00; 0x13; 0x00; 0x00; 0x00; 0x82; 0x80; 0x01; 0x00]) ∅
              ltac:(lia) ltac:(lia) ltac:(lia)) as (d' & Hrun & Hall).
  exists d'. split; [done|].
  specialize (Hall 0x1000). cbv zeta in Hall.
  match type of Hall with ?A -> _ =>
    assert (Hin : A) by (clear; vm_compute; constructor); specialize (Hall Hin) end.
  specialize (Hall 1%nat 0x1002).
  match type of Hall with ?A -> _ =>
    assert (Hk : A) by (clear; vm_compute; reflexivity); specialize (Hall Hk) end.
  destruct Hall as (Hidx & _ & _ & _ & Hcnt & _).
  split; [exact Hidx | exact Hcnt].
Defined.

(** C2 as stated fails in two places. In a segment that holds only [c.jr ra]
    one instruction remains from the only entry on, yet its [instr_count]
    is 0. In a block of 129 four-byte instructions (258 half-words) the
    8-bit [idxend] reads 2, 0, 254 on the first three entries, so it
    increases from the second to the third. *)
Lemma fastsim_with_compressed_counterexample :
  (block_starts 2 4 0x1002 (mem_of_bytes 0x1000 [0x82; 0x80]) ∅ 0x1000 = [0x1000]
   /\ option_map (fun d' => instr_count (decoder_entry_at true d' 0x1000))
        (realize_fastsim true 4 0x1000 0x1002 (mem_of_bytes 0x1000 [0x82; 0x80]) ∅)
      = Some 0)
  /\ (List.length (block_starts 516 4 (0x1000 + 4 * 129) nop_memory ∅ 0x1000) = 129%nat
      /\ option_map (fun d' => (idxend (decoder_entry_at true d' 0x1000),
                                idxend (decoder_entry_at true d' 0x1004),
                                idxend (decoder_entry_at true d' 0x1008)))
           (realize_fastsim true 4 0x1000 (0x1000 + 4 * 129) nop_memory ∅)
         = Some (2, 0, 254)).
Proof. split; split; vm_compute; reflexivity. Qed.

(** ** Handler interning *)

Lemma handler_index_from_spec (t : list Z) (h : Z) (n : nat) :
  forall i, (i + n = List.length t)%nat ->
    match handler_index_from n i t h with
    | inr (k, t') =>
      (i <= k < List.length t)%nat
      /\ (forall j, (i <= j < k)%nat -> t !!! j <> h /\ t !!! j <> nullptr)
      /\ ((t !!! k = h /\ t' = t)
          \/ (t !!! k <> h /\ t !!! k = nullptr /\ t' = <[k := h]> t))
    | inl e =>
      e = handler_space_exn t
      /\ forall j, (i <= j < List.length t)%nat -> t !!! j <> h /\ t !!! j <> nullptr
    end.
Proof.
  induction n as [|n IH]; intros i Hi; cbn [handler_index_from].
  - split; [done|]. intros j Hj. lia.
  - destruct (Z.eqb_spec (t !!! i) h) as [Heq | Hne].
    { split; [lia|]. split; [intros j Hj; lia|]. by left. }
    destruct (Z.eqb_spec (t !!! i) nullptr) as [Hnull | Hnn].
    { split; [lia|]. split; [intros j Hj; lia|]. by right. }
    specialize (IH (S i) ltac:(lia)).
    destruct (handler_index_from n (S i) t h) as [e | [k t']].
    + destruct IH as [-> Hall]. split; [done|]. intros j Hj.
      destruct (decide (j = i)) as [-> |]; [done|]. apply Hall. lia.
    + destruct IH as (Hk & Hall & Hres). split; [lia|]. split; [|done].
      intros j Hj. destruct (decide (j = i)) as [-> |]; [done|]. apply Hall. lia.
Qed.

Lemma handler_index_for_spec (t : list Z) (h : Z) :
  match handler_index_for t h with
  | inr (k, t') =>
    (1 <= k < List.length t)%nat
    /\ (forall j, (1 <= j < k)%nat -> t !!! j <> h /\ t !!! j <> nullptr)
    /\ ((t !!! k = h /\ t' = t)
        \/ (t !!! k <> h /\ t !!! k = nullptr /\ t' = <[k := h]> t))
  | inl e =>
    e = handler_space_exn t
    /\ forall j, (1 <= j < List.length t)%nat -> t !!! j <> h /\ t !!! j <> nullptr
  end.
Proof.
  unfold handler_index_for.
  destruct (decide (List.length t = 0%nat)) as [Hz | Hnz].
  - rewrite Hz. cbn. split; [done|]. intros j Hj. lia.
  - apply handler_index_from_spec. lia.
Qed.

(** A successful call leaves the handler where the scan finds it. *)
Lemma handler_index_for_interned (t t' : list Z) (h : Z) (i : nat) :
  h <> nullptr -> handler_index_for t h = inr (i, t') -> interned t' h i.
Proof.
  intros Hh Hcall. pose proof (handler_index_for_spec t h) as Hs.
  rewrite Hcall in Hs. destruct Hs as (Hi & Hbefore & [[Hk ->] | (Hne & Hnull & ->)]).
  - done.
  - split; [by rewrite length_insert|]. split.
    + apply list_lookup_total_insert_eq. lia.
    + intros j Hj. rewrite list_lookup_total_insert_ne by lia. by apply Hbefore.
Qed.

(** An interned handler is found again, at the same index, without any
    change to the table. *)
Lemma interned_found (t : list Z) (h : Z) (i : nat) :
  interned t h i -> handler_index_for t h = inr (i, t).
Proof.
  intros (Hi & Hat & Hbefore). pose proof (handler_index_for_spec t h) as Hs.
  destruct (handler_index_for t h) as [e | [k t']].
  - destruct Hs as [_ Hall]. by destruct (Hall i Hi).
  - destruct Hs as (Hk & Hkbefore & Hres).
    assert (k = i) as ->.
    { destruct (lt_eq_lt_dec k i) as [[Hlt | Heq] | Hgt]; [|done|].
      - destruct (Hbefore k ltac:(lia)) as [H1 H2].
        destruct Hres as [[? _] | (_ & ? & _)]; done.
      - by destruct (Hkbefore i ltac:(lia)). }
    destruct Hres as [[_ ->] | (Hne & _)]; done.
Qed.

(** Later calls, for whatever handler, leave an interned handler in place. *)
Lemma interned_preserved (t t' : list Z) (h h' : Z) (i i' : nat) :
  h <> nullptr -> interned t h i -> handler_index_for t h' = inr (i', t') ->
  interned t' h i.
Proof.
  intros Hh (Hi & Hat & Hbefore) Hcall.
  pose proof (handler_index_for_spec t h') as Hs. rewrite Hcall in Hs.
  destruct Hs as (Hi' & Hbefore' & [[Hk ->] | (Hne & Hnull & ->)]); [done|].
  assert (i < i')%nat as Hlt.
  { destruct (le_lt_dec i' i) as [Hle | Hlt]; [|done]. exfalso.
    destruct (decide (i' = i)) as [-> | Hneq]; [congruence|].
    destruct (Hbefore i' ltac:(lia)). done. }
  split; [by rewrite length_insert|]. split.
  - rewrite list_lookup_total_insert_ne by lia. done.
  - intros j Hj. rewrite list_lookup_total_insert_ne by lia. by apply Hbefore.
Qed.

Lemma interned_preserved_all (hs : list Z) :
  forall (t t' : list Z) (h : Z) (i : nat) (idxs : list nat),
    h <> nullptr -> interned t h i -> intern_all t hs = inr (idxs, t') ->
    interned t' h i.
Proof.
  induction hs as [|h' hs IH]; intros t t' h i idxs Hh Hint Hall; cbn in Hall.
  - by injection Hall as _ <-.
  - destruct (handler_index_for t h') as [e | [i' t1]] eqn:Hcall; [done|].
    destruct (intern_all t1 hs) as [e | [idxs' t2]] eqn:Hrest; [done|].
    injection Hall as _ <-.
    eapply IH; [done| |done]. by eapply interned_preserved.
Qed.

(** The scan walks over occupied slots that hold other handlers. *)
Lemma handler_index_from_skip (h : Z) (n : nat) (rest : list Z) (pre : list Z) :
  forall front,
    Forall (fun x => x <> h /\ x <> nullptr) pre ->
    handler_index_from (List.length pre + n) (List.length front) (front ++ pre ++ rest) h
    = handler_index_from n (List.length front + List.length pre) (front ++ pre ++ rest) h.
Proof.
  induction pre as [|x pre IH]; intros front Hpre.
  - cbn. by rewrite Nat.add_0_r.
  - apply Forall_cons in Hpre as [[Hxh Hxn] Hpre].
    cbn [List.length Nat.add handler_index_from].
    rewrite <- app_comm_cons, list_lookup_total_middle by done.
    rewrite (proj2 (Z.eqb_neq _ _) Hxh), (proj2 (Z.eqb_neq _ _) Hxn).
    specialize (IH (front ++ [x]) Hpre).
    rewrite length_app in IH. cbn [List.length] in IH.
    rewrite <- app_assoc in IH. cbn [app] in IH.
    replace (List.length front + 1)%nat with (S (List.length front)) in IH by lia.
    rewrite IH. f_equal. lia.
Qed.

(** A handler that is not in the table yet takes the first free slot. *)
Lemma handler_index_for_fresh (x0 h : Z) (pre : list Z) (m : nat) :
  h <> nullptr -> h ∉ pre -> nullptr ∉ pre ->
  handler_index_for (x0 :: pre ++ replicate (S m) nullptr) h
  = inr (S (List.length pre), x0 :: (pre ++ [h]) ++ replicate m nullptr).
Proof.
  intros Hh Hnew Hnn. unfold handler_index_for.
  cbn [List.length]. rewrite Nat.sub_succ, Nat.sub_0_r, length_app, length_replicate.
  pose proof (handler_index_from_skip h (S m) (replicate (S m) nullptr) pre [x0]) as Hskip.
  cbn [app List.length] in Hskip. rewrite Hskip.
  2:{ apply Forall_forall. intros x Hx. split; intros ->; done. }
  cbn [handler_index_from Nat.add].
  change (x0 :: pre ++ replicate (S m) nullptr)
    with ((x0 :: pre) ++ nullptr :: replicate m nullptr).
  replace (S (List.length pre)) with (List.length (x0 :: pre)) by done.
  rewrite list_lookup_total_middle by done.
  rewrite (proj2 (Z.eqb_neq _ _)) by done. rewrite Z.eqb_refl.
  rewrite insert_app_r_alt by done. rewrite Nat.sub_diag. cbn [insert list_insert].
  f_equal. f_equal. cbn. by rewrite <- app_assoc.
Qed.

(** With every slot from 1 on taken by another handler, the call throws. *)
Lemma handler_index_for_full (x0 h : Z) (pre : list Z) :
  h ∉ pre -> nullptr ∉ pre ->
  handler_index_for (x0 :: pre) h = inl (handler_space_exn (x0 :: pre)).
Proof.
  intros Hnew Hnn. unfold handler_index_for.
  cbn [List.length]. rewrite Nat.sub_succ, Nat.sub_0_r.
  pose proof (handler_index_from_skip h 0 [] pre [x0]) as Hskip.
  rewrite app_nil_r, Nat.add_0_r in Hskip. cbn [app List.length] in Hskip.
  rewrite Hskip; [done|].
  apply Forall_forall. intros x Hx. split; intros ->; done.
Qed.

Lemma intern_all_fresh (hs : list Z) :
  forall (x0 : Z) (pre : list Z) (m : nat),
    NoDup (pre ++ hs) -> nullptr ∉ pre ++ hs ->
    intern_all (x0 :: pre ++ replicate (List.length hs + m) nullptr) hs
    = inr (seq (S (List.length pre)) (List.length hs),
           x0 :: (pre ++ hs) ++ replicate m nullptr).
Proof.
  induction hs as [|h hs IH]; intros x0 pre m Hnd Hnn.
  - cbn. by rewrite app_nil_r.
  - cbn [intern_all List.length Nat.add].
    rewrite handler_index_for_fresh.
    + rewrite IH.
      * rewrite length_app. cbn [List.length seq].
        rewrite Nat.add_1_r, <- (app_assoc pre [h] hs). done.
      * by rewrite <- app_assoc.
      * by rewrite <- app_assoc.
    + intros ->. apply Hnn. apply elem_of_app. right. apply elem_of_cons. by left.
    + apply NoDup_app in Hnd as (_ & Hdisj & _). intros Hin.
      apply (Hdisj h Hin). apply elem_of_cons. by left.
    + intros Hin. apply Hnn. apply elem_of_app. by left.
Qed.

(** C3. Handler interning: a handler that has been given an index keeps
    it, and the index is not 0, whatever is interned in between; two
    different handlers never share an index; and in a table with [n] free
    slots (slot 0 is never handed out) [n] distinct handlers get the
    indices [1 .. n], after which one more distinct handler throws
    [MAX_INSTRUCTIONS_REACHED]: the 256th for a table of 255 slots. *)
Theorem handler_interning :
  (forall (t t1 t2 : list Z) (h : Z) (i : nat) (hs : list Z) (idxs : list nat),
     h <> nullptr ->
     handler_index_for t h = inr (i, t1) ->
     intern_all t1 hs = inr (idxs, t2) ->
     i <> 0%nat /\ handler_index_for t2 h = inr (i, t2))
  /\ (forall (t t1 t2 t3 : list Z) (h h' : Z) (i i' : nat)
        (hs : list Z) (idxs : list nat),
     h <> nullptr -> h' <> nullptr -> h <> h' ->
     handler_index_for t h = inr (i, t1) ->
     intern_all t1 hs = inr (idxs, t2) ->
     handler_index_for t2 h' = inr (i', t3) ->
     i <> i')
  /\ (forall (n : nat) (x0 : Z) (hs : list Z) (h : Z),
     NoDup (hs ++ [h]) -> nullptr ∉ hs ++ [h] -> List.length hs = n ->
     exists t',
       intern_all (x0 :: replicate n nullptr) hs = inr (seq 1 n, t')
       /\ handler_index_for t' h
          = inl (mkMachineException MAX_INSTRUCTIONS_REACHED
                   "Not enough instruction handler space" (Z.of_nat (S n)))).
Proof.
  split; [|split].
  - intros t t1 t2 h i hs idxs Hh Hcall Hrest.
    pose proof (handler_index_for_interned _ _ _ _ Hh Hcall) as Hint.
    pose proof (interned_preserved_all _ _ _ _ _ _ Hh Hint Hrest) as Hint2.
    split; [destruct Hint as [? _]; lia|]. by apply interned_found.
  - intros t t1 t2 t3 h h' i i' hs idxs Hh Hh' Hne Hcall Hrest Hcall' ->.
    pose proof (handler_index_for_interned _ _ _ _ Hh Hcall) as Hint.
    pose proof (interned_preserved_all _ _ _ _ _ _ Hh Hint Hrest) as Hint2.
    pose proof (interned_preserved _ _ _ _ _ _ Hh Hint2 Hcall') as (_ & Hat & _).
    pose proof (handler_index_for_interned _ _ _ _ Hh' Hcall') as (_ & Hat' & _).
    congruence.
  - intros n x0 hs h Hnd Hnn <-.
    exists (x0 :: hs). split.
    + pose proof (intern_all_fresh hs x0 [] 0) as Hall.
      rewrite Nat.add_0_r, app_nil_r in Hall. cbn [app List.length] in Hall.
      apply Hall.
      * by apply NoDup_app in Hnd as (? & _).
      * intros Hin. apply Hnn. apply elem_of_app. by left.
    + rewrite handler_index_for_full.
      * done.
      * apply NoDup_app in Hnd as (_ & Hdisj & _). intros Hin.
        apply (Hdisj h Hin). apply elem_of_cons. by left.
      * intros Hin. apply Hnn. apply elem_of_app. by left.
Qed.

(** A table of 256 slots, 255 of them free: the handlers [1 .. 255] are
    interned at the indices [1 .. 255], and handler 256 is refused. *)
Lemma handler_interning_witness :
  exists t',
    intern_all (replicate 256 nullptr) (seqZ 1 255) = inr (seq 1 255, t')
    /\ handler_index_for t' 256
       = inl (mkMachineException MAX_INSTRUCTIONS_REACHED
                "Not enough instruction handler space" 256).
Proof.
  destruct handler_interning as (_ & _ & Hfull).
  apply (Hfull 255%nat nullptr (seqZ 1 255) 256).
  - apply (bool_decide_unpack _). vm_compute. exact I.
  - apply (bool_decide_unpack _). vm_compute. exact I.
  - vm_compute. reflexivity.
Defined.

(** ** Registry of embedded translations *)

Lemma register_free (r : registration) (reg : EmbeddedTranslations) :
  (count reg < MAX_EMBEDDED)%nat ->
  register r reg
  = (inr (), mkEmbeddedTranslations (<[count reg := slot_of r]> (translations reg))
                                    (S (count reg))).
Proof.
  intros Hlt. destruct r as [[[[[hash mappings] nmappings] handlers] nhandlers] table_ptr].
  unfold register, register_translation, slot_of.
  by rewrite decide_False by lia.
Qed.

Lemma register_full (r : registration) (reg : EmbeddedTranslations) :
  (MAX_EMBEDDED <= count reg)%nat ->
  register r reg
  = (inl (mkMachineException INVALID_PROGRAM "Too many embedded translations" 0), reg).
Proof.
  intros Hge. destruct r as [[[[[hash mappings] nmappings] handlers] nhandlers] table_ptr].
  unfold register, register_translation.
  by rewrite decide_True by done.
Qed.

(** Registrations fill the slots in order. *)
Lemma register_all_prefix (rs : list registration) :
  forall (done_ : list EmbeddedTranslation) (free : list EmbeddedTranslation),
    (List.length done_ + List.length rs <= MAX_EMBEDDED)%nat ->
    List.length free = List.length rs ->
    forall tail,
    register_all rs (mkEmbeddedTranslations (done_ ++ free ++ tail) (List.length done_))
    = (inr (), mkEmbeddedTranslations ((done_ ++ map slot_of rs) ++ tail)
                 (List.length done_ + List.length rs)).
Proof.
  induction rs as [|r rs IH]; intros done_ free Hfit Hfree tail.
  - destruct free; [|done]. cbn. by rewrite app_nil_r, Nat.add_0_r.
  - destruct free as [|f free]; [done|]. cbn [register_all].
    rewrite register_free by (cbn in *; lia). cbn [translations count].
    rewrite insert_app_r_alt by done. rewrite Nat.sub_diag. cbn [app insert list_insert].
    assert (Hfit' : (List.length (done_ ++ [slot_of r]) + List.length rs <= MAX_EMBEDDED)%nat).
    { rewrite length_app. cbn in *. lia. }
    assert (Hfree' : List.length free = List.length rs) by (cbn in *; lia).
    pose proof (IH (done_ ++ [slot_of r]) free Hfit' Hfree' tail) as IH'.
    rewrite length_app in IH'. cbn [List.length] in IH'.
    rewrite Nat.add_1_r in IH'.
    rewrite <- !app_assoc in IH'. cbn [app] in IH'.
    rewrite IH'. cbn [map List.length]. rewrite <- !app_assoc. cbn [app].
    do 2 f_equal. lia.
Qed.

(** C9. Starting from the empty registry, the first 12 calls to
    [register_translation] succeed: the [k]-th call stores its arguments in
    slot [k] and raises the count by one. The 13th call throws
    [INVALID_PROGRAM] with the message "Too many embedded translations" and
    leaves the registry as it was. *)
Theorem register_translation_bound (rs : list registration) (r13 : registration) :
  (List.length rs <= MAX_EMBEDDED)%nat ->
  let reg := snd (register_all rs registered_embedded_translations) in
  fst (register_all rs registered_embedded_translations) = inr ()
  /\ count reg = List.length rs
  /\ take (List.length rs) (translations reg) = map slot_of rs
  /\ List.length (translations reg) = MAX_EMBEDDED
  /\ ((List.length rs < MAX_EMBEDDED)%nat ->
      register r13 reg
      = (inr (), mkEmbeddedTranslations
                   (<[List.length rs := slot_of r13]> (translations reg))
                   (S (List.length rs))))
  /\ (List.length rs = MAX_EMBEDDED ->
      register r13 reg
      = (inl (mkMachineException INVALID_PROGRAM "Too many embedded translations" 0),
         reg)).
Proof.
  intros Hfit reg.
  pose proof (register_all_prefix rs [] (replicate (List.length rs) (mkEmbeddedTranslation 0 0 0 0 0 0))
                ltac:(cbn; lia) ltac:(by rewrite length_replicate)
                (replicate (MAX_EMBEDDED - List.length rs) (mkEmbeddedTranslation 0 0 0 0 0 0)))
    as Hall.
  cbn [app List.length Nat.add] in Hall.
  rewrite <- replicate_add in Hall.
  replace (List.length rs + (MAX_EMBEDDED - List.length rs))%nat with MAX_EMBEDDED in Hall by lia.
  fold registered_embedded_translations in Hall.
  subst reg. rewrite Hall. cbn [fst snd translations count].
  split; [done|]. split; [done|]. split; [|split; [|split]].
  - rewrite take_app_length'; [done|]. by rewrite length_map.
  - rewrite length_app, length_map, length_replicate. lia.
  - intros Hlt. by rewrite register_free by (cbn; lia).
  - intros Heq. by rewrite register_full by (cbn; lia).
Qed.

(** Thirteen registrations in a row. *)
Lemma register_translation_bound_witness :
  let rs := map (fun k => (k, 0x7000 + k, 1, 0x8000 + k, 1, 0x9000)) (seqZ 1 12) in
  fst (register_all rs registered_embedded_translations) = inr ()
  /\ count (snd (register_all rs registered_embedded_translations)) = 12%nat
  /\ register (13, 0x700D, 1, 0x800D, 1, 0x9000)
       (snd (register_all rs registered_embedded_translations))
     = (inl (mkMachineException INVALID_PROGRAM "Too many embedded translations" 0),
        snd (register_all rs registered_embedded_translations)).
Proof.
  intros rs.
  destruct (register_translation_bound rs (13, 0x700D, 1, 0x800D, 1, 0x9000)
              ltac:(vm_compute; lia)) as (Hok & Hcount & _ & _ & _ & Hfull).
  split; [exact Hok|]. split; [exact Hcount|]. apply Hfull. reflexivity.
Defined.

(** ** Translation hash *)

Lemma create_defines_for_filled build W machine options :
  create_defines_for build W machine options
  = filled (define_slots build W machine options).
Proof.
  unfold create_defines_for, define_slots.
  destruct build as [pl sys a c v n nb]. cbn [platform RISCV_SYSCALLS_MAX atomics_enabled
    build_compressed_enabled vector_extension nanboxing encompassing_Nbit_arena].
  destruct pl, a, c, (v =? 0), n, (translate_trace options),
    (translate_ignore_instruction_limit options), (nb =? 0); reflexivity.
Qed.

Lemma define_slots_keys build1 W1 machine1 options1 build2 W2 machine2 options2 :
  (define_slots build1 W1 machine1 options1).*1
  = (define_slots build2 W2 machine2 options2).*1.
Proof. reflexivity. Qed.

Lemma define_slots_NoDup build W machine options :
  NoDup (define_slots build W machine options).*1.
Proof. cbn. apply (bool_decide_unpack (NoDup _)). by vm_compute. Qed.

Lemma filled_keys (slots : list (string * option string)) (k : string) :
  k ∈ (filled slots).*1 -> k ∈ slots.*1.
Proof.
  intros Hin. apply list_elem_of_fmap in Hin as ([k1 v] & Hk & Hin).
  cbn in Hk. subst k1.
  unfold filled in Hin. apply list_elem_of_omap in Hin as ([k0 o] & Hin & Heq).
  cbn in Heq. destruct o as [v0|]; [|done]. injection Heq as -> ->.
  apply list_elem_of_fmap. by exists (k, Some v).
Qed.

Lemma filled_cons_Some k v (slots : list (string * option string)) :
  filled ((k, Some v) :: slots) = (k, v) :: filled slots.
Proof. reflexivity. Qed.

Lemma filled_cons_None k (slots : list (string * option string)) :
  filled ((k, None) :: slots) = filled slots.
Proof. reflexivity. Qed.

(** Slots with the same keys that hold the same pairs are filled alike. *)
Lemma filled_inj (slots1 : list (string * option string)) :
  forall slots2,
    NoDup slots1.*1 -> slots1.*1 = slots2.*1 ->
    pairs_of (filled slots1) = pairs_of (filled slots2) ->
    filled slots1 = filled slots2.
Proof.
  unfold pairs_of.
  induction slots1 as [|[k o1] slots1 IH]; intros [|[k2 o2] slots2] Hnd Hkeys Hmap;
    try done.
  cbn [fmap list_fmap fst] in Hkeys, Hnd. injection Hkeys as <- Hkeys.
  apply NoDup_cons in Hnd as [Hk Hnd].
  assert (Hk1 : (list_to_map (filled slots1) : gmap string string) !! k = None).
  { apply not_elem_of_list_to_map_1. intros Hin. by apply Hk, filled_keys. }
  assert (Hk2 : (list_to_map (filled slots2) : gmap string string) !! k = None).
  { apply not_elem_of_list_to_map_1. intros Hin. apply Hk.
    change (k ∈ slots1.*1). rewrite Hkeys. by apply filled_keys. }
  assert (Hhead : forall o slots,
            (list_to_map (filled slots) : gmap string string) !! k = None ->
            (list_to_map (filled ((k, o) :: slots)) : gmap string string) !! k = o).
  { intros [v|] slots Hnone.
    - rewrite filled_cons_Some, list_to_map_cons. apply lookup_insert_eq.
    - by rewrite filled_cons_None. }
  assert (Ho : o1 = o2).
  { rewrite <- (Hhead o1 slots1 Hk1), <- (Hhead o2 slots2 Hk2). by rewrite Hmap. }
  subst o2.
  destruct o1 as [v|].
  - rewrite !filled_cons_Some in Hmap |- *. rewrite !list_to_map_cons in Hmap.
    apply (f_equal (delete k)) in Hmap.
    rewrite !delete_insert_id in Hmap by done.
    f_equal. by apply IH.
  - rewrite !filled_cons_None in Hmap |- *. by apply IH.
Qed.

(** Two calls of [create_defines_for] that give maps with the same pairs
    have made the same insertions. *)
Lemma create_defines_for_history build1 W1 machine1 options1 build2 W2 machine2 options2 :
  pairs_of (create_defines_for build1 W1 machine1 options1)
  = pairs_of (create_defines_for build2 W2 machine2 options2) ->
  create_defines_for build1 W1 machine1 options1
  = create_defines_for build2 W2 machine2 options2.
Proof.
  rewrite !create_defines_for_filled. apply filled_inj.
  - apply define_slots_NoDup.
  - apply define_slots_keys.
Qed.

(** *** The CRC keeps what it is fed *)

Lemma testbit_high (x n : Z) : 0 <= x < 2 ^ 32 -> 32 <= n -> Z.testbit x n = false.
Proof.
  intros Hx Hn. rewrite <- (Z.mod_small x (2 ^ 32)) by done.
  apply Z.mod_pow2_bits_high. lia.
Qed.

Lemma lxor_u32 (a b : Z) :
  0 <= a < 2 ^ 32 -> 0 <= b < 2 ^ 32 -> 0 <= Z.lxor a b < 2 ^ 32.
Proof.
  intros Ha Hb.
  assert (Heq : Z.lxor a b = Z.lxor a b mod 2 ^ 32).
  { apply Z.bits_inj'. intros n Hn.
    destruct (Z.ltb_spec n 32) as [Hlt | Hge].
    - by rewrite Z.mod_pow2_bits_low by lia.
    - rewrite Z.mod_pow2_bits_high by lia.
      by rewrite Z.lxor_spec, !testbit_high by (done || lia). }
  rewrite Heq. apply Z.mod_pos_bound. lia.
Qed.

Lemma shiftr1_u32 (x : Z) : 0 <= x < 2 ^ 32 -> 0 <= Z.shiftr x 1 < 2 ^ 31.
Proof.
  intros Hx. rewrite Z.shiftr_div_pow2 by lia. change (2 ^ 1) with 2.
  Z.div_mod_to_equations. lia.
Qed.

Lemma crc32c_bit_u32 (x : Z) : 0 <= x < 2 ^ 32 -> 0 <= crc32c_bit x < 2 ^ 32.
Proof.
  intros Hx. pose proof (shiftr1_u32 x Hx) as Hs. unfold crc32c_bit.
  destruct (Z.testbit x 0); [apply lxor_u32; lia | lia].
Qed.

Lemma crc32c_bit_back_spec (x : Z) :
  0 <= x < 2 ^ 32 -> crc32c_bit_back (crc32c_bit x) = x.
Proof.
  intros Hx. pose proof (shiftr1_u32 x Hx) as Hs.
  assert (Hhigh : Z.testbit (Z.shiftr x 1) 31 = false).
  { rewrite Z.shiftr_spec by lia. apply testbit_high; [done|lia]. }
  pose proof (Z.bit0_mod x) as Hodd.
  assert (Hx2 : x = 2 * Z.shiftr x 1 + x mod 2).
  { rewrite Z.shiftr_div_pow2 by lia. change (2 ^ 1) with 2.
    Z.div_mod_to_equations. lia. }
  unfold crc32c_bit, crc32c_bit_back.
  destruct (Z.testbit x 0) eqn:Hbit; cbn [Z.b2z] in Hodd.
  - rewrite Z.lxor_spec, Hhigh. change (Z.testbit 0x82F63B78 31) with true.
    cbn [xorb]. rewrite Z.lxor_assoc, Z.lxor_nilpotent, Z.lxor_0_r. lia.
  - rewrite Hhigh. lia.
Qed.

Lemma crc32c_bit_inj (x y : Z) :
  0 <= x < 2 ^ 32 -> 0 <= y < 2 ^ 32 -> crc32c_bit x = crc32c_bit y -> x = y.
Proof.
  intros Hx Hy Heq.
  rewrite <- (crc32c_bit_back_spec x Hx), <- (crc32c_bit_back_spec y Hy).
  by rewrite Heq.
Qed.

Lemma crc32c_bits_u32 (n : nat) (x : Z) :
  0 <= x < 2 ^ 32 -> 0 <= Nat.iter n crc32c_bit x < 2 ^ 32.
Proof.
  intros Hx. induction n as [|n IH]; [done|]. cbn [Nat.iter].
  by apply crc32c_bit_u32.
Qed.

Lemma crc32c_bits_inj (n : nat) (x y : Z) :
  0 <= x < 2 ^ 32 -> 0 <= y < 2 ^ 32 ->
  Nat.iter n crc32c_bit x = Nat.iter n crc32c_bit y -> x = y.
Proof.
  intros Hx Hy. induction n as [|n IH]; [done|]. cbn [Nat.iter]. intros Heq.
  apply IH. apply crc32c_bit_inj; [by apply crc32c_bits_u32 ..|done].
Qed.

Lemma lxor_cancel_r (a b c : Z) : Z.lxor a c = Z.lxor b c -> a = b.
Proof.
  intros Heq.
  rewrite <- (Z.lxor_0_r a), <- (Z.lxor_0_r b), <- (Z.lxor_nilpotent c).
  by rewrite <- !Z.lxor_assoc, Heq.
Qed.

Lemma lxor_cancel_l (a b c : Z) : Z.lxor c a = Z.lxor c b -> a = b.
Proof. rewrite !(Z.lxor_comm c). apply lxor_cancel_r. Qed.

Lemma wrap8_u32 (b : Z) : 0 <= wrap 8 b < 2 ^ 32.
Proof. pose proof (wrap_range 8 b ltac:(lia)). lia. Qed.

Lemma crc32c_byte_u32 (s b : Z) : 0 <= s < 2 ^ 32 -> 0 <= crc32c_byte s b < 2 ^ 32.
Proof.
  intros Hs. unfold crc32c_byte. apply crc32c_bits_u32, lxor_u32; [done|].
  apply wrap8_u32.
Qed.

Lemma crc32c_byte_inj_state (s1 s2 b : Z) :
  0 <= s1 < 2 ^ 32 -> 0 <= s2 < 2 ^ 32 ->
  crc32c_byte s1 b = crc32c_byte s2 b -> s1 = s2.
Proof.
  intros H1 H2 Heq. unfold crc32c_byte in Heq.
  apply crc32c_bits_inj in Heq; [|apply lxor_u32; (done || apply wrap8_u32) ..].
  by apply lxor_cancel_r in Heq.
Qed.

Lemma crc32c_byte_inj_byte (s b1 b2 : Z) :
  0 <= s < 2 ^ 32 -> crc32c_byte s b1 = crc32c_byte s b2 -> wrap 8 b1 = wrap 8 b2.
Proof.
  intros Hs Heq. unfold crc32c_byte in Heq.
  apply crc32c_bits_inj in Heq; [|apply lxor_u32; (done || apply wrap8_u32) ..].
  by apply lxor_cancel_l in Heq.
Qed.

Lemma crc32c_run_u32 (data : list Z) :
  forall s, 0 <= s < 2 ^ 32 -> 0 <= foldl crc32c_byte s data < 2 ^ 32.
Proof.
  induction data as [|b data IH]; intros s Hs; [done|].
  cbn [foldl]. by apply IH, crc32c_byte_u32.
Qed.

(** Running the CRC over the same bytes keeps two running values apart. *)
Lemma crc32c_run_inj (data : list Z) :
  forall s1 s2, 0 <= s1 < 2 ^ 32 -> 0 <= s2 < 2 ^ 32 ->
    foldl crc32c_byte s1 data = foldl crc32c_byte s2 data -> s1 = s2.
Proof.
  induction data as [|b data IH]; intros s1 s2 H1 H2; [done|].
  cbn [foldl]. intros Heq.
  apply IH in Heq; [|by apply crc32c_byte_u32 ..].
  by apply crc32c_byte_inj_state in Heq.
Qed.

(** A change of one byte changes the CRC. *)
Lemma crc32c_run_one_byte (s b1 b2 : Z) (pre post : list Z) :
  0 <= s < 2 ^ 32 ->
  foldl crc32c_byte s (pre ++ b1 :: post) = foldl crc32c_byte s (pre ++ b2 :: post) ->
  wrap 8 b1 = wrap 8 b2.
Proof.
  intros Hs. rewrite !foldl_app. cbn [foldl]. intros Heq.
  pose proof (crc32c_run_u32 pre s Hs) as Hpre.
  apply crc32c_run_inj in Heq; [|by apply crc32c_byte_u32 ..].
  by apply crc32c_byte_inj_byte in Heq.
Qed.

Lemma not32_u32 (x : Z) : 0 <= x < 2 ^ 32 -> not32 x = 2 ^ 32 - 1 - x.
Proof.
  intros Hx. unfold not32, wrap, Z.lnot.
  replace (Z.pred (- x)) with (2 ^ 32 - 1 - x + -1 * 2 ^ 32) by lia.
  rewrite Z.mod_add by lia. apply Z.mod_small. lia.
Qed.

Lemma not32_range (x : Z) : 0 <= not32 x < 2 ^ 32.
Proof. apply wrap_range. lia. Qed.

Lemma bytes_of_string_range (s : string) :
  Forall (fun b => 0 <= b < 2 ^ 8) (bytes_of_string s).
Proof.
  induction s as [|a s IH]; cbn [bytes_of_string]; constructor; [|done].
  pose proof (Ascii.nat_ascii_bounded a). lia.
Qed.

Lemma not32_inj (x y : Z) :
  0 <= x < 2 ^ 32 -> 0 <= y < 2 ^ 32 -> not32 x = not32 y -> x = y.
Proof. intros Hx Hy. rewrite !not32_u32 by done. lia. Qed.

Lemma crc32c_hash_range (exec : DecodedExecuteSegment) : 0 <= crc32c_hash exec < 2 ^ 32.
Proof. apply not32_range. Qed.

(** The hash keeps two segment checksums apart. *)
Lemma folded_hash_inj_checksum (c1 c2 : Z) (data : list Z) :
  0 <= c1 < 2 ^ 32 -> 0 <= c2 < 2 ^ 32 ->
  not32 (crc32c (not32 c1) data) = not32 (crc32c (not32 c2) data) -> c1 = c2.
Proof.
  intros H1 H2 Heq. unfold crc32c in Heq.
  pose proof (not32_range c1) as R1. pose proof (not32_range c2) as R2.
  rewrite !(wrap_small 32) in Heq by done.
  apply not32_inj in Heq; [|by apply crc32c_run_u32 ..].
  apply crc32c_run_inj in Heq; [|done ..].
  by apply not32_inj in Heq.
Qed.

(** The hash tells two flag strings apart that differ in one byte. *)
Lemma folded_hash_one_byte (c b1 b2 : Z) (pre post : list Z) :
  0 <= b1 < 2 ^ 8 -> 0 <= b2 < 2 ^ 8 ->
  not32 (crc32c (not32 c) (pre ++ b1 :: post))
  = not32 (crc32c (not32 c) (pre ++ b2 :: post)) -> b1 = b2.
Proof.
  intros H1 H2 Heq. unfold crc32c in Heq.
  pose proof (not32_range c) as R. rewrite !(wrap_small 32) in Heq by done.
  apply not32_inj in Heq; [|by apply crc32c_run_u32 ..].
  apply crc32c_run_one_byte in Heq; [|done].
  by rewrite !wrap_small in Heq by done.
Qed.

Lemma load_translation_hash_enabled iteration build W machine options exec :
  translate_blocks_max options <> 0 ->
  translate_enabled options || translate_enable_embedded options = true ->
  is_binary_translated exec = false ->
  crc32c_hash exec <> 0 ->
  load_translation_hash iteration build W machine options exec
  = inr (Some (not32 (crc32c (not32 (crc32c_hash exec))
                        (bytes_of_string
                           (defines_to_string iteration
                              (create_defines_for build W machine options)))))).
Proof.
  intros Hmax Hen Hnot Hcrc. unfold load_translation_hash.
  rewrite (proj2 (Z.eqb_neq _ _) Hmax), Hnot.
  destruct (translate_enabled options), (translate_enable_embedded options);
    try done; cbn; by rewrite (proj2 (Z.eqb_neq _ _) Hcrc).
Qed.

(** C8. Whatever the order in which the implementation iterates over a map
    of defines, as long as it is a function of the insertions that made
    the map: when [load_translation] hashes two segments (translation
    enabled, segment not translated yet, CRC32C of the segment not zero),
    identical segment bytes and identical maps of feature-flag defines
    give the same translation hash, wherever the segments are mapped and
    whatever the other options are. The maps need only hold the same
    pairs: [create_defines_for] has then made the same insertions. And the
    hash is the CRC32C of the segment carried on over the stringified
    defines, so it does depend on both: with the same flag string,
    segments with different CRC32C get different hashes, and with the same
    segment CRC32C, flag strings that differ in one byte get different
    hashes. *)
Theorem translation_hash_deterministic
    (iteration : defines_map -> list (string * string))
    (build1 build2 : Build) (W1 W2 : Z) (machine1 machine2 : MachineLayout)
    (options1 options2 : MachineOptions) (exec1 exec2 : DecodedExecuteSegment) :
  translate_blocks_max options1 <> 0 -> translate_blocks_max options2 <> 0 ->
  translate_enabled options1 || translate_enable_embedded options1 = true ->
  translate_enabled options2 || translate_enable_embedded options2 = true ->
  is_binary_translated exec1 = false -> is_binary_translated exec2 = false ->
  crc32c_hash exec1 <> 0 -> crc32c_hash exec2 <> 0 ->
  let defines1 := create_defines_for build1 W1 machine1 options1 in
  let defines2 := create_defines_for build2 W2 machine2 options2 in
  let cflags1 := defines_to_string iteration defines1 in
  let cflags2 := defines_to_string iteration defines2 in
  exists h1 h2,
    load_translation_hash iteration build1 W1 machine1 options1 exec1 = inr (Some h1)
    /\ load_translation_hash iteration build2 W2 machine2 options2 exec2 = inr (Some h2)
    /\ (exec_bytes exec1 = exec_bytes exec2 ->
        pairs_of defines1 = pairs_of defines2 -> h1 = h2)
    /\ (cflags1 = cflags2 -> crc32c_hash exec1 <> crc32c_hash exec2 -> h1 <> h2)
    /\ (crc32c_hash exec1 = crc32c_hash exec2 ->
        forall pre post b1 b2,
          bytes_of_string cflags1 = pre ++ b1 :: post ->
          bytes_of_string cflags2 = pre ++ b2 :: post ->
          b1 <> b2 -> h1 <> h2).
Proof.
  intros Hmax1 Hmax2 Hen1 Hen2 Hnot1 Hnot2 Hcrc1 Hcrc2 defines1 defines2 cflags1 cflags2.
  eexists _, _.
  split; [by apply load_translation_hash_enabled|].
  split; [by apply load_translation_hash_enabled|].
  fold defines1 defines2 cflags1 cflags2.
  split; [|split].
  - intros Hbytes Hpairs.
    assert (Hdefines : defines1 = defines2) by (by apply create_defines_for_history).
    unfold cflags1, cflags2, crc32c_hash. by rewrite Hdefines, Hbytes.
  - intros Hflags Hdiff Heq. apply Hdiff. rewrite Hflags in Heq.
    by apply folded_hash_inj_checksum in Heq; [|apply crc32c_hash_range ..].
  - intros Hsame pre post b1 b2 E1 E2 Hdiff Heq. apply Hdiff.
    rewrite E1, E2, Hsame in Heq.
    pose proof (bytes_of_string_range cflags1) as R1.
    pose proof (bytes_of_string_range cflags2) as R2.
    rewrite E1 in R1. rewrite E2 in R2.
    apply Forall_app in R1 as [_ R1]. apply Forall_cons in R1 as [R1 _].
    apply Forall_app in R2 as [_ R2]. apply Forall_cons in R2 as [R2 _].
    by apply folded_hash_one_byte in Heq.
Qed.

(** The segment of scenario S1 mapped at two addresses and hashed under
    options that differ outside the defines: the same hash. Built for
    [W = 8] instead of [W = 4], the flag string differs in one character
    and the hash is another one. The iteration is taken to run against
    the order of insertion. *)
Lemma translation_hash_deterministic_witness :
  let bytes := [0x97; 0x00; 0x00; 0x00; 0x93; 0x81; 0x81; 0x00; 0x67; 0x80; 0x00; 0x00] in
  let build := mkBuild LINUX 512 true true 0 true 0 in
  let machine := mkMachineLayout 8 16 24 0x10000000 0x20000 in
  load_translation_hash reverse build 4 machine (translating_options 16 5000)
    (mkDecodedExecuteSegment 0x1000 bytes false)
  = load_translation_hash reverse build 4 machine (translating_options 4000 150000)
      (mkDecodedExecuteSegment 0x20000 bytes false)
  /\ load_translation_hash reverse build 4 machine (translating_options 16 5000)
       (mkDecodedExecuteSegment 0x1000 bytes false)
     <> load_translation_hash reverse build 8 machine (translating_options 16 5000)
          (mkDecodedExecuteSegment 0x1000 bytes false).
Proof.
  intros bytes build machine.
  assert (Hcrc1 : crc32c_hash (mkDecodedExecuteSegment 0x1000 bytes false) <> 0)
    by (vm_compute; discriminate).
  assert (Hcrc2 : crc32c_hash (mkDecodedExecuteSegment 0x20000 bytes false) <> 0)
    by (vm_compute; discriminate).
  assert (Hmax1 : translate_blocks_max (translating_options 16 5000) <> 0)
    by (vm_compute; discriminate).
  assert (Hmax2 : translate_blocks_max (translating_options 4000 150000) <> 0)
    by (vm_compute; discriminate).
  pose proof (translation_hash_deterministic reverse build build 4 4 machine machine
              (translating_options 16 5000) (translating_options 4000 150000)
              (mkDecodedExecuteSegment 0x1000 bytes false)
              (mkDecodedExecuteSegment 0x20000 bytes false)
              Hmax1 Hmax2 eq_refl eq_refl eq_refl eq_refl
              Hcrc1 Hcrc2) as (h1 & h2 & E1 & E2 & Hsame & _).
  pose proof (translation_hash_deterministic reverse build build 4 8 machine machine
              (translating_options 16 5000) (translating_options 16 5000)
              (mkDecodedExecuteSegment 0x1000 bytes false)
              (mkDecodedExecuteSegment 0x1000 bytes false)
              Hmax1 Hmax1 eq_refl eq_refl eq_refl eq_refl
              Hcrc1 Hcrc1) as (h3 & h4 & E3 & E4 & _ & _ & Hbyte).
  split.
  - rewrite E1, E2. f_equal. f_equal. apply Hsame; [reflexivity|].
    apply (f_equal pairs_of). by vm_compute.
  - rewrite E3, E4. intros Heq. assert (Heq' : h3 = h4) by congruence.
    revert Heq'.
    apply (Hbyte eq_refl
             (take 233 (bytes_of_string
                      (defines_to_string reverse
                         (create_defines_for build 4 machine (translating_options 16 5000)))))
             (drop 234 (bytes_of_string
                      (defines_to_string reverse
                         (create_defines_for build 4 machine (translating_options 16 5000)))))
             52 56).
    + by vm_compute.
    + by vm_compute.
    + discriminate.
Defined.

(** ** GP pre-scan *)

Lemma step_length_cases c instruction :
  step_length c instruction = 2 \/ step_length c instruction = 4.
Proof. unfold step_length, length. destruct c; [destruct (is_long instruction)|]; auto. Qed.

Lemma gp_at_none W exec_data endbasepc pc :
  opcode (read_instruction exec_data pc endbasepc) <> RV32I_AUIPC
  \/ rd (read_instruction exec_data pc endbasepc) <> 3 ->
  gp_at W exec_data endbasepc pc = None.
Proof.
  unfold gp_at. intros [H | H].
  - by rewrite (proj2 (Z.eqb_neq _ _) H).
  - rewrite (proj2 (Z.eqb_neq _ _) H). by destruct (_ =? RV32I_AUIPC).
Qed.

Lemma scan_for_gp_reaches c W exec_data endbasepc pc0 pc gp :
  scan_reaches c W exec_data endbasepc pc0 pc ->
  forall fuel : nat,
    0 <= pc0 -> endbasepc + 4 <= 2 ^ (8 * W) ->
    endbasepc - pc0 <= Z.of_nat fuel ->
    pc < endbasepc ->
    gp_at W exec_data endbasepc pc = Some gp ->
    scan_for_gp fuel c W exec_data endbasepc pc0 = Some gp.
Proof.
  induction 1 as [pc | pc0 pc Hlt Hnone Hreach IH]; intros fuel Hpc0 Hend Hfuel Hpc Hgp.
  - destruct fuel as [|fuel]; [lia|]. cbn [scan_for_gp].
    by rewrite (proj2 (Z.ltb_lt _ _)), Hgp by done.
  - destruct fuel as [|fuel]; [lia|]. cbn [scan_for_gp].
    rewrite (proj2 (Z.ltb_lt _ _)), Hnone by done.
    pose proof (step_length_cases c (read_instruction exec_data pc0 endbasepc)) as Hstep.
    rewrite wrap_small by lia. apply IH; try done; lia.
Qed.

(** The scan always comes to an end. *)
Lemma scan_for_gp_total c W exec_data endbasepc (fuel : nat) :
  forall pc,
    0 <= pc -> endbasepc + 4 <= 2 ^ (8 * W) ->
    endbasepc - pc <= Z.of_nat fuel ->
    exists gp, scan_for_gp fuel c W exec_data endbasepc pc = Some gp.
Proof.
  induction fuel as [|fuel IH]; intros pc Hpc Hend Hfuel; cbn [scan_for_gp].
  - rewrite (proj2 (Z.ltb_ge _ _)) by lia. by exists 0.
  - destruct (Z.ltb_spec pc endbasepc); [|by exists 0].
    destruct (gp_at W exec_data endbasepc pc) as [gp|]; [by exists gp|].
    pose proof (step_length_cases c (read_instruction exec_data pc endbasepc)) as Hstep.
    rewrite wrap_small by lia. apply IH; lia.
Qed.

(** C7 (as amended). Let [pc] be the first address at which the scan finds
    an AUIPC with [rd = 3] that is followed by an ADDI with [rd = 3] and
    [rs1 = 3], or by no ADDI at all. In the first case
    [gp = pc + auipc.imm + addi.imm], in the second [gp = pc + auipc.imm],
    both in the address width, and the scan stops there. For the segment
    [0x00000197, 0x00818193, 0x00008067] at [0x1000] this gives
    [gp = 0x1008]; for the segment of scenario S1 as it is written, whose
    first word [0x00000097] is an AUIPC with [rd = 1], nothing matches and
    [gp] stays 0. *)
Theorem gp_prescan (compressed_enabled : bool) (W : Z) (exec_data : memory)
    (basepc endbasepc pc : Z) :
  0 <= basepc -> endbasepc + 4 <= 2 ^ (8 * W) ->
  scan_reaches compressed_enabled W exec_data endbasepc basepc pc ->
  pc < endbasepc ->
  let auipc := read_instruction exec_data pc endbasepc in
  let addi := read_instruction exec_data (pc + 4) endbasepc in
  let gp := scan_for_gp (Z.to_nat (endbasepc - basepc)) compressed_enabled W
              exec_data endbasepc basepc in
  opcode auipc = RV32I_AUIPC -> rd auipc = 3 ->
  (opcode addi = RV32I_OP_IMM -> funct3 addi = 0 -> rd addi = 3 -> rs1 addi = 3 ->
   gp = Some (wrap (8 * W) (pc + Utype_upper_imm auipc + Itype_signed_imm addi)))
  /\ (opcode addi <> RV32I_OP_IMM \/ funct3 addi <> 0 ->
      gp = Some (wrap (8 * W) (pc + Utype_upper_imm auipc)))
  /\ scan_for_gp 3 false 4
       (mem_of_words 0x1000 [0x00000197; 0x00818193; 0x00008067]) 0x100C 0x1000
     = Some 0x1008
  /\ scan_for_gp 3 false 4 S1_segment 0x100C 0x1000 = Some 0.
Proof.
  intros Hbase Hend Hreach Hpc auipc addi gp Hop Hrd.
  assert (Hpc0 : 0 <= pc).
  { clear -Hbase Hreach. induction Hreach as [|pc0 pc ? ? ? IH]; [done|].
    apply IH. pose proof (step_length_cases compressed_enabled
      (read_instruction exec_data pc0 endbasepc)). lia. }
  assert (Hgp : forall v, gp_at W exec_data endbasepc pc = Some v -> gp = Some v).
  { intros v Hv. subst gp. eapply scan_for_gp_reaches; try done. lia. }
  split; [|split; [|split]].
  - intros Hop' Hf3 Hrd' Hrs1. apply Hgp. unfold gp_at.
    rewrite wrap_small by lia. fold auipc addi.
    by rewrite Hop, Hrd, Hop', Hf3, Hrd', Hrs1.
  - intros Hno. apply Hgp. unfold gp_at.
    rewrite wrap_small by lia. fold auipc addi. rewrite Hop, Hrd. cbn.
    destruct Hno as [Hno | Hno]; rewrite (proj2 (Z.eqb_neq _ _) Hno); [done|].
    by rewrite andb_false_r.
  - by vm_compute.
  - by vm_compute.
Qed.

Lemma gp_prescan_witness :
  scan_for_gp (Z.to_nat (0x100C - 0x1000)) false 4
    (mem_of_words 0x1000 [0x00000013; 0x00001197; 0x80018193]) 0x100C 0x1000
  = Some 0x1804.
Proof.
  pose proof (gp_prescan false 4
    (mem_of_words 0x1000 [0x00000013; 0x00001197; 0x80018193])
    0x1000 0x100C 0x1004 ltac:(lia) ltac:(lia)) as H.
  assert (Hreach : scan_reaches false 4
            (mem_of_words 0x1000 [0x00000013; 0x00001197; 0x80018193])
            0x100C 0x1000 0x1004).
  { apply scan_reaches_next; [lia|by vm_compute|]. apply scan_reaches_here. }
  destruct (H Hreach ltac:(lia) ltac:(by vm_compute) ltac:(by vm_compute)) as [Haddi _].
  rewrite Haddi by (by vm_compute). by vm_compute.
Defined.

(** C7 as stated fails on its own example: in the segment of scenario S1
    the first word [0x00000097] has [rd = 1], no AUIPC with [rd = 3] is
    found, and GP detection yields 0 instead of [0x1008]. *)
Lemma gp_prescan_S1_counterexample :
  rd (read_instruction S1_segment 0x1000 0x100C) = 1
  /\ scan_for_gp (Z.to_nat (0x100C - 0x1000)) false 4 S1_segment 0x100C 0x1000 = Some 0
  /\ scan_for_gp (Z.to_nat (0x100C - 0x1000)) true 4 S1_segment 0x100C 0x1000 = Some 0.
Proof. split; [|split]; by vm_compute. Qed.

(** ** Block scanner *)

Lemma find_block_end_spec c W exec_data endbasepc (fuel : nat) :
  forall pc n,
    0 <= pc -> endbasepc + 4 <= 2 ^ (8 * W) ->
    endbasepc - pc <= Z.of_nat fuel ->
    exists pc' n',
      find_block_end fuel c W exec_data endbasepc pc n = Some (pc', n')
      /\ (endbasepc <= pc -> pc' = pc)
      /\ (pc < endbasepc -> pc < pc' < endbasepc + 4)
      /\ (c = false -> (endbasepc - pc) mod 4 = 0 ->
          (endbasepc - pc') mod 4 = 0 /\ pc' <= Z.max pc endbasepc).
Proof.
  induction fuel as [|fuel IH]; intros pc n Hpc Hend Hfuel; cbn [find_block_end].
  - rewrite (proj2 (Z.ltb_ge _ _)) by lia. exists pc, n.
    split; [done|]. split; [done|]. split; [lia|]. intros; split; [done|lia].
  - destruct (Z.ltb_spec pc endbasepc) as [Hlt | Hge].
    2:{ exists pc, n. split; [done|]. split; [done|]. split; [lia|].
        intros; split; [done|lia]. }
    pose proof (step_length_cases c (read_instruction exec_data pc endbasepc)) as Hstep.
    rewrite (wrap_small (8 * W)) by lia.
    set (pc1 := pc + step_length c (read_instruction exec_data pc endbasepc)) in *.
    assert (Hal : c = false -> (endbasepc - pc) mod 4 = 0 ->
                  (endbasepc - pc1) mod 4 = 0 /\ pc1 <= endbasepc).
    { intros -> Hmod. subst pc1. cbn [step_length].
      replace (endbasepc - (pc + 4)) with (endbasepc - pc + (-1) * 4) by lia.
      rewrite Z.mod_add by lia. split; [done|].
      Z.div_mod_to_equations; lia. }
    destruct (_ && _).
    + exists pc1, (wrap 64 (n + 1)). split; [done|]. split; [lia|]. split; [lia|].
      intros Hc Hmod. destruct (Hal Hc Hmod). split; [done|lia].
    + destruct (IH pc1 (wrap 64 (n + 1)) ltac:(lia) Hend ltac:(lia))
        as (pc' & n' & Hrun & Hout & Hin & Hal').
      exists pc', n'. split; [done|]. split; [lia|]. split.
      * intros _. destruct (Z.lt_ge_cases pc1 endbasepc) as [H1 | H1].
        -- specialize (Hin H1). lia.
        -- rewrite (Hout H1). lia.
      * intros Hc Hmod. destruct (Hal Hc Hmod) as [Hm1 Hle1].
        destruct (Hal' Hc Hm1) as [Hm' Hle']. split; [done|lia].
Qed.

Lemma collect_block_spec c W exec_data endbasepc block block_end (fuel : nat) :
  forall pc jl gl instrs,
    0 <= pc -> block_end + 4 <= 2 ^ (8 * W) ->
    block_end - pc <= Z.of_nat fuel ->
    exists jl' gl' instrs',
      collect_block fuel c W exec_data endbasepc block block_end pc jl gl instrs
      = Some (jl', gl', instrs')
      /\ (List.length instrs <= List.length instrs')%nat
      /\ (pc < block_end -> (List.length instrs < List.length instrs')%nat).
Proof.
  induction fuel as [|fuel IH]; intros pc jl gl instrs Hpc Hend Hfuel;
    cbn [collect_block].
  - rewrite (proj2 (Z.ltb_ge _ _)) by lia. exists jl, gl, instrs.
    split; [done|]. split; [done|lia].
  - destruct (Z.ltb_spec pc block_end) as [Hlt | Hge].
    2:{ exists jl, gl, instrs. split; [done|]. split; [done|lia]. }
    pose proof (step_length_cases c (read_instruction exec_data pc endbasepc)) as Hstep.
    rewrite (wrap_small (8 * W)) by lia.
    destruct (match jump_location c W (read_instruction exec_data pc endbasepc) pc with
              | Some (true, location) => _
              | Some (false, location) => _
              | None => _ end) as [jl1 gl1].
    destruct (IH (pc + step_length c (read_instruction exec_data pc endbasepc))
                jl1 gl1 (instrs ++ [read_instruction exec_data pc endbasepc])
                ltac:(lia) Hend ltac:(lia)) as (jl' & gl' & instrs' & Hrun & Hle & _).
    exists jl', gl', instrs'. split; [done|].
    rewrite length_app in Hle. cbn in Hle. split; [lia|]. intros _. lia.
Qed.

Lemma scan_blocks_spec c W options exec_data basepc endbasepc gp arena (fuel : nat) :
  forall pc icounter gl blocks,
    0 <= pc -> endbasepc + 8 <= 2 ^ (8 * W) ->
    endbasepc - pc <= Z.of_nat fuel ->
    exists new gl' icounter',
      scan_blocks fuel c W options exec_data basepc endbasepc gp arena
        pc icounter gl blocks
      = Some (blocks ++ new, gl', icounter')
      /\ map extent new `sublist_of` scanned_blocks fuel c W exec_data endbasepc pc
      /\ Forall (fun b => (1 <= List.length (ti_instr b))%nat) new.
Proof.
  induction fuel as [|fuel IH]; intros pc icounter gl blocks Hpc Hend Hfuel;
    cbn [scan_blocks scanned_blocks].
  - rewrite (proj2 (Z.ltb_ge _ _)) by lia. cbn [andb].
    exists [], gl, icounter. rewrite app_nil_r. split; [done|]. split; [|done].
    apply sublist_nil_l.
  - destruct (Z.ltb_spec pc endbasepc) as [Hlt | Hge]; cbn [andb].
    2:{ exists [], gl, icounter. rewrite app_nil_r. split; [done|]. split; [|done].
        apply sublist_nil_l. }
    destruct (find_block_end_spec c W exec_data endbasepc
                (Z.to_nat (endbasepc - pc)) pc 0 Hpc ltac:(lia) ltac:(lia))
      as (pc' & n' & Hfind & _ & Hin & _).
    specialize (Hin Hlt). rewrite Hfind.
    destruct (icounter <? translate_instr_max options).
    2:{ exists [], gl, icounter. rewrite app_nil_r. split; [done|]. split; [|done].
        apply sublist_nil_l. }
    destruct (collect_block_spec c W exec_data endbasepc pc pc'
                (Z.to_nat (pc' - pc)) pc ∅ gl [] Hpc ltac:(lia) ltac:(lia))
      as (jl' & gl' & instrs' & Hcollect & _ & Hlen).
    specialize (Hlen ltac:(lia)). cbn [List.length] in Hlen. rewrite Hcollect.
    destruct (_ && _).
    + set (b := mkTransInfo _ _ _ _ _ _ _ _ _ _ _).
      destruct (_ <=? _).
      * exists [b], gl', (wrap 64 (icounter + Z.of_nat (List.length instrs'))).
        split; [done|]. split.
        -- cbn. apply sublist_skip, sublist_nil_l.
        -- apply Forall_singleton. cbn. lia.
      * destruct (IH pc' (wrap 64 (icounter + Z.of_nat (List.length instrs')))
                    gl' (blocks ++ [b]) ltac:(lia) Hend ltac:(lia))
          as (new & gl'' & ic'' & Hrun & Hsub & Hall).
        exists (b :: new), gl'', ic''. split.
        -- rewrite Hrun. by rewrite <- app_assoc.
        -- split; [cbn; by apply sublist_skip|]. apply Forall_cons. split; [cbn; lia|done].
    + destruct (IH pc' icounter gl' blocks ltac:(lia) Hend ltac:(lia))
        as (new & gl'' & ic'' & Hrun & Hsub & Hall).
      exists new, gl'', ic''. split; [done|]. split; [|done]. by apply sublist_cons.
Qed.

Lemma scanned_blocks_contiguous c W exec_data endbasepc (fuel : nat) :
  forall pc,
    0 <= pc -> endbasepc + 4 <= 2 ^ (8 * W) ->
    contiguous_from endbasepc pc (scanned_blocks fuel c W exec_data endbasepc pc).
Proof.
  induction fuel as [|fuel IH]; intros pc Hpc Hend; cbn [scanned_blocks]; [done|].
  destruct (Z.ltb_spec pc endbasepc) as [Hlt | Hge]; [|done].
  destruct (find_block_end_spec c W exec_data endbasepc
              (Z.to_nat (endbasepc - pc)) pc 0 Hpc Hend ltac:(lia))
    as (pc' & n' & Hfind & _ & Hin & _).
  specialize (Hin Hlt). rewrite Hfind. cbn [contiguous_from].
  split; [done|]. split; [lia|]. split; [done|]. split; [lia|]. apply IH; lia.
Qed.

Lemma scanned_blocks_aligned W exec_data endbasepc (fuel : nat) :
  forall pc,
    0 <= pc -> endbasepc + 4 <= 2 ^ (8 * W) -> (endbasepc - pc) mod 4 = 0 ->
    Forall (fun x => x.2 <= endbasepc)
           (scanned_blocks fuel false W exec_data endbasepc pc).
Proof.
  induction fuel as [|fuel IH]; intros pc Hpc Hend Hmod; cbn [scanned_blocks]; [done|].
  destruct (Z.ltb_spec pc endbasepc) as [Hlt | Hge]; [|done].
  destruct (find_block_end_spec false W exec_data endbasepc
              (Z.to_nat (endbasepc - pc)) pc 0 Hpc Hend ltac:(lia))
    as (pc' & n' & Hfind & _ & Hin & Hal).
  specialize (Hin Hlt). destruct (Hal eq_refl Hmod) as [Hmod' Hle]. rewrite Hfind.
  apply Forall_cons. split; [cbn; lia|]. apply IH; [lia|done|done].
Qed.

Lemma find_block_end_even c W exec_data endbasepc (fuel : nat) :
  forall pc n pc' n',
    0 <= pc -> endbasepc + 4 <= 2 ^ (8 * W) ->
    find_block_end fuel c W exec_data endbasepc pc n = Some (pc', n') ->
    (pc' - pc) mod 2 = 0.
Proof.
  induction fuel as [|fuel IH]; intros pc n pc' n' Hpc Hend; cbn [find_block_end].
  - destruct (pc <? endbasepc); [done|]. intros [= <- <-]. by rewrite Z.sub_diag.
  - destruct (Z.ltb_spec pc endbasepc) as [Hlt | Hge].
    2:{ intros [= <- <-]. by rewrite Z.sub_diag. }
    pose proof (step_length_cases c (read_instruction exec_data pc endbasepc)) as Hstep.
    rewrite (wrap_small (8 * W)) by lia.
    set (pc1 := pc + step_length c (read_instruction exec_data pc endbasepc)) in *.
    destruct (_ && _).
    + intros [= <- <-]. subst pc1. Z.div_mod_to_equations; lia.
    + intros Hrun. apply IH in Hrun; [|lia|done].
      subst pc1. Z.div_mod_to_equations; lia.
Qed.

Lemma collect_block_count c W exec_data endbasepc block block_end (fuel : nat) :
  forall pc jl gl instrs jl' gl' instrs',
    0 <= pc -> block_end + 4 <= 2 ^ (8 * W) ->
    collect_block fuel c W exec_data endbasepc block block_end pc jl gl instrs
    = Some (jl', gl', instrs') ->
    pc < block_end ->
    2 * (Z.of_nat (List.length instrs') - Z.of_nat (List.length instrs))
    <= block_end - pc + 1.
Proof.
  induction fuel as [|fuel IH]; intros pc jl gl instrs jl' gl' instrs' Hpc Hend;
    cbn [collect_block].
  - destruct (Z.ltb_spec pc block_end); [done|lia].
  - destruct (Z.ltb_spec pc block_end) as [Hlt | Hge]; [|lia].
    pose proof (step_length_cases c (read_instruction exec_data pc endbasepc)) as Hstep.
    rewrite (wrap_small (8 * W)) by lia.
    destruct (match jump_location c W (read_instruction exec_data pc endbasepc) pc with
              | Some (true, location) => _
              | Some (false, location) => _
              | None => _ end) as [jl1 gl1].
    set (pc1 := pc + step_length c (read_instruction exec_data pc endbasepc)) in *.
    intros Hrun _.
    destruct (Z.lt_ge_cases pc1 block_end) as [H1 | H1].
    + apply IH in Hrun; [|lia|done|done].
      rewrite length_app in Hrun. cbn [List.length] in Hrun. lia.
    + destruct fuel as [|fuel']; cbn [collect_block] in Hrun;
        rewrite (proj2 (Z.ltb_ge _ _)) in Hrun by lia;
        injection Hrun as <- <- <-; rewrite length_app; cbn [List.length]; lia.
Qed.

Lemma scan_blocks_complete c W options exec_data basepc endbasepc gp arena (fuel : nat) :
  forall pc icounter gl blocks,
    0 <= pc -> endbasepc + 8 <= 2 ^ (8 * W) ->
    endbasepc - pc <= Z.of_nat fuel ->
    0 <= icounter -> 2 * icounter <= pc - basepc ->
    endbasepc - basepc + 3 < 2 * translate_instr_max options ->
    Z.of_nat (List.length blocks)
    + Z.of_nat (List.length (scanned_blocks fuel c W exec_data endbasepc pc))
    <= translate_blocks_max options ->
    exists new gl' icounter',
      scan_blocks fuel c W options exec_data basepc endbasepc gp arena
        pc icounter gl blocks
      = Some (blocks ++ new, gl', icounter')
      /\ map extent new = scanned_blocks fuel c W exec_data endbasepc pc.
Proof.
  induction fuel as [|fuel IH];
    intros pc icounter gl blocks Hpc Hend Hfuel Hic0 Hic Hmax Hblocks;
    cbn [scan_blocks scanned_blocks] in *.
  - rewrite (proj2 (Z.ltb_ge _ _)) by lia. cbn [andb].
    exists [], gl, icounter. by rewrite app_nil_r.
  - destruct (Z.ltb_spec pc endbasepc) as [Hlt | Hge]; cbn [andb].
    2:{ exists [], gl, icounter. by rewrite app_nil_r. }
    destruct (find_block_end_spec c W exec_data endbasepc
                (Z.to_nat (endbasepc - pc)) pc 0 Hpc ltac:(lia) ltac:(lia))
      as (pc' & n' & Hfind & _ & Hin & _).
    specialize (Hin Hlt).
    assert (Hend4 : endbasepc + 4 <= 2 ^ (8 * W)) by lia.
    pose proof (find_block_end_even _ _ _ _ _ _ _ _ _ Hpc Hend4 Hfind) as Heven.
    rewrite Hfind in *.
    rewrite (proj2 (Z.ltb_lt _ _)) by lia.
    destruct (collect_block_spec c W exec_data endbasepc pc pc'
                (Z.to_nat (pc' - pc)) pc ∅ gl [] Hpc ltac:(lia) ltac:(lia))
      as (jl' & gl' & instrs' & Hcollect & _ & Hlen).
    specialize (Hlen ltac:(lia)). cbn [List.length] in Hlen.
    assert (Hend' : pc' + 4 <= 2 ^ (8 * W)) by lia.
    pose proof (collect_block_count _ _ _ _ _ _ _ _ _ _ _ _ _ _ Hpc Hend'
                  Hcollect ltac:(lia)) as Hcount.
    cbn [List.length] in Hcount.
    rewrite Hcollect.
    set (len := Z.of_nat (List.length instrs')) in *.
    assert (Hlen2 : 2 * len <= pc' - pc) by (Z.div_mod_to_equations; lia).
    pose proof (wrap_range 64 (icounter + len) ltac:(lia)) as Hw0.
    assert (Hw : wrap 64 (icounter + len) <= icounter + len).
    { unfold wrap. apply Z.mod_le; lia. }
    rewrite (proj2 (Z.ltb_lt 0 len)) by lia.
    rewrite (proj2 (Z.ltb_lt (wrap 64 (icounter + len)) _)) by lia.
    cbn [andb]. set (b := mkTransInfo _ _ _ _ _ _ _ _ _ _ _).
    cbn [List.length] in Hblocks.
    destruct (Z.leb_spec (translate_blocks_max options)
                (Z.of_nat (List.length (blocks ++ [b])))) as [Hfull | Hroom].
    + rewrite length_app in Hfull. cbn [List.length] in Hfull.
      exists [b], gl', (wrap 64 (icounter + len)). split; [done|].
      destruct (scanned_blocks fuel c W exec_data endbasepc pc') as [|x l]; [done|].
      cbn [List.length] in Hblocks. lia.
    + rewrite length_app in Hroom. cbn [List.length] in Hroom.
      destruct (IH pc' (wrap 64 (icounter + len)) gl' (blocks ++ [b])
                  ltac:(lia) Hend ltac:(lia) ltac:(lia) ltac:(lia) Hmax)
        as (new & gl'' & ic'' & Hrun & Heq).
      { rewrite length_app. cbn [List.length]. lia. }
      exists (b :: new), gl'', ic''. split.
      * rewrite Hrun. by rewrite <- app_assoc.
      * cbn [map]. by rewrite Heq.
Qed.

Lemma scanned_blocks_cover c W exec_data endbasepc (fuel : nat) :
  forall pc,
    0 <= pc -> endbasepc + 4 <= 2 ^ (8 * W) ->
    endbasepc - pc <= Z.of_nat fuel ->
    Z.max pc endbasepc <= scan_end pc (scanned_blocks fuel c W exec_data endbasepc pc).
Proof.
  induction fuel as [|fuel IH]; intros pc Hpc Hend Hfuel;
    cbn [scanned_blocks]; [cbn; lia|].
  destruct (Z.ltb_spec pc endbasepc) as [Hlt | Hge]; [|cbn; lia].
  destruct (find_block_end_spec c W exec_data endbasepc
              (Z.to_nat (endbasepc - pc)) pc 0 Hpc Hend ltac:(lia))
    as (pc' & n' & Hfind & _ & Hin & _).
  specialize (Hin Hlt). rewrite Hfind. unfold scan_end. cbn [foldl snd].
  specialize (IH pc' ltac:(lia) Hend ltac:(lia)). unfold scan_end in IH. lia.
Qed.

Lemma contiguous_from_sorted endbasepc (l : list (Z * Z)) :
  forall pc, contiguous_from endbasepc pc l ->
    Forall (fun x => pc <= x.1 /\ x.1 < x.2 /\ x.1 < endbasepc /\ x.2 < endbasepc + 4) l
    /\ StronglySorted before l.
Proof.
  induction l as [|[b e] l IH]; intros pc Hc.
  - split; constructor.
  - cbn [contiguous_from] in Hc. destruct Hc as (-> & Hbe & Hb & He & Hc).
    destruct (IH e Hc) as [Hall Hsorted]. split.
    + apply Forall_cons. split; [cbn; lia|].
      eapply Forall_impl; [exact Hall|]. cbn. intros x ?. lia.
    + apply SSorted_cons; [done|].
      eapply Forall_impl; [exact Hall|]. unfold before. cbn. intros x ?. lia.
Qed.

Lemma StronglySorted_sublist {A} (R : relation A) (k l : list A) :
  k `sublist_of` l -> StronglySorted R l -> StronglySorted R k.
Proof.
  induction 1 as [|x k l Hsub IH|x k l Hsub IH]; intros Hs.
  - constructor.
  - apply StronglySorted_inv in Hs as [Hs Hall].
    apply SSorted_cons; [by apply IH|].
    apply Forall_forall. intros y Hy.
    apply (proj1 (Forall_forall _ _) Hall). by eapply elem_of_sublist.
  - apply StronglySorted_inv in Hs as [Hs _]. by apply IH.
Qed.

(** C4 (as amended). Every [BlockInfo] that the block scanner produces
    covers at least one instruction, begins inside the scanned range and
    ends less than four bytes past its end (at or before its end when the C
    extension is off and the range is a whole number of words); the blocks
    are pairwise non-overlapping and in increasing address order; and each
    of them is one of the blocks that the scan walks over, which follow one
    another from [basepc] on, each beginning where the one before ended.
    When the range is shorter than [2 * translate_instr_max - 3] bytes and
    the scan walks over at most [translate_blocks_max] blocks, no block is
    left out: the blocks produced are the blocks walked over, and they
    reach the end of the range. *)
Theorem block_scanner (compressed_enabled : bool) (W : Z)
    (options : MachineOptions) (exec_data : memory)
    (start_address arena base endbasepc : Z) :
  0 <= base -> endbasepc + 8 <= 2 ^ (8 * W) ->
  translate_invoke_compiler options = true ->
  exists d,
    try_translate_discover compressed_enabled W options exec_data
      start_address arena base endbasepc = Some (Some d)
    /\ Forall (fun b =>
         (1 <= List.length (ti_instr b))%nat
         /\ base <= basepc b < endpc b
         /\ basepc b < endbasepc
         /\ endpc b < endbasepc + 4
         /\ (compressed_enabled = false -> (endbasepc - base) mod 4 = 0 ->
             endpc b <= endbasepc)) (found_blocks d)
    /\ StronglySorted before (map extent (found_blocks d))
    /\ map extent (found_blocks d)
       `sublist_of` scanned_blocks (Z.to_nat (endbasepc - base))
                      compressed_enabled W exec_data endbasepc base
    /\ contiguous_from endbasepc base
         (scanned_blocks (Z.to_nat (endbasepc - base))
            compressed_enabled W exec_data endbasepc base)
    /\ (endbasepc - base + 3 < 2 * translate_instr_max options ->
        Z.of_nat (List.length
                    (scanned_blocks (Z.to_nat (endbasepc - base))
                       compressed_enabled W exec_data endbasepc base))
        <= translate_blocks_max options ->
        map extent (found_blocks d)
        = scanned_blocks (Z.to_nat (endbasepc - base))
            compressed_enabled W exec_data endbasepc base
        /\ endbasepc <= scan_end base (map extent (found_blocks d))).
Proof.
  intros Hbase Hend Hinvoke. unfold try_translate_discover. rewrite Hinvoke. cbn [negb].
  destruct (scan_for_gp_total compressed_enabled W exec_data endbasepc
              (Z.to_nat (endbasepc - base)) base Hbase ltac:(lia) ltac:(lia))
    as [gp ->].
  set (gl := if _ && _ then _ else _).
  destruct (scan_blocks_spec compressed_enabled W options exec_data base endbasepc
              gp arena (Z.to_nat (endbasepc - base)) base 0 gl []
              Hbase Hend ltac:(lia)) as (new & gl' & ic' & Hrun & Hsub & Hall).
  rewrite Hrun. cbn [app]. eexists. split; [done|]. cbn [found_blocks].
  pose proof (scanned_blocks_contiguous compressed_enabled W exec_data endbasepc
                (Z.to_nat (endbasepc - base)) base Hbase ltac:(lia)) as Hcont.
  destruct (contiguous_from_sorted _ _ _ Hcont) as [Hext Hsorted].
  split; [|split; [|split; [|split]]];
    [|by eapply StronglySorted_sublist|done|done|].
  2:{ intros Hmax Hblocks.
      destruct (scan_blocks_complete compressed_enabled W options exec_data base
                  endbasepc gp arena (Z.to_nat (endbasepc - base)) base 0 gl []
                  Hbase Hend ltac:(lia) ltac:(lia) ltac:(lia) Hmax Hblocks)
        as (new' & gl'' & ic'' & Hrun' & Heq).
      rewrite Hrun in Hrun'. cbn [app] in Hrun'. injection Hrun' as -> _ _.
      split; [done|]. rewrite Heq.
      pose proof (scanned_blocks_cover compressed_enabled W exec_data endbasepc
                    (Z.to_nat (endbasepc - base)) base Hbase ltac:(lia) ltac:(lia)).
      lia. }
  apply Forall_forall. intros b Hb.
  assert (Hin : extent b ∈ scanned_blocks (Z.to_nat (endbasepc - base))
                  compressed_enabled W exec_data endbasepc base).
  { eapply elem_of_sublist; [|exact Hsub]. apply list_elem_of_fmap. by exists b. }
  pose proof (proj1 (Forall_forall _ _) Hext _ Hin) as Hb'. cbn in Hb'.
  split; [by apply (proj1 (Forall_forall _ _) Hall)|].
  split; [lia|]. split; [lia|]. split; [lia|].
  intros -> Hmod.
  apply (proj1 (Forall_forall _ _)
           (scanned_blocks_aligned W exec_data endbasepc _ base Hbase ltac:(lia) Hmod)
           _ Hin).
Qed.

(** Scenario S1: one block, from [0x1000] to the end of the [ret]. *)
Lemma block_scanner_witness :
  exists d,
    try_translate_discover false 4 (translating_options 16 5000) S1_segment
      0x1000 0 0x1000 0x100C = Some (Some d)
    /\ map extent (found_blocks d) = [(0x1000, 0x100C)].
Proof.
  destruct (block_scanner false 4 (translating_options 16 5000) S1_segment
              0x1000 0 0x1000 0x100C ltac:(lia) ltac:(lia) eq_refl)
    as (d & Hrun & _).
  exists d. split; [exact Hrun|].
  vm_compute in Hrun. injection Hrun as <-. reflexivity.
Defined.

(** C4 as stated fails in two places. With the C extension, a range that
    ends in the first half of a four-byte instruction gives a block that
    ends two bytes past the range. And with [translate_instr_max = 1252],
    of three blocks of 1250, 1250 and 1 instructions the second is left
    out, so that the two blocks produced do not cover the range and the
    second does not begin where the first ended. *)
Lemma block_scanner_counterexample :
  option_map (option_map (fun d => map extent (found_blocks d)))
    (try_translate_discover true 4 (translating_options 16 5000)
       (mem_of_bytes 0x1000 [0x01; 0x00; 0x13; 0x00]) 0x1000 0 0x1000 0x1004)
  = Some (Some [(0x1000, 0x1006)])
  /\ option_map (option_map (fun d => map extent (found_blocks d)))
       (try_translate_discover false 4 (translating_options 16 1252)
          two_functions_memory 0x1000 0 0x1000 (0x1000 + 4 * 2501))
     = Some (Some [(0x1000, 0x1000 + 4 * 1250);
                   (0x1000 + 4 * 2500, 0x1000 + 4 * 2501)]).
Proof. split; vm_compute; reflexivity. Qed.

(** ** Misaligned branch and jump targets *)

Lemma bits_range x lo width : 0 <= width -> 0 <= bits x lo width < 2 ^ width.
Proof.
  intros Hw. unfold bits. rewrite Z.land_ones by done.
  apply Z.mod_pos_bound. by apply Z.pow_pos_nonneg.
Qed.

(** What [add_branch] emits for a misaligned destination: the condition
    and the exception, whatever [binfo] says about jumps. *)
Lemma add_branch_misaligned c W instr binfo op em :
  Z.land (PCRELA W em (Btype_signed_imm instr)) (ALIGN_MASK c) <> 0 ->
  add_branch c W instr binfo op em
  = with_code ((code em +:+ branch_condition instr em (bi_sign binfo) op)
               +:+ misaligned_branch_exit W em) em.
Proof.
  intros Hmis. unfold add_branch.
  change (PCRELA W (append_code (branch_condition instr em (bi_sign binfo) op) em))
    with (PCRELA W em).
  rewrite (proj2 (Z.eqb_neq _ _) Hmis). cbn [negb].
  by destruct em.
Qed.

Lemma emit_BRANCH_misaligned c W instr em :
  funct3 instr <> 2 -> funct3 instr <> 3 ->
  Z.land (PCRELA W em (Btype_signed_imm instr)) (ALIGN_MASK c) <> 0 ->
  exists sign op,
    let em0 := increment_counter_so_far em in
    code (emit_BRANCH c W instr em)
    = (code em0 +:+ branch_condition instr em0 sign op)
      +:+ misaligned_branch_exit W em0.
Proof.
  intros Hf2 Hf3 Hmis. unfold emit_BRANCH.
  set (em0 := increment_counter_so_far em).
  assert (Hpc : forall x, PCRELA W em0 x = PCRELA W em x).
  { intros x. subst em0. unfold increment_counter_so_far. by destruct (_ && _). }
  destruct (if wrap 64 (pc em0 + Btype_signed_imm instr) =? begin_pc em0
            then _ else _) as [jump_pc em1] eqn:Hsel.
  assert (Hem1 : em1 = em0 \/ exists l, em1 = with_labels l em0).
  { revert Hsel. destruct (_ =? begin_pc em0); [intros [= _ <-]; by left|].
    destruct (_ && _); [intros [= _ <-]; right; by eexists|].
    destruct (bool_decide _); [destruct (_ && _)|]; intros [= _ <-]; by left. }
  assert (Hcond : forall sign op,
            branch_condition instr em1 sign op = branch_condition instr em0 sign op).
  { intros sign op. destruct Hem1 as [-> | [l ->]]; done. }
  assert (Hexit : misaligned_branch_exit W em1 = misaligned_branch_exit W em0).
  { destruct Hem1 as [-> | [l ->]]; done. }
  assert (Hcode : code em1 = code em0).
  { destruct Hem1 as [-> | [l ->]]; done. }
  assert (Hmis1 : Z.land (PCRELA W em1 (Btype_signed_imm instr)) (ALIGN_MASK c) <> 0).
  { destruct Hem1 as [-> | [l ->]]; [by rewrite Hpc|].
    change (PCRELA W (with_labels l em0)) with (PCRELA W em0). by rewrite Hpc. }
  pose proof (bits_range instr 12 3 ltac:(lia)) as Hrange.
  fold (funct3 instr) in Hrange.
  assert (Hcases : funct3 instr = 0 \/ funct3 instr = 1
                   \/ funct3 instr = 4 \/ funct3 instr = 5
                   \/ funct3 instr = 6 \/ funct3 instr = 7) by lia.
  destruct Hcases as [H | [H | [H | [H | [H | H]]]]]; rewrite H; cbn [Z.eqb Pos.eqb orb];
    rewrite add_branch_misaligned by done; cbn [code with_code bi_sign];
    rewrite Hcode, Hcond, Hexit; by eauto.
Qed.

(** C6. The claim holds for branches and fails for JAL. The translation of
    [jal x0, .+6] at [0x1000] without the C extension, whose destination
    [0x1006] violates the mask 3, has no call of [api.exception]: the JAL
    case clears the low bits of the destination and leaves the block for
    [0x1004]. *)
Theorem misaligned_jal_not_raised :
  opcode 0x0060006F = RV32I_JAL
  /\ 0x1000 + Jtype_jump_offset 0x0060006F = 0x1006
  /\ Z.land (0x1000 + Jtype_jump_offset 0x0060006F) (ALIGN_MASK false) = 2
  /\ jal_dest_pc false 4 0x0060006F (single_instruction_emitter 0x0060006F) = 0x1004
  /\ code (emit_JAL false 4 0x1004 0x0060006F (single_instruction_emitter 0x0060006F))
     = "f_1000_1000:;
counter += 1;
cpu->pc = 4100UL;
return (ReturnValues){counter, max_counter};

".
Proof. split; [|split; [|split; [|split]]]; by vm_compute. Qed.

(** X21. For each of the six branch instructions whose destination
    violates the alignment mask (1 with the C extension, else 3), the
    translation of the taken branch is the call
    [api.exception(cpu, pc, MISALIGNED_INSTRUCTION)] followed by a return:
    after the condition nothing else is emitted, no [goto] and no exit to
    the destination. *)
Theorem misaligned_branch_raises (compressed_enabled : bool) (W : Z)
    (branch : Z) (em : Emitter) :
  funct3 branch <> 2 -> funct3 branch <> 3 ->
  Z.land (PCRELA W em (Btype_signed_imm branch)) (ALIGN_MASK compressed_enabled) <> 0 ->
  exists sign op,
    let em0 := increment_counter_so_far em in
    code (emit_BRANCH compressed_enabled W branch em)
    = (code em0 +:+ branch_condition branch em0 sign op)
      +:+ ("api.exception(cpu, " +:+ PCRELS W em 0
           +:+ ", MISALIGNED_INSTRUCTION); return (ReturnValues){0, 0};
" +:+ "}
").
Proof.
  intros Hf2 Hf3 Hmis.
  destruct (emit_BRANCH_misaligned compressed_enabled W branch em Hf2 Hf3 Hmis)
    as (sign & op & Hcode).
  exists sign, op. cbn zeta in *. rewrite Hcode.
  unfold misaligned_branch_exit, PCRELS, PCRELA.
  assert (Hpc0 : pc (increment_counter_so_far em) = pc em).
  { unfold increment_counter_so_far. by destruct (_ && _). }
  by rewrite Hpc0.
Qed.

(** [beq a0, a1, .+6] at [0x1000], without the C extension. *)
Lemma misaligned_branch_raises_witness :
  Z.land (PCRELA 4 (single_instruction_emitter 0x00B50363)
            (Btype_signed_imm 0x00B50363)) (ALIGN_MASK false) = 2
  /\ (exists sign op,
        code (emit_BRANCH false 4 0x00B50363 (single_instruction_emitter 0x00B50363))
        = (code (increment_counter_so_far (single_instruction_emitter 0x00B50363))
           +:+ branch_condition 0x00B50363
                 (increment_counter_so_far (single_instruction_emitter 0x00B50363))
                 sign op)
          +:+ ("api.exception(cpu, "
               +:+ PCRELS 4 (single_instruction_emitter 0x00B50363) 0
               +:+ ", MISALIGNED_INSTRUCTION); return (ReturnValues){0, 0};
" +:+ "}
"))
  /\ code (emit_BRANCH false 4 0x00B50363 (single_instruction_emitter 0x00B50363))
     = "f_1000_1000:;
counter += 1;
if (cpu->r[10] == cpu->r[11]) {
api.exception(cpu, 4096UL, MISALIGNED_INSTRUCTION); return (ReturnValues){0, 0};
}
".
Proof.
  split; [by vm_compute|]. split; [|by vm_compute].
  exact (misaligned_branch_raises false 4 0x00B50363
           (single_instruction_emitter 0x00B50363)
           ltac:(by vm_compute) ltac:(by vm_compute) ltac:(by vm_compute)).
Defined.

(* ===================================================================== *)
(** * Further properties of the code *)
(* ===================================================================== *)

(** ** Block ends of the translator and of fastsim *)

Lemma opcode_is_long whole :
  Z.land (opcode whole) 3 = 3 -> is_long whole = true.
Proof.
  unfold opcode, is_long, bits. rewrite Z.shiftr_0_r.
  rewrite <- Z.land_assoc. change (Z.land (Z.ones 7) 3) with 3.
  intros ->. done.
Qed.

(** X1. Every instruction at which the translator may end a block
    ([is_stopping_instruction]) also ends a fastsim block: four bytes long
    it has one of the opcodes that [realize_fastsim] breaks on, two bytes
    long it is not a regular compressed instruction. *)
Theorem stopping_instruction_ends_fastsim_block (W instr : Z) (entry : DecoderData) :
  (is_stopping_instruction false instr = true ->
   ends_block (opcode instr) entry = true)
  /\ (is_stopping_instruction true instr = true ->
      if length instr =? 2
      then is_regular_compressed W (half0 instr) = false
      else ends_block (opcode instr) entry = true).
Proof.
  assert (Hlong : (opcode instr =? RV32I_JALR) || (instr =? RV32_INSTR_STOP)
                  || ((opcode instr =? RV32I_SYSTEM) && (funct3 instr =? 0)
                      && (Itype_imm instr =? 261)) = true ->
                  is_long instr = true /\ ends_block (opcode instr) entry = true).
  { intros H. apply orb_true_iff in H as [H | H]; [apply orb_true_iff in H as [H | H]|].
    - apply Z.eqb_eq in H. split; [apply opcode_is_long; by rewrite H|].
      unfold ends_block. rewrite H. done.
    - apply Z.eqb_eq in H. subst instr. done.
    - apply andb_true_iff in H as [H _]. apply andb_true_iff in H as [H _].
      apply Z.eqb_eq in H. split; [apply opcode_is_long; by rewrite H|].
      unfold ends_block. rewrite H. done. }
  unfold is_stopping_instruction. split.
  - destruct (_ || _); [intros _; by apply Hlong|done].
  - destruct (_ || _).
    + intros _. destruct (Hlong eq_refl) as [Hl He]. unfold length. by rewrite Hl.
    + cbn [andb]. unfold is_compressed, length.
      destruct (is_long instr); [done|]. cbn [negb].
      destruct (Z.eqb_spec (c_opcode (half0 instr)) (CI_CODE 4 2)) as [Hop | ]; [|done].
      destruct (negb (CR_rd (half0 instr) =? 0) && (CR_rs2 (half0 instr) =? 0)) eqn:Hrd;
        [|done].
      intros _. change (2 =? 2) with true. cbv iota.
      unfold is_regular_compressed. rewrite Hop. cbn -[Z.testbit CR_rd CR_rs2].
      destruct (Z.testbit (half0 instr) 12); cbn [negb andb]; by rewrite Hrd.
Qed.

(** X2. Every instruction for which the block scanner records a jump or
    branch location ends a fastsim block as well. *)
Theorem jump_instruction_ends_fastsim_block (compressed_enabled : bool)
    (W instr pc : Z) (entry : DecoderData) (location : bool * Z) :
  jump_location compressed_enabled W instr pc = Some location ->
  if compressed_enabled && (length instr =? 2)
  then is_regular_compressed W (half0 instr) = false
  else ends_block (opcode instr) entry = true.
Proof.
  unfold jump_location.
  destruct (Z.eqb_spec (opcode instr) RV32I_JAL) as [Hop | _].
  { intros _. assert (Hl : is_long instr = true) by (apply opcode_is_long; by rewrite Hop).
    unfold length. rewrite Hl. rewrite andb_false_r.
    unfold ends_block. by rewrite Hop. }
  destruct (Z.eqb_spec (opcode instr) RV32I_BRANCH) as [Hop | _].
  { intros _. assert (Hl : is_long instr = true) by (apply opcode_is_long; by rewrite Hop).
    unfold length. rewrite Hl. rewrite andb_false_r.
    unfold ends_block. by rewrite Hop. }
  destruct compressed_enabled; [|done]. cbn [andb].
  unfold is_compressed, length. destruct (is_long instr); [done|]. cbn [negb].
  change (2 =? 2) with true. cbv iota.
  unfold is_regular_compressed.
  destruct (Z.eqb_spec W 4) as [-> | _]; cbn [andb].
  - destruct (Z.eqb_spec (c_opcode (half0 instr)) (CI_CODE 1 1)) as [Hop | _]; [done|].
    destruct (Z.eqb_spec (c_opcode (half0 instr)) (CI_CODE 5 1)) as [Hop | _]; [done|].
    destruct (Z.eqb_spec (c_opcode (half0 instr)) (CI_CODE 6 1)) as [Hop | _]; [done|].
    destruct (Z.eqb_spec (c_opcode (half0 instr)) (CI_CODE 7 1)) as [Hop | _]; [done|].
    done.
  - destruct (Z.eqb_spec (c_opcode (half0 instr)) (CI_CODE 5 1)) as [Hop | _].
    { intros _. rewrite Hop. done. }
    destruct (Z.eqb_spec (c_opcode (half0 instr)) (CI_CODE 6 1)) as [Hop | _].
    { intros _. rewrite Hop. done. }
    destruct (Z.eqb_spec (c_opcode (half0 instr)) (CI_CODE 7 1)) as [Hop | _].
    { intros _. rewrite Hop. done. }
    done.
Qed.

(** ** Labels and file names *)

Lemma string_app_cons c (s t : string) : String c s +:+ t = String c (s +:+ t).
Proof. done. Qed.

Lemma string_app_nil (t : string) : "" +:+ t = t.
Proof. done. Qed.

Lemma hex_digit_value d :
  0 <= d < 16 ->
  exists c, hex_digit d = String c EmptyString /\ hex_value c = Some d.
Proof.
  intros Hd.
  assert (Hcases : d = 0 \/ d = 1 \/ d = 2 \/ d = 3 \/ d = 4 \/ d = 5 \/ d = 6 \/ d = 7
                   \/ d = 8 \/ d = 9 \/ d = 10 \/ d = 11 \/ d = 12 \/ d = 13
                   \/ d = 14 \/ d = 15) by lia.
  repeat (destruct Hcases as [-> | Hcases]; [eexists; split; reflexivity|]).
  subst d. eexists; split; reflexivity.
Qed.

Lemma HEX_digit_value d :
  0 <= d < 16 ->
  exists c, HEX_digit d = String c EmptyString /\ hex_value c = Some d
            /\ upper_hex_char c = true.
Proof.
  intros Hd.
  assert (Hcases : d = 0 \/ d = 1 \/ d = 2 \/ d = 3 \/ d = 4 \/ d = 5 \/ d = 6 \/ d = 7
                   \/ d = 8 \/ d = 9 \/ d = 10 \/ d = 11 \/ d = 12 \/ d = 13
                   \/ d = 14 \/ d = 15) by lia.
  repeat (destruct Hcases as [-> | Hcases];
          [eexists; split; [|split]; reflexivity|]).
  subst d. eexists; split; [|split]; reflexivity.
Qed.

(** Number of digits that [to_hex_go] writes. *)
Lemma to_hex_go_parse (fuel : nat) :
  forall x acc a0,
    0 <= x < 16 ^ Z.of_nat fuel -> (0 < fuel)%nat ->
    exists n : nat,
      (1 <= n <= fuel)%nat
      /\ String.length (to_hex_go fuel x acc) = (n + String.length acc)%nat
      /\ of_hex_go (to_hex_go fuel x acc) a0 = of_hex_go acc (a0 * 16 ^ Z.of_nat n + x).
Proof.
  induction fuel as [|fuel IH]; intros x acc a0 Hx Hfuel; [lia|].
  cbn [to_hex_go].
  destruct (hex_digit_value (x mod 16) ltac:(apply Z.mod_pos_bound; lia)) as (c & Hc & Hv).
  rewrite Hc, string_app_cons, string_app_nil.
  destruct (Z.eqb_spec (x / 16) 0) as [Hz | Hnz].
  - exists 1%nat. split; [lia|]. split; [done|]. cbn [of_hex_go]. rewrite Hv.
    f_equal. change (16 ^ Z.of_nat 1) with 16. Z.div_mod_to_equations; lia.
  - assert (Hfuel' : (0 < fuel)%nat).
    { destruct fuel; [|lia]. change (16 ^ Z.of_nat 1) with 16 in Hx.
      Z.div_mod_to_equations; lia. }
    assert (Hx' : 0 <= x / 16 < 16 ^ Z.of_nat fuel).
    { rewrite Nat2Z.inj_succ, Z.pow_succ_r in Hx by lia.
      split; [apply Z.div_pos; lia|]. apply Z.div_lt_upper_bound; lia. }
    destruct (IH (x / 16) (String c acc) a0 Hx' Hfuel') as (n & Hn & Hlen & Hparse).
    exists (S n). split; [lia|]. split.
    + rewrite Hlen. cbn [String.length]. lia.
    + rewrite Hparse. cbn [of_hex_go]. rewrite Hv. f_equal.
      rewrite Nat2Z.inj_succ, Z.pow_succ_r by lia.
      Z.div_mod_to_equations; lia.
Qed.

Lemma to_hex_parse x : of_hex (to_hex x) = Some (wrap 64 x).
Proof.
  unfold of_hex, to_hex.
  destruct (to_hex_go_parse 16 (wrap 64 x) "" 0) as (n & _ & _ & ->).
  - pose proof (wrap_range 64 x ltac:(lia)) as H.
    change (16 ^ Z.of_nat 16) with (2 ^ 64). lia.
  - lia.
  - done.
Qed.

Lemma to_hex_length x (k : nat) :
  (1 <= k)%nat -> 0 <= x < 16 ^ Z.of_nat k -> (k <= 16)%nat ->
  (1 <= String.length (to_hex x) <= k)%nat.
Proof.
  intros Hk Hx Hk16. unfold to_hex.
  assert (H64 : 16 ^ Z.of_nat k <= 2 ^ 64).
  { change (2 ^ 64) with (16 ^ Z.of_nat 16). apply Z.pow_le_mono_r; lia. }
  rewrite wrap_small by lia.
  assert (Hgen : forall fuel x acc, (k <= fuel)%nat -> 0 <= x < 16 ^ Z.of_nat k ->
            (1 + String.length acc <= String.length (to_hex_go fuel x acc)
             <= k + String.length acc)%nat).
  { clear x Hx Hk16 H64. revert Hk. generalize k. clear k.
    intros k Hk fuel. revert k Hk. induction fuel as [|fuel IH]; intros k Hk x acc Hf Hx; [lia|].
    cbn [to_hex_go].
    destruct (hex_digit_value (x mod 16) ltac:(apply Z.mod_pos_bound; lia)) as (c & Hc & _).
    rewrite Hc, string_app_cons, string_app_nil.
    destruct (Z.eqb_spec (x / 16) 0) as [Hz | Hnz]; [cbn [String.length]; lia|].
    destruct k as [|k]; [lia|].
    destruct k as [|k].
    { change (16 ^ Z.of_nat 1) with 16 in Hx. Z.div_mod_to_equations; lia. }
    assert (Hx' : 0 <= x / 16 < 16 ^ Z.of_nat (S k)).
    { rewrite (Nat2Z.inj_succ (S k)), Z.pow_succ_r in Hx by lia.
      split; [apply Z.div_pos; lia|]. apply Z.div_lt_upper_bound; lia. }
    specialize (IH (S k) ltac:(lia) (x / 16) (String c acc) ltac:(lia) Hx').
    cbn [String.length] in IH. lia. }
  specialize (Hgen 16%nat x "" Hk16 Hx). cbn [String.length] in Hgen. lia.
Qed.

Lemma string_length_app (s t : string) :
  String.length (s +:+ t) = (String.length s + String.length t)%nat.
Proof.
  induction s as [|a s IH]; [done|].
  rewrite string_app_cons. cbn [String.length]. by rewrite IH.
Qed.

Lemma substring_all (n : nat) (s : string) :
  (String.length s <= n)%nat -> String.substring 0 n s = s.
Proof.
  revert n. induction s as [|a s IH]; intros n Hn; [by destruct n|].
  destruct n as [|n]; cbn [String.length] in Hn; [lia|].
  cbn [String.substring]. f_equal. apply IH. lia.
Qed.

Lemma substring_app_l (n : nat) (s t : string) :
  (n <= String.length s)%nat ->
  String.substring 0 n (s +:+ t) = String.substring 0 n s.
Proof.
  revert n. induction s as [|a s IH]; intros n Hn.
  - cbn [String.length] in Hn. assert (n = 0%nat) as -> by lia.
    rewrite string_app_nil. by destruct t.
  - rewrite string_app_cons. destruct n as [|n]; [done|].
    cbn [String.length] in Hn. cbn [String.substring]. f_equal. apply IH. lia.
Qed.

(** A text that fits the buffer is the label. *)
Lemma funclabel_fits (func : string) (addr : Z) :
  (String.length (funclabel_text func addr) <= 31)%nat ->
  funclabel func addr = funclabel_text func addr.
Proof. intros Hfit. unfold funclabel. by apply substring_all. Qed.

Lemma funclabel_text_length (func : string) (addr : Z) (k : nat) :
  (1 <= k <= 16)%nat -> 0 <= addr < 16 ^ Z.of_nat k ->
  (String.length func + 2 <= String.length (funclabel_text func addr)
   <= String.length func + 1 + k)%nat.
Proof.
  intros Hk Ha.
  pose proof (to_hex_length addr k ltac:(lia) Ha ltac:(lia)) as L.
  unfold funclabel_text. rewrite !string_length_app. cbn [String.length]. lia.
Qed.

(** Labels that fit the buffer tell their addresses apart. *)
Lemma funclabel_inj (func : string) (addr1 addr2 : Z) :
  0 <= addr1 < 2 ^ 64 -> 0 <= addr2 < 2 ^ 64 ->
  (String.length (funclabel_text func addr1) <= 31)%nat ->
  (String.length (funclabel_text func addr2) <= 31)%nat ->
  funclabel func addr1 = funclabel func addr2 -> addr1 = addr2.
Proof.
  intros H1 H2 F1 F2 Heq. rewrite !funclabel_fits in Heq by done.
  unfold funclabel_text in Heq.
  apply String.app_inj in Heq. apply String.app_inj in Heq.
  pose proof (to_hex_parse addr1) as P1. pose proof (to_hex_parse addr2) as P2.
  rewrite Heq in P1. rewrite P1 in P2. injection P2 as P2.
  by rewrite !wrap_small in P2 by done.
Qed.



(** X4. The labels of a block fit the 32-byte buffer of [funclabel]
    whenever the addresses are below [2^56], so always for [W = 4]: the
    text of the name of the block function has at most 16 characters and
    the text of a label inside it at most 31, so that [funclabel] returns
    both uncut. *)
Theorem funclabel_fits_buffer (basepc addr : Z) :
  0 <= basepc < 2 ^ 56 -> 0 <= addr < 2 ^ 56 ->
  let name := funclabel_text "f" basepc in
  let label := funclabel_text name addr in
  (String.length name <= 16)%nat
  /\ (0 < String.length label <= 31)%nat
  /\ funclabel "f" basepc = name
  /\ funclabel (funclabel "f" basepc) addr = label.
Proof.
  intros Hb Ha name label.
  pose proof (funclabel_text_length "f" basepc 14 ltac:(lia) Hb) as Lb.
  pose proof (funclabel_text_length name addr 14 ltac:(lia) Ha) as La.
  fold name in Lb. fold label in La. cbn [String.length] in Lb.
  assert (Hname : funclabel "f" basepc = name) by (apply funclabel_fits; fold name; lia).
  split; [lia|]. split; [lia|]. split; [done|].
  rewrite Hname. apply funclabel_fits. fold label. lia.
Qed.

Lemma funclabel_fits_buffer_witness :
  funclabel "f" 0xFFFFFFFF = "f_ffffffff"
  /\ funclabel (funclabel "f" 0xFFFFFFFF) 0xFFFFFFFE = "f_ffffffff_fffffffe"
  /\ (String.length (funclabel_text "f" 0xFFFFFFFF) <= 16)%nat
  /\ (0 < String.length (funclabel_text (funclabel_text "f" 0xFFFFFFFF) 0xFFFFFFFE)
      <= 31)%nat.
Proof.
  destruct (funclabel_fits_buffer 0xFFFFFFFF 0xFFFFFFFE ltac:(lia) ltac:(lia))
    as (L1 & L2 & E1 & E2).
  split; [exact E1|]. split; [exact E2|]. split; [exact L1 | exact L2].
Defined.

Lemma to_HEX8_parse x :
  0 <= x < 2 ^ 32 ->
  String.length (to_HEX8 x) = 8%nat /\ of_hex (to_HEX8 x) = Some x
  /\ upper_hex (to_HEX8 x) = true.
Proof.
  intros Hx. unfold to_HEX8, of_hex.
  assert (Hb : forall lo, 0 <= bits x lo 4 < 16).
  { intros lo. apply (bits_range x lo 4). lia. }
  destruct (HEX_digit_value _ (Hb 28)) as (c7 & -> & V7 & U7).
  destruct (HEX_digit_value _ (Hb 24)) as (c6 & -> & V6 & U6).
  destruct (HEX_digit_value _ (Hb 20)) as (c5 & -> & V5 & U5).
  destruct (HEX_digit_value _ (Hb 16)) as (c4 & -> & V4 & U4).
  destruct (HEX_digit_value _ (Hb 12)) as (c3 & -> & V3 & U3).
  destruct (HEX_digit_value _ (Hb 8)) as (c2 & -> & V2 & U2).
  destruct (HEX_digit_value _ (Hb 4)) as (c1 & -> & V1 & U1).
  destruct (HEX_digit_value _ (Hb 0)) as (c0 & -> & V0 & U0).
  rewrite !string_app_cons, !string_app_nil.
  cbn [String.length of_hex_go upper_hex]. split; [done|]. split.
  - rewrite V7, V6, V5, V4, V3, V2, V1, V0. f_equal.
    unfold bits. rewrite !Z.shiftr_div_pow2 by lia.
    change (Z.ones 4) with (Z.pred (2 ^ 4)). rewrite <- !Z.ones_equiv, !Z.land_ones by lia.
    Z.div_mod_to_equations. lia.
  - by rewrite U7, U6, U5, U4, U3, U2, U1, U0.
Qed.

Lemma string_app_inj_r (a b s : string) :
  String.length a = String.length b -> a +:+ s = b +:+ s -> a = b.
Proof.
  revert b. induction a as [|x a IH]; intros [|y b] Hlen Heq; cbn in Hlen; try done.
  rewrite !string_app_cons in Heq.
  injection Heq as -> Heq. f_equal. apply IH; [lia|done].
Qed.



(** ** Blocks of the translator, one by one *)

(** A run of [find_block_end] walks a chain of instructions. *)
Lemma find_block_end_walk c W exec_data endbasepc (fuel : nat) :
  forall pc n pc' n',
    0 <= pc -> endbasepc + 4 <= 2 ^ (8 * W) ->
    find_block_end fuel c W exec_data endbasepc pc n = Some (pc', n') ->
    exists pcs,
      emit_pcs c W pc (map (fun p => read_instruction exec_data p endbasepc) pcs)
      = (pcs, pc')
      /\ Forall (fun p => pc <= p < pc' /\ p < endbasepc) pcs
      /\ pc <= pc'.
Proof.
  induction fuel as [|fuel IH]; intros pc n pc' n' Hpc Hend; cbn [find_block_end].
  - destruct (pc <? endbasepc); [done|]. intros [= <- <-].
    exists []. split; [done|]. split; [done|lia].
  - destruct (Z.ltb_spec pc endbasepc) as [Hlt | Hge].
    2:{ intros [= <- <-]. exists []. split; [done|]. split; [done|lia]. }
    pose proof (step_length_cases c (read_instruction exec_data pc endbasepc)) as Hstep.
    assert (Hwrap : wrap (8 * W) (pc + step_length c (read_instruction exec_data pc endbasepc))
                    = pc + step_length c (read_instruction exec_data pc endbasepc))
      by (apply wrap_small; lia).
    rewrite Hwrap.
    set (pc1 := pc + step_length c (read_instruction exec_data pc endbasepc)) in *.
    assert (Hhead : forall pcs last,
              emit_pcs c W pc1 (map (fun p => read_instruction exec_data p endbasepc) pcs)
              = (pcs, last) ->
              emit_pcs c W pc (map (fun p => read_instruction exec_data p endbasepc) (pc :: pcs))
              = (pc :: pcs, last)).
    { intros pcs last Hrest. cbn [map emit_pcs].
      change (if c then length (read_instruction exec_data pc endbasepc) else 4)
        with (step_length c (read_instruction exec_data pc endbasepc)).
      fold pc1. rewrite Hwrap. by rewrite Hrest. }
    destruct (_ && _).
    + intros [= <- <-]. exists [pc]. split; [by apply Hhead|].
      assert (Hlt1 : pc < pc1) by (subst pc1; lia).
      split; [|lia]. apply Forall_singleton. lia.
    + intros Hrun.
      assert (Hpc1 : 0 <= pc1) by (subst pc1; lia).
      destruct (IH pc1 _ _ _ Hpc1 Hend Hrun) as (pcs & Hwalk & Hall & Hle).
      assert (Hlt1 : pc < pc1) by (subst pc1; lia).
      exists (pc :: pcs). split; [by apply Hhead|]. split; [|lia].
      apply Forall_cons. split; [lia|].
      eapply Forall_impl; [exact Hall|]. cbn. intros p ?. lia.
Qed.

(** The second walk over a block collects the instructions of the chain. *)
Lemma collect_block_walk c W exec_data endbasepc block block_end :
  forall pcs pc jl gl acc (fuel : nat),
    emit_pcs c W pc (map (fun p => read_instruction exec_data p endbasepc) pcs)
    = (pcs, block_end) ->
    Forall (fun p => p < block_end) pcs ->
    0 <= pc -> block_end + 4 <= 2 ^ (8 * W) ->
    block_end - pc <= Z.of_nat fuel ->
    exists jl' gl',
      collect_block fuel c W exec_data endbasepc block block_end pc jl gl acc
      = Some (jl', gl', acc ++ map (fun p => read_instruction exec_data p endbasepc) pcs).
Proof.
  induction pcs as [|p pcs IH]; intros pc jl gl acc fuel Hwalk Hall Hpc Hend Hfuel.
  - cbn in Hwalk. injection Hwalk as <-.
    exists jl, gl. rewrite app_nil_r.
    destruct fuel; cbn [collect_block]; by rewrite Z.ltb_irrefl.
  - cbn [map emit_pcs] in Hwalk.
    destruct (emit_pcs c W _ _) as [pcs' last] eqn:Hrest.
    injection Hwalk as -> -> ->.
    apply Forall_cons in Hall as [Hlt Hall].
    pose proof (step_length_cases c (read_instruction exec_data p endbasepc)) as Hstep.
    change (if c then length (read_instruction exec_data p endbasepc) else 4)
      with (step_length c (read_instruction exec_data p endbasepc)) in Hrest.
    rewrite (wrap_small (8 * W)) in Hrest by lia.
    destruct fuel as [|fuel]; [lia|]. cbn [collect_block map].
    rewrite (proj2 (Z.ltb_lt _ _)) by done.
    rewrite (wrap_small (8 * W)) by lia.
    destruct (match jump_location c W (read_instruction exec_data p endbasepc) p with
              | Some (true, location) => _
              | Some (false, location) => _
              | None => _ end) as [jl1 gl1].
    destruct (IH _ jl1 gl1 (acc ++ [read_instruction exec_data p endbasepc]) fuel
                Hrest Hall ltac:(lia) Hend ltac:(lia)) as (jl' & gl' & Hrun).
    exists jl', gl'. rewrite Hrun. by rewrite <- app_assoc.
Qed.

(** The jump locations of a block lie inside it. *)
Lemma collect_block_jumps c W exec_data endbasepc block block_end (fuel : nat) :
  forall pc jl gl instrs jl' gl' instrs',
    (forall l, l ∈ jl -> block <= l < block_end) ->
    collect_block fuel c W exec_data endbasepc block block_end pc jl gl instrs
    = Some (jl', gl', instrs') ->
    forall l, l ∈ jl' -> block <= l < block_end.
Proof.
  induction fuel as [|fuel IH]; intros pc jl gl instrs jl' gl' instrs' Hjl;
    cbn [collect_block].
  - destruct (pc <? block_end); [done|]. by intros [= <- _ _].
  - destruct (pc <? block_end); [|by intros [= <- _ _]].
    destruct (match jump_location c W (read_instruction exec_data pc endbasepc) pc with
              | Some (true, location) => _
              | Some (false, location) => _
              | None => _ end) as [jl1 gl1] eqn:Hjump.
    intros Hrun. eapply IH; [|exact Hrun].
    intros l Hl.
    destruct (jump_location c W (read_instruction exec_data pc endbasepc) pc)
      as [[[|] location]|]; injection Hjump as <- _; try by apply Hjl.
    + destruct (Z.leb_spec block location); [|by apply Hjl].
      destruct (Z.ltb_spec location block_end); [|by apply Hjl].
      cbn [andb] in Hl. apply elem_of_union in Hl as [Hl | Hl]; [|by apply Hjl].
      apply elem_of_singleton in Hl. lia.
    + destruct (Z.leb_spec block location); [|by apply Hjl].
      destruct (Z.ltb_spec location block_end); [|by apply Hjl].
      cbn [andb] in Hl. apply elem_of_union in Hl as [Hl | Hl]; [|by apply Hjl].
      apply elem_of_singleton in Hl. lia.
Qed.

(** What the block loop knows about every block that it adds. *)
Lemma scan_blocks_blocks c W options exec_data base endbasepc gp arena (fuel : nat) :
  forall pc icounter gl blocks blocks' gl' icounter',
    0 <= pc -> endbasepc + 8 <= 2 ^ (8 * W) ->
    scan_blocks fuel c W options exec_data base endbasepc gp arena
      pc icounter gl blocks = Some (blocks', gl', icounter') ->
    exists new,
      blocks' = blocks ++ new
      /\ Forall (fun b => pc <= basepc b < endbasepc
                          /\ block_of_scan c W exec_data endbasepc b) new.
Proof.
  induction fuel as [|fuel IH];
    intros pc icounter gl blocks blocks' gl' icounter' Hpc Hend; cbn [scan_blocks].
  - destruct (_ && _); [done|]. intros [= <- _ _]. exists []. by rewrite app_nil_r.
  - destruct (Z.ltb_spec pc endbasepc) as [Hlt | Hge]; cbn [andb].
    2:{ intros [= <- _ _]. exists []. by rewrite app_nil_r. }
    destruct (icounter <? translate_instr_max options).
    2:{ intros [= <- _ _]. exists []. by rewrite app_nil_r. }
    destruct (find_block_end_spec c W exec_data endbasepc
                (Z.to_nat (endbasepc - pc)) pc 0 Hpc ltac:(lia) ltac:(lia))
      as (pc' & n' & Hfind & _ & Hin & _).
    specialize (Hin Hlt). rewrite Hfind.
    destruct (collect_block (Z.to_nat (pc' - pc)) c W exec_data endbasepc pc pc' pc ∅ gl [])
      as [[[jl1 gl1] instrs1]|] eqn:Hcollect; [|done].
    assert (Hweak : forall new : list TransInfo,
              Forall (fun b => pc' <= basepc b < endbasepc
                               /\ block_of_scan c W exec_data endbasepc b) new ->
              Forall (fun b => pc <= basepc b < endbasepc
                               /\ block_of_scan c W exec_data endbasepc b) new).
    { intros new Hn. eapply Forall_impl; [exact Hn|]. intros b [Hb ?]. split; [lia|done]. }
    destruct (_ && _).
    + set (b := mkTransInfo _ _ _ _ _ _ _ _ _ _ _).
      assert (Hb : pc <= basepc b < endbasepc /\ block_of_scan c W exec_data endbasepc b).
      { unfold block_of_scan. cbn. split; [lia|]. split; [by exists n'|]. by exists gl, gl1. }
      destruct (_ <=? _).
      * intros [= <- _ _]. exists [b]. split; [done|]. by apply Forall_singleton.
      * intros Hrun.
        destruct (IH pc' _ _ _ _ _ _ ltac:(lia) Hend Hrun) as (new & -> & Hall).
        exists (b :: new). split; [by rewrite <- app_assoc|].
        apply Forall_cons. split; [done|]. by apply Hweak.
    + intros Hrun.
      destruct (IH pc' _ _ _ _ _ _ ltac:(lia) Hend Hrun) as (new & -> & Hall).
      exists new. split; [done|]. by apply Hweak.
Qed.

(** The blocks that discovery returns, each with what is known of it. *)
Lemma discover_blocks c W options exec_data start_address arena base endbasepc :
  0 <= base -> endbasepc + 8 <= 2 ^ (8 * W) ->
  translate_invoke_compiler options = true ->
  exists d,
    try_translate_discover c W options exec_data start_address arena base endbasepc
    = Some (Some d)
    /\ Forall (fun b => base <= basepc b < endbasepc
                        /\ block_of_scan c W exec_data endbasepc b) (found_blocks d)
    /\ StronglySorted before (map extent (found_blocks d))
    /\ Forall (fun b => basepc b < endpc b) (found_blocks d).
Proof.
  intros Hbase Hend Hinvoke. unfold try_translate_discover. rewrite Hinvoke. cbn [negb].
  destruct (scan_for_gp_total c W exec_data endbasepc
              (Z.to_nat (endbasepc - base)) base Hbase ltac:(lia) ltac:(lia))
    as [gp ->].
  set (gl := if _ && _ then _ else _).
  destruct (scan_blocks_spec c W options exec_data base endbasepc
              gp arena (Z.to_nat (endbasepc - base)) base 0 gl []
              Hbase Hend ltac:(lia)) as (new & gl' & ic' & Hrun & Hsub & Hall).
  rewrite Hrun. cbn [app]. eexists. split; [done|]. cbn [found_blocks].
  destruct (scan_blocks_blocks _ _ _ _ _ _ _ _ _ _ _ _ _ _ _ _ Hbase Hend Hrun)
    as (new' & Heq & Hblocks).
  cbn [app] in Heq. subst new'.
  pose proof (scanned_blocks_contiguous c W exec_data endbasepc
                (Z.to_nat (endbasepc - base)) base Hbase ltac:(lia)) as Hcont.
  destruct (contiguous_from_sorted _ _ _ Hcont) as [Hext Hsorted].
  split; [done|]. split; [by eapply StronglySorted_sublist|].
  apply Forall_forall. intros b Hb.
  assert (Hin : extent b ∈ scanned_blocks (Z.to_nat (endbasepc - base))
                  c W exec_data endbasepc base).
  { eapply elem_of_sublist; [|exact Hsub]. apply list_elem_of_fmap. by exists b. }
  pose proof (proj1 (Forall_forall _ _) Hext _ Hin) as Hb'. cbn in Hb'. lia.
Qed.

Lemma find_block_base_in_sorted (blocks : list TransInfo) (pc : Z) :
  StronglySorted before (map extent blocks) ->
  Forall (fun b => basepc b < endpc b) blocks ->
  forall b, b ∈ blocks -> basepc b <= pc < endpc b ->
    find_block_base_in blocks pc = basepc b.
Proof.
  induction blocks as [|blk blocks IH]; intros Hsorted Hpos b Hb Hpc.
  - by apply elem_of_nil in Hb.
  - cbn [map] in Hsorted. apply StronglySorted_inv in Hsorted as [Hsorted Hhead].
    apply Forall_cons in Hpos as [_ Hpos].
    cbn [find_block_base_in].
    apply elem_of_cons in Hb as [-> | Hb].
    + rewrite (proj2 (Z.leb_le _ _)) by lia. by rewrite (proj2 (Z.ltb_lt _ _)) by lia.
    + assert (Hbefore : before (extent blk) (extent b)).
      { apply (proj1 (Forall_forall _ _) Hhead). apply list_elem_of_fmap. by exists b. }
      unfold before in Hbefore. cbn in Hbefore.
      destruct (Z.leb_spec (basepc blk) pc); cbn [andb]; [|by apply IH].
      destruct (Z.ltb_spec pc (endpc blk)); [lia|by apply IH].
Qed.

Lemma find_block_base_in_none (blocks : list TransInfo) (pc : Z) :
  (forall b, b ∈ blocks -> ~ (basepc b <= pc < endpc b)) ->
  find_block_base_in blocks pc = 0.
Proof.
  induction blocks as [|blk blocks IH]; intros Hnone; [done|].
  cbn [find_block_base_in].
  assert (Hblk : ~ (basepc blk <= pc < endpc blk)) by (apply Hnone; apply elem_of_cons; by left).
  destruct (Z.leb_spec (basepc blk) pc); cbn [andb].
  - destruct (Z.ltb_spec pc (endpc blk)); [lia|].
    apply IH. intros b Hb. apply Hnone. apply elem_of_cons. by right.
  - apply IH. intros b Hb. apply Hnone. apply elem_of_cons. by right.
Qed.

(** X6. Among the blocks that [try_translate] has found,
    [find_block_base] maps every address of a block to the first address
    of that block, and every address that lies in no block to 0. *)
Theorem find_block_base_of_found_blocks (compressed_enabled : bool) (W : Z)
    (options : MachineOptions) (exec_data : memory)
    (start_address arena base endbasepc : Z) :
  0 <= base -> endbasepc + 8 <= 2 ^ (8 * W) ->
  translate_invoke_compiler options = true ->
  exists d,
    try_translate_discover compressed_enabled W options exec_data
      start_address arena base endbasepc = Some (Some d)
    /\ (forall b addr, b ∈ found_blocks d -> basepc b <= addr < endpc b ->
        find_block_base_in (found_blocks d) addr = basepc b)
    /\ (forall addr,
        (forall b, b ∈ found_blocks d -> ~ (basepc b <= addr < endpc b)) ->
        find_block_base_in (found_blocks d) addr = 0).
Proof.
  intros Hbase Hend Hinvoke.
  destruct (discover_blocks compressed_enabled W options exec_data start_address arena
              base endbasepc Hbase Hend Hinvoke) as (d & Hrun & _ & Hsorted & Hpos).
  exists d. split; [done|]. split.
  - intros b addr Hb Haddr. by apply find_block_base_in_sorted.
  - intros addr. apply find_block_base_in_none.
Qed.

Lemma find_block_base_of_found_blocks_witness :
  exists d,
    try_translate_discover false 4 (translating_options 16 5000) two_functions_memory
      0x1000 0 0x1000 (0x1000 + 4 * 2501) = Some (Some d)
    /\ find_block_base_in (found_blocks d) 0x2390 = 0x2388.
Proof.
  destruct (find_block_base_of_found_blocks false 4 (translating_options 16 5000)
              two_functions_memory 0x1000 0 0x1000 (0x1000 + 4 * 2501)
              ltac:(lia) ltac:(lia) eq_refl) as (d & Hrun & Hin & _).
  exists d. split; [exact Hrun|].
  vm_compute in Hrun. injection Hrun as <-. vm_compute. reflexivity.
Defined.

(** X7. Every jump location that [try_translate] records for a block lies
    inside that block. *)
Theorem jump_locations_inside_block (compressed_enabled : bool) (W : Z)
    (options : MachineOptions) (exec_data : memory)
    (start_address arena base endbasepc : Z) :
  0 <= base -> endbasepc + 8 <= 2 ^ (8 * W) ->
  translate_invoke_compiler options = true ->
  exists d,
    try_translate_discover compressed_enabled W options exec_data
      start_address arena base endbasepc = Some (Some d)
    /\ forall b location, b ∈ found_blocks d -> location ∈ jump_locations b ->
         basepc b <= location < endpc b.
Proof.
  intros Hbase Hend Hinvoke.
  destruct (discover_blocks compressed_enabled W options exec_data start_address arena
              base endbasepc Hbase Hend Hinvoke) as (d & Hrun & Hall & _ & _).
  exists d. split; [done|]. intros b location Hb Hloc.
  destruct (proj1 (Forall_forall _ _) Hall b Hb) as (_ & _ & g & g' & Hcollect).
  eapply collect_block_jumps; [|exact Hcollect|exact Hloc].
  intros l Hl. by apply elem_of_empty in Hl.
Qed.

(** The instructions of a discovered block, walked the way the emitter
    walks them. *)
Lemma discovered_block_pcs (compressed_enabled : bool) (W : Z)
    (options : MachineOptions) (exec_data : memory)
    (start_address arena base endbasepc : Z) :
  0 <= base -> endbasepc + 8 <= 2 ^ (8 * W) ->
  translate_invoke_compiler options = true ->
  exists d,
    try_translate_discover compressed_enabled W options exec_data
      start_address arena base endbasepc = Some (Some d)
    /\ forall b, b ∈ found_blocks d ->
       exists pcs,
         emit_pcs compressed_enabled W (basepc b) (ti_instr b) = (pcs, endpc b)
         /\ ti_instr b = map (fun p => read_instruction exec_data p endbasepc) pcs
         /\ Forall (fun p => basepc b <= p < endpc b) pcs.
Proof.
  intros Hbase Hend Hinvoke.
  destruct (discover_blocks compressed_enabled W options exec_data start_address arena
              base endbasepc Hbase Hend Hinvoke) as (d & Hrun & Hall & _ & Hpos).
  exists d. split; [done|]. intros b Hb.
  destruct (proj1 (Forall_forall _ _) Hall b Hb) as (Hrange & (n' & Hfind) & g & g' & Hcollect).
  pose proof (proj1 (Forall_forall _ _) Hpos b Hb) as Hlt. cbn in Hlt.
  assert (Hend4 : endbasepc + 4 <= 2 ^ (8 * W)) by lia.
  assert (Hb0 : 0 <= basepc b) by lia.
  destruct (find_block_end_walk _ _ _ _ _ _ _ _ _ Hb0 Hend4 Hfind)
    as (pcs & Hwalk & Hbounds & _).
  destruct (find_block_end_spec compressed_enabled W exec_data endbasepc
              (Z.to_nat (endbasepc - basepc b)) (basepc b) 0 ltac:(lia) Hend4 ltac:(lia))
    as (pc' & n'' & Hfind' & _ & Hin & _).
  rewrite Hfind in Hfind'. injection Hfind' as <- <-. specialize (Hin ltac:(lia)).
  destruct (collect_block_walk compressed_enabled W exec_data endbasepc (basepc b) (endpc b)
              pcs (basepc b) ∅ g [] (Z.to_nat (endpc b - basepc b)) Hwalk)
    as (jl' & gl' & Hcollect').
  { eapply Forall_impl; [exact Hbounds|]. cbn. intros p ?. lia. }
  { lia. }
  { lia. }
  { lia. }
  rewrite Hcollect in Hcollect'. cbn [app] in Hcollect'. injection Hcollect' as _ _ Hinstr.
  exists pcs. rewrite Hinstr. split; [done|]. split; [done|].
  eapply Forall_impl; [exact Hbounds|]. cbn. intros p ?. lia.
Qed.

(** X8. The instructions of a block are the words at the addresses that
    the emitter gives them: walking [tinfo.instr] from [basepc] as
    [Emitter::emit()] does, the [k]-th instruction is the one that
    [read_instruction] returns at the [k]-th address, every address lies
    inside the block, and the walk ends at [endpc]. *)
Theorem block_instructions_at_their_addresses (compressed_enabled : bool) (W : Z)
    (options : MachineOptions) (exec_data : memory)
    (start_address arena base endbasepc : Z) :
  0 <= base -> endbasepc + 8 <= 2 ^ (8 * W) ->
  translate_invoke_compiler options = true ->
  exists d,
    try_translate_discover compressed_enabled W options exec_data
      start_address arena base endbasepc = Some (Some d)
    /\ forall b, b ∈ found_blocks d ->
       exists pcs,
         emit_pcs compressed_enabled W (basepc b) (ti_instr b) = (pcs, endpc b)
         /\ ti_instr b = map (fun p => read_instruction exec_data p endbasepc) pcs
         /\ Forall (fun p => basepc b <= p < endpc b) pcs.
Proof.
  apply discovered_block_pcs.
Qed.

Lemma block_instructions_at_their_addresses_witness :
  exists d,
    try_translate_discover true 4 (translating_options 16 5000)
      (mem_of_bytes 0x1000 [0x01; 0x00; 0x13; 0x00; 0x00; 0x00; 0x82; 0x80]) 0x1000 0
      0x1000 0x1008 = Some (Some d)
    /\ map (fun b => (emit_pcs true 4 (basepc b) (ti_instr b), ti_instr b)) (found_blocks d)
       = [(([0x1000; 0x1002; 0x1006], 0x1008), [0x00130001; 0x00000013; 0x8082])].
Proof.
  destruct (block_instructions_at_their_addresses true 4 (translating_options 16 5000)
              (mem_of_bytes 0x1000 [0x01; 0x00; 0x13; 0x00; 0x00; 0x00; 0x82; 0x80])
              0x1000 0 0x1000 0x1008 ltac:(lia) ltac:(lia) eq_refl) as (d & Hrun & _).
  exists d. split; [exact Hrun|].
  vm_compute in Hrun. injection Hrun as <-. vm_compute. reflexivity.
Defined.

Lemma jump_locations_inside_block_witness :
  exists d,
    try_translate_discover false 4 (translating_options 16 5000)
      (mem_of_words 0x1000 [0x00000013; 0xFE029EE3; 0x00008067]) 0x1000 0
      0x1000 0x100C = Some (Some d)
    /\ map (fun b => (basepc b, elements (jump_locations b), endpc b)) (found_blocks d)
       = [(0x1000, [0x1000], 0x100C)].
Proof.
  destruct (jump_locations_inside_block false 4 (translating_options 16 5000)
              (mem_of_words 0x1000 [0x00000013; 0xFE029EE3; 0x00008067])
              0x1000 0 0x1000 0x100C ltac:(lia) ltac:(lia) eq_refl) as (d & Hrun & _).
  exists d. split; [exact Hrun|].
  vm_compute in Hrun. injection Hrun as <-. vm_compute. reflexivity.
Defined.

Lemma instructions_in_app (l k : list TransInfo) :
  instructions_in (l ++ k) = instructions_in l + instructions_in k.
Proof.
  unfold instructions_in. induction l as [|b l IH]; cbn [app foldr]; [lia|].
  rewrite IH. lia.
Qed.

(** The counters of the block loop. *)
Lemma scan_blocks_budget c W options exec_data base endbasepc gp arena (fuel : nat) :
  forall pc icounter gl blocks blocks' gl' icounter',
    0 <= base <= pc -> endbasepc + 8 <= 2 ^ (8 * W) -> 8 * W <= 64 ->
    0 <= icounter -> 2 * icounter <= pc - base ->
    scan_blocks fuel c W options exec_data base endbasepc gp arena
      pc icounter gl blocks = Some (blocks', gl', icounter') ->
    exists new,
      blocks' = blocks ++ new
      /\ icounter' = icounter + instructions_in new
      /\ (new <> [] -> icounter' < translate_instr_max options)
      /\ Z.of_nat (List.length blocks')
         <= Z.max (Z.of_nat (List.length blocks) + 1) (translate_blocks_max options).
Proof.
  induction fuel as [|fuel IH];
    intros pc icounter gl blocks blocks' gl' icounter' Hpc Hend HW Hic0 Hic;
    cbn [scan_blocks].
  - destruct (_ && _); [done|]. intros [= <- _ <-]. exists [].
    rewrite app_nil_r. cbn. split; [done|]. split; [lia|]. split; [done|lia].
  - destruct (Z.ltb_spec pc endbasepc) as [Hlt | Hge]; cbn [andb].
    2:{ intros [= <- _ <-]. exists []. rewrite app_nil_r. cbn.
        split; [done|]. split; [lia|]. split; [done|lia]. }
    destruct (icounter <? translate_instr_max options).
    2:{ intros [= <- _ <-]. exists []. rewrite app_nil_r. cbn.
        split; [done|]. split; [lia|]. split; [done|lia]. }
    assert (Hpc0 : 0 <= pc) by lia.
    assert (Hend4 : endbasepc + 4 <= 2 ^ (8 * W)) by lia.
    destruct (find_block_end_spec c W exec_data endbasepc
                (Z.to_nat (endbasepc - pc)) pc 0 Hpc0 Hend4 ltac:(lia))
      as (pc' & n' & Hfind & _ & Hin & _).
    specialize (Hin Hlt).
    pose proof (find_block_end_even _ _ _ _ _ _ _ _ _ Hpc0 Hend4 Hfind) as Heven.
    rewrite Hfind.
    destruct (collect_block (Z.to_nat (pc' - pc)) c W exec_data endbasepc pc pc' pc ∅ gl [])
      as [[[jl1 gl1] instrs1]|] eqn:Hcollect; [|done].
    assert (Hend' : pc' + 4 <= 2 ^ (8 * W)) by lia.
    pose proof (collect_block_count _ _ _ _ _ _ _ _ _ _ _ _ _ _ Hpc0 Hend'
                  Hcollect ltac:(lia)) as Hcount.
    cbn [List.length] in Hcount.
    set (len := Z.of_nat (List.length instrs1)) in *.
    assert (Hlen2 : 2 * len <= pc' - pc) by (Z.div_mod_to_equations; lia).
    assert (Hpow : 2 ^ (8 * W) <= 2 ^ 64) by (apply Z.pow_le_mono_r; lia).
    assert (Hlen0 : 0 <= len) by (subst len; lia).
    rewrite (wrap_small 64 (icounter + len)) by lia.
    destruct (0 <? len) eqn:Hpos; cbn [andb].
    2:{ intros Hrun.
        destruct (IH pc' icounter _ _ _ _ _ ltac:(lia) Hend HW Hic0 ltac:(lia) Hrun)
          as (new & -> & Hsum & Hmax & Hlenb).
        exists new. done. }
    destruct (Z.ltb_spec (icounter + len) (translate_instr_max options)) as [Hfit | Hnofit].
    2:{ intros Hrun.
        destruct (IH pc' icounter _ _ _ _ _ ltac:(lia) Hend HW Hic0 ltac:(lia) Hrun)
          as (new & -> & Hsum & Hmax & Hlenb).
        exists new. done. }
    set (b := mkTransInfo _ _ _ _ _ _ _ _ _ _ _).
    assert (Hb : instructions_in [b] = len) by (cbn; lia).
    destruct (Z.leb_spec (translate_blocks_max options)
                (Z.of_nat (List.length (blocks ++ [b])))) as [Hfull | Hroom].
    + intros [= <- _ <-]. exists [b]. split; [done|]. split; [lia|].
      split; [lia|]. rewrite length_app. cbn [List.length]. lia.
    + intros Hrun.
      destruct (IH pc' (icounter + len) _ _ _ _ _ ltac:(lia) Hend HW ltac:(lia) ltac:(lia) Hrun)
        as (new & -> & Hsum & Hmax & Hlenb).
      exists (b :: new). split; [by rewrite <- app_assoc|].
      change (b :: new) with ([b] ++ new). rewrite instructions_in_app, Hb.
      split; [lia|]. split.
      * intros _. destruct new as [|b' new]; [|apply Hmax; done].
        cbn in Hsum. lia.
      * rewrite !length_app in Hroom. rewrite !length_app in Hlenb.
        rewrite !length_app. cbn [List.length] in Hroom, Hlenb |- *. lia.
Qed.

(** X9. The budgets of the block scanner: the instruction counter that
    [try_translate] ends with is the number of instructions in the blocks
    it has found; it stays below [translate_instr_max] whenever a block was
    found; and the number of blocks is at most [translate_blocks_max], or 1
    when that is less than 1. *)
Theorem block_scanner_budgets (compressed_enabled : bool) (W : Z)
    (options : MachineOptions) (exec_data : memory)
    (start_address arena base endbasepc : Z) :
  0 <= base -> endbasepc + 8 <= 2 ^ (8 * W) -> 8 * W <= 64 ->
  translate_invoke_compiler options = true ->
  exists d,
    try_translate_discover compressed_enabled W options exec_data
      start_address arena base endbasepc = Some (Some d)
    /\ found_icounter d = instructions_in (found_blocks d)
    /\ (found_blocks d <> [] -> found_icounter d < translate_instr_max options)
    /\ Z.of_nat (List.length (found_blocks d))
       <= Z.max 1 (translate_blocks_max options).
Proof.
  intros Hbase Hend HW Hinvoke.
  destruct (discover_blocks compressed_enabled W options exec_data start_address arena
              base endbasepc Hbase Hend Hinvoke) as (d & Hrun & _).
  exists d. split; [done|].
  unfold try_translate_discover in Hrun. rewrite Hinvoke in Hrun. cbn [negb] in Hrun.
  destruct (scan_for_gp _ _ _ _ _ _) as [gp|]; [|done].
  destruct (scan_blocks _ _ _ _ _ _ _ _ _ _ _ _ _) as [[[blocks gl'] ic']|] eqn:Hscan; [|done].
  injection Hrun as <-. cbn [found_icounter found_blocks].
  destruct (scan_blocks_budget _ _ _ _ _ _ _ _ _ _ _ _ _ _ _ _
              ltac:(split; [exact Hbase|reflexivity]) Hend HW ltac:(reflexivity)
              ltac:(rewrite Z.sub_diag; reflexivity) Hscan)
    as (new & Heq & Hsum & Hmax & Hlen).
  cbn [app] in Heq. subst new. cbn [List.length] in Hlen.
  split; [lia|]. split; [done|lia].
Qed.

Lemma block_scanner_budgets_witness :
  exists d,
    try_translate_discover false 4 (translating_options 16 1252) two_functions_memory
      0x1000 0 0x1000 (0x1000 + 4 * 2501) = Some (Some d)
    /\ found_icounter d = 1251
    /\ map (fun b => List.length (ti_instr b)) (found_blocks d) = [1250%nat; 1%nat].
Proof.
  destruct (block_scanner_budgets false 4 (translating_options 16 1252)
              two_functions_memory 0x1000 0 0x1000 (0x1000 + 4 * 2501)
              ltac:(lia) ltac:(lia) ltac:(lia) eq_refl) as (d & Hrun & _).
  exists d. split; [exact Hrun|].
  vm_compute in Hrun. injection Hrun as <-. vm_compute. split; reflexivity.
Defined.

(** ** Page geometry of an execute segment *)

Lemma land_page_mask (n k x : Z) :
  0 <= k <= n -> 0 <= x ->
  Z.land x (wrap n (Z.lnot (2 ^ k - 1))) = 2 ^ k * ((x mod 2 ^ n) / 2 ^ k).
Proof.
  intros Hk Hx. apply Z.bits_inj'. intros i Hi.
  rewrite Z.land_spec. unfold wrap.
  rewrite (Z.mul_comm (2 ^ k)).
  destruct (Z.lt_ge_cases i k) as [Hlow | Hhigh].
  - rewrite Z.mul_pow2_bits_low by lia.
    rewrite Z.mod_pow2_bits_low by lia.
    rewrite Z.lnot_spec by lia.
    replace (2 ^ k - 1) with (Z.ones k) by (rewrite Z.ones_equiv; lia).
    rewrite Z.ones_spec_low by lia. apply andb_false_r.
  - rewrite Z.mul_pow2_bits by lia.
    rewrite Z.div_pow2_bits by lia.
    replace (i - k + k) with i by lia.
    destruct (Z.lt_ge_cases i n) as [Hin | Hout].
    + rewrite !Z.mod_pow2_bits_low by lia.
      rewrite Z.lnot_spec by lia.
      replace (2 ^ k - 1) with (Z.ones k) by (rewrite Z.ones_equiv; lia).
      rewrite Z.ones_spec_high by lia. apply andb_true_r.
    + rewrite !Z.mod_pow2_bits_high by lia. apply andb_false_r.
Qed.

(** The page geometry in closed form. *)
Lemma create_execute_segment_layout_spec (W page_bits vaddr exlen : Z) :
  W = 4 \/ W = 8 -> 0 <= page_bits < 8 * W ->
  0 <= vaddr < 2 ^ (8 * W) -> 0 <= exlen -> exlen + 2 ^ page_bits <= 2 ^ 64 ->
  let P := 2 ^ page_bits in
  let pbase := P * (vaddr / P) in
  let prelen := vaddr mod P in
  let plen := P * ((prelen + exlen + P - 1) / P) in
  let postlen := plen - (prelen + exlen) in
  (pbase <= vaddr /\ vaddr + exlen <= pbase + plen /\ 0 <= postlen < P
   /\ prelen + exlen + postlen = plen)
  /\ create_execute_segment_layout W page_bits vaddr exlen
     = if (plen <? 2 ^ (8 * W)) && (pbase + plen <? 2 ^ 64)
       then inr (pbase, prelen, plen, postlen)
       else inl (mkMachineException INVALID_PROGRAM "Segment virtual base was bogus" 0).
Proof.
  intros HW Hk Hv Hex Hfit P pbase prelen plen postlen.
  assert (EP : P = 2 ^ page_bits) by done.
  assert (Epbase : pbase = P * (vaddr / P)) by done.
  assert (Eprelen : prelen = vaddr mod P) by done.
  assert (Eplen : plen = P * ((prelen + exlen + P - 1) / P)) by done.
  assert (Epostlen : postlen = plen - (prelen + exlen)) by done.
  clearbody postlen plen prelen pbase P.
  assert (HP : 0 < P) by (subst P; apply Z.pow_pos_nonneg; lia).
  assert (HQ : 0 < 2 ^ (8 * W - page_bits)) by (apply Z.pow_pos_nonneg; lia).
  assert (Hn : 2 ^ (8 * W) = 2 ^ (8 * W - page_bits) * P).
  { subst P. rewrite <- Z.pow_add_r by lia. f_equal. lia. }
  set (Q := 2 ^ (8 * W - page_bits)) in *.
  assert (HR : 0 < 2 ^ (64 - 8 * W)) by (apply Z.pow_pos_nonneg; lia).
  assert (H64 : 2 ^ 64 = 2 ^ (64 - 8 * W) * 2 ^ (8 * W)).
  { rewrite <- Z.pow_add_r by lia. f_equal. lia. }
  set (R := 2 ^ (64 - 8 * W)) in *.
  assert (Hpre : 0 <= prelen < P) by (subst prelen; apply Z.mod_pos_bound; lia).
  assert (Hvaddr : vaddr = pbase + prelen).
  { subst pbase prelen. apply Z.div_mod. lia. }
  assert (Hplen : prelen + exlen <= plen < prelen + exlen + P).
  { subst plen. Z.div_mod_to_equations. lia. }
  assert (HPn : P <= 2 ^ (8 * W)) by nia.
  assert (Hn64 : 2 ^ (8 * W) <= 2 ^ 64) by nia.
  split.
  { subst postlen. lia. }
  unfold create_execute_segment_layout.
  rewrite (wrap_small (8 * W) (2 ^ page_bits - 1)) by lia.
  rewrite (land_page_mask (8 * W) page_bits vaddr) by lia.
  rewrite (land_page_mask (8 * W) page_bits (wrap 64 _));
    [|lia|apply wrap_range; lia].
  rewrite <- !EP.
  rewrite (Z.mod_small vaddr) by lia. rewrite <- Epbase.
  replace (vaddr - pbase) with prelen by lia.
  rewrite (wrap_small (8 * W) prelen) by lia.
  rewrite (wrap_small 64 prelen) by lia.
  rewrite (wrap_small 64 (exlen + prelen)) by lia.
  rewrite (wrap_small 64 (prelen + exlen)) by lia.
  assert (Hmod : wrap 64 (exlen + prelen + (P - 1)) mod 2 ^ (8 * W)
                 = (prelen + exlen + P - 1) mod 2 ^ (8 * W)).
  { change (wrap (8 * W) (wrap 64 (exlen + prelen + (P - 1)))
            = wrap (8 * W) (prelen + exlen + P - 1)).
    rewrite wrap_wrap_le by lia. f_equal. lia. }
  rewrite Hmod.
  set (x := prelen + exlen + P - 1) in *.
  set (plen' := P * (x mod 2 ^ (8 * W) / P)).
  destruct (Z.ltb_spec plen (2 ^ (8 * W))) as [Hsmall | Hbig]; cbn [andb].
  - (* the rounded length fits the address width *)
    assert (Hx : x < 2 ^ (8 * W)).
    { assert (x / P < Q) by nia.
      assert (x / P <= Q - 1) by lia. Z.div_mod_to_equations. nia. }
    assert (Hplen' : plen' = plen).
    { subst plen' plen. rewrite Z.mod_small by (subst x; lia). done. }
    rewrite Hplen'.
    rewrite (proj2 (Z.ltb_ge plen prelen)) by lia.
    rewrite (proj2 (Z.ltb_ge plen (prelen + exlen))) by lia. cbn [orb].
    destruct (Z.ltb_spec (pbase + plen) (2 ^ 64)) as [Hend | Hend].
    + rewrite (wrap_small 64 (pbase + plen)) by (subst pbase; Z.div_mod_to_equations; nia).
      rewrite (proj2 (Z.ltb_ge _ _)) by lia.
      subst postlen. rewrite wrap_small by lia. do 2 f_equal. lia.
    + assert (Hwrap : wrap 64 (pbase + plen) = pbase + plen - 2 ^ 64).
      { unfold wrap. symmetry. apply Z.mod_unique with 1; lia. }
      rewrite Hwrap. by rewrite (proj2 (Z.ltb_lt _ _)) by lia.
  - (* it does not: the masked length is shorter than the segment *)
    assert (Hx : 2 ^ (8 * W) <= x).
    { subst plen. fold x in Hbig. Z.div_mod_to_equations. nia. }
    assert (Hplen' : plen' <= 2 ^ (8 * W) - P).
    { subst plen'.
      assert (Hr : 0 <= x mod 2 ^ (8 * W) < 2 ^ (8 * W)) by (apply Z.mod_pos_bound; lia).
      assert (x mod 2 ^ (8 * W) / P < Q) by (apply Z.div_lt_upper_bound; nia).
      nia. }
    rewrite (proj2 (Z.ltb_lt plen' (prelen + exlen))) by (subst x; lia).
    by rewrite orb_true_r.
Qed.

(** X10. [create_execute_segment] accepts a segment exactly when its
    page-rounded length fits the address width and the end of its last
    page fits 64 bits. It then places the segment in whole pages: [pbase]
    is [vaddr] rounded down to a page, [plen] is the length from [pbase] to
    the end of the segment rounded up to a page, and [prelen] and
    [postlen], both shorter than a page, are the padding before and after.
    Otherwise it throws [INVALID_PROGRAM]. *)
Theorem create_execute_segment_geometry (W page_bits vaddr exlen : Z) :
  W = 4 \/ W = 8 -> 0 <= page_bits < 8 * W ->
  0 <= vaddr < 2 ^ (8 * W) -> 0 <= exlen -> exlen + 2 ^ page_bits <= 2 ^ 64 ->
  let P := 2 ^ page_bits in
  let pbase := P * (vaddr / P) in
  let prelen := vaddr mod P in
  let plen := P * ((prelen + exlen + P - 1) / P) in
  let postlen := plen - (prelen + exlen) in
  (pbase <= vaddr /\ vaddr + exlen <= pbase + plen /\ 0 <= postlen < P
   /\ prelen + exlen + postlen = plen)
  /\ create_execute_segment_layout W page_bits vaddr exlen
     = if (plen <? 2 ^ (8 * W)) && (pbase + plen <? 2 ^ 64)
       then inr (pbase, prelen, plen, postlen)
       else inl (mkMachineException INVALID_PROGRAM "Segment virtual base was bogus" 0).
Proof.
  apply create_execute_segment_layout_spec.
Qed.

Lemma create_execute_segment_geometry_witness :
  create_execute_segment_layout 4 12 0x10074 0x1F00
  = inr (0x10000, 0x74, 0x2000, 0x8C)
  /\ create_execute_segment_layout 4 12 0xFFFFF000 0x2000
     = inr (0xFFFFF000, 0, 0x2000, 0)
  /\ create_execute_segment_layout 8 12 0xFFFFFFFFFFFFF000 0x800
     = inl (mkMachineException INVALID_PROGRAM "Segment virtual base was bogus" 0).
Proof.
  destruct (create_execute_segment_geometry 4 12 0x10074 0x1F00
              ltac:(by left) ltac:(lia) ltac:(lia) ltac:(lia) ltac:(lia)) as [_ H1].
  destruct (create_execute_segment_geometry 4 12 0xFFFFF000 0x2000
              ltac:(by left) ltac:(lia) ltac:(lia) ltac:(lia) ltac:(lia)) as [_ H2].
  destruct (create_execute_segment_geometry 8 12 0xFFFFFFFFFFFFF000 0x800
              ltac:(by right) ltac:(lia) ltac:(lia) ltac:(lia) ltac:(lia)) as [_ H3].
  split; [exact H1|]. split; [exact H2|exact H3].
Defined.

(** X11. The bytes of a new execute segment: when the geometry is
    accepted, [exec_data] holds [plen] bytes from [pbase] on, which are the
    bytes of [vdata] at the addresses from [vaddr] to [vaddr + exlen] and
    zero on the rest of the first and the last page. *)
Theorem create_execute_segment_contents (W page_bits vaddr exlen : Z)
    (vdata : list Z) (pbase prelen plen postlen : Z) :
  W = 4 \/ W = 8 -> 0 <= page_bits < 8 * W ->
  0 <= vaddr < 2 ^ (8 * W) -> exlen + 2 ^ page_bits <= 2 ^ 64 ->
  Z.of_nat (List.length vdata) = exlen ->
  create_execute_segment_layout W page_bits vaddr exlen
  = inr (pbase, prelen, plen, postlen) ->
  let exec_data := mem_of_bytes pbase (create_execute_segment_bytes prelen postlen vdata) in
  Z.of_nat (List.length (create_execute_segment_bytes prelen postlen vdata)) = plen
  /\ plen mod 2 ^ page_bits = 0 /\ pbase mod 2 ^ page_bits = 0
  /\ pbase <= vaddr /\ vaddr + exlen <= pbase + plen
  /\ forall a, pbase <= a < pbase + plen ->
       exec_data a = if (vaddr <=? a) && (a <? vaddr + exlen)
                     then vdata !!! Z.to_nat (a - vaddr) else 0.
Proof.
  intros HW Hbits Hvaddr Hfit Hlen Hlayout.
  assert (Hex : 0 <= exlen) by lia.
  destruct (create_execute_segment_layout_spec W page_bits vaddr exlen HW Hbits Hvaddr
              Hex Hfit) as ((Hbase & Hcover & Hpost & Hsum) & Heq).
  cbn zeta in *. rewrite Hlayout in Heq.
  assert (HP : 0 < 2 ^ page_bits) by (apply Z.pow_pos_nonneg; lia).
  destruct ((_ <? _) && (_ <? _)); [|done].
  injection Heq as -> -> -> ->.
  set (P := 2 ^ page_bits) in *.
  assert (Hpre : 0 <= vaddr mod P < P) by (apply Z.mod_pos_bound; lia).
  assert (Hva : vaddr = P * (vaddr / P) + vaddr mod P) by (apply Z.div_mod; lia).
  set (prelen := vaddr mod P) in *.
  set (plen := P * ((prelen + exlen + P - 1) / P)) in *.
  set (postlen := plen - (prelen + exlen)) in *.
  split.
  { unfold create_execute_segment_bytes. rewrite !length_app, !length_replicate. lia. }
  split; [subst plen; rewrite Z.mul_comm; apply Z.mod_mul; lia|].
  split; [rewrite Z.mul_comm; apply Z.mod_mul; lia|].
  split; [done|]. split; [done|].
  intros a Ha. unfold mem_of_bytes, create_execute_segment_bytes.
  rewrite (proj2 (Z.ltb_ge _ _)) by lia.
  destruct (Z.leb_spec vaddr a) as [Hle | Hlt]; cbn [andb].
  - destruct (Z.ltb_spec a (vaddr + exlen)) as [Hin | Hout].
    + rewrite lookup_total_app_r by (rewrite length_replicate; lia).
      rewrite length_replicate.
      rewrite lookup_total_app_l by lia.
      f_equal. lia.
    + rewrite lookup_total_app_r by (rewrite length_replicate; lia).
      rewrite length_replicate.
      rewrite lookup_total_app_r by lia.
      apply lookup_total_replicate_2. lia.
  - rewrite lookup_total_app_l by (rewrite length_replicate; lia).
    apply lookup_total_replicate_2. lia.
Qed.

Lemma create_execute_segment_contents_witness :
  create_execute_segment_layout 4 12 0x10FFC 8 = inr (0x10000, 0xFFC, 0x2000, 0xFFC)
  /\ map (mem_of_bytes 0x10000
            (create_execute_segment_bytes 0xFFC 0xFFC [0x13; 0; 0; 0; 0x67; 0x80; 0; 0]))
         [0x10FFB; 0x10FFC; 0x11000; 0x11001; 0x11004]
     = [0; 0x13; 0x67; 0x80; 0].
Proof.
  assert (Hlayout : create_execute_segment_layout 4 12 0x10FFC 8
                    = inr (0x10000, 0xFFC, 0x2000, 0xFFC)) by reflexivity.
  destruct (create_execute_segment_contents 4 12 0x10FFC 8
              [0x13; 0; 0; 0; 0x67; 0x80; 0; 0] 0x10000 0xFFC 0x2000 0xFFC
              ltac:(by left) ltac:(lia) ltac:(lia) ltac:(lia) eq_refl Hlayout)
    as (_ & _ & _ & _ & _ & Hbytes).
  split; [exact Hlayout|]. cbn [map].
  rewrite (Hbytes 0x10FFB), (Hbytes 0x10FFC), (Hbytes 0x11000), (Hbytes 0x11001),
    (Hbytes 0x11004) by lia.
  reflexivity.
Defined.

(** ** Instruction reader on an execute segment *)

(** The last page of a segment that [create_execute_segment] accepts ends
    at least a page below [2^64]. *)
Lemma execute_segment_end_bound (W page_bits vaddr exlen pbase prelen plen postlen : Z) :
  W = 4 \/ W = 8 -> 0 <= page_bits < 8 * W ->
  0 <= vaddr < 2 ^ (8 * W) -> 0 <= exlen -> exlen + 2 ^ page_bits <= 2 ^ 64 ->
  create_execute_segment_layout W page_bits vaddr exlen
  = inr (pbase, prelen, plen, postlen) ->
  0 <= pbase /\ pbase + plen <= 2 ^ 64 - 2 ^ page_bits.
Proof.
  intros HW Hbits Hvaddr Hex Hfit Hlayout.
  destruct (create_execute_segment_layout_spec W page_bits vaddr exlen HW Hbits Hvaddr
              Hex Hfit) as (_ & Heq).
  cbn zeta in Heq. rewrite Hlayout in Heq.
  assert (HP : 0 < 2 ^ page_bits) by (apply Z.pow_pos_nonneg; lia).
  destruct (_ <? 2 ^ (8 * W)); [|done]. cbn [andb] in Heq.
  destruct (Z.ltb_spec (2 ^ page_bits * (vaddr / 2 ^ page_bits)
                        + 2 ^ page_bits
                          * ((vaddr mod 2 ^ page_bits + exlen + 2 ^ page_bits - 1)
                             / 2 ^ page_bits)) (2 ^ 64)) as [Hlt | Hge]; [|done].
  injection Heq as -> _ -> _.
  assert (H64 : 2 ^ 64 = 2 ^ page_bits * 2 ^ (64 - page_bits)).
  { rewrite <- Z.pow_add_r by lia. f_equal. lia. }
  assert (Hdiv : 0 <= vaddr / 2 ^ page_bits) by (apply Z.div_pos; lia).
  split; [lia|].
  set (P := 2 ^ page_bits) in *. set (a := vaddr / P) in *.
  set (b := (vaddr mod P + exlen + P - 1) / P) in *.
  set (T := 2 ^ (64 - page_bits)) in *.
  rewrite H64 in Hlt |- *.
  assert (Hab : a + b < T).
  { apply (Z.mul_lt_mono_pos_l P); [lia|]. rewrite Z.mul_add_distr_l. lia. }
  assert (Hle : P * (a + b) <= P * (T - 1)) by (apply Z.mul_le_mono_nonneg_l; lia).
  rewrite Z.mul_add_distr_l, Z.mul_sub_distr_l in Hle. lia.
Qed.

(** C5. For every byte buffer [buf], every end [end_pc] of a segment and
    every program counter [pc < end_pc], [read_instruction] returns the
    unaligned 32-bit little-endian word at [buf[pc]] when
    [pc + 4 <= end_pc], and otherwise the 16-bit little-endian half-word
    at [buf[pc]], zero-extended. A segment is one that
    [create_execute_segment] accepts (for [W = 4] or [W = 8] and pages of
    at least 4 bytes), and an end is an address up to the end of its last
    page: for these the sum [pc + 4] of the reader's test is a 64-bit
    value. *)
Theorem read_instruction_spec (buf : memory)
    (W page_bits vaddr exlen pbase prelen plen postlen pc end_pc : Z) :
  W = 4 \/ W = 8 -> 2 <= page_bits < 8 * W ->
  0 <= vaddr < 2 ^ (8 * W) -> 0 <= exlen -> exlen + 2 ^ page_bits <= 2 ^ 64 ->
  create_execute_segment_layout W page_bits vaddr exlen
  = inr (pbase, prelen, plen, postlen) ->
  0 <= pc < end_pc -> end_pc <= pbase + plen ->
  read_instruction buf pc end_pc
  = (if pc + 4 <=? end_pc then le32 buf pc else le16 buf pc)
  /\ 0 <= read_instruction buf pc end_pc < 2 ^ 32.
Proof.
  intros HW Hbits Hvaddr Hex Hfit Hlayout Hpc Hend.
  destruct (execute_segment_end_bound W page_bits vaddr exlen pbase prelen plen postlen
              HW ltac:(lia) Hvaddr Hex Hfit Hlayout) as [_ Hbound].
  assert (HP : 2 ^ 2 <= 2 ^ page_bits) by (apply Z.pow_le_mono_r; lia).
  apply read_instruction_no_wrap; [done|]. change (2 ^ 2) with 4 in HP. lia.
Qed.

(** A segment of one instruction and a half at the end of the 32-bit
    address space: the word at its start, and the half-word where fewer
    than four bytes are left. *)
Lemma read_instruction_spec_witness :
  create_execute_segment_layout 4 12 0xFFFFF000 6 = inr (0xFFFFF000, 0, 0x1000, 0xFFA)
  /\ read_instruction (mem_of_bytes 0xFFFFF000 [0x93; 0x81; 0x81; 0x00; 0x82; 0x80])
       0xFFFFF000 0xFFFFF006 = 0x00818193
  /\ read_instruction (mem_of_bytes 0xFFFFF000 [0x93; 0x81; 0x81; 0x00; 0x82; 0x80])
       0xFFFFF004 0xFFFFF006 = 0x8082.
Proof.
  assert (Hlayout : create_execute_segment_layout 4 12 0xFFFFF000 6
                    = inr (0xFFFFF000, 0, 0x1000, 0xFFA)) by reflexivity.
  split; [exact Hlayout|]. split.
  - rewrite (proj1 (read_instruction_spec _ 4 12 0xFFFFF000 6 0xFFFFF000 0 0x1000 0xFFA
                      0xFFFFF000 0xFFFFF006 ltac:(by left) ltac:(lia) ltac:(lia)
                      ltac:(lia) ltac:(lia) Hlayout ltac:(lia) ltac:(lia))).
    reflexivity.
  - rewrite (proj1 (read_instruction_spec _ 4 12 0xFFFFF000 6 0xFFFFF000 0 0x1000 0xFFA
                      0xFFFFF004 0xFFFFF006 ltac:(by left) ltac:(lia) ltac:(lia)
                      ltac:(lia) ltac:(lia) Hlayout ltac:(lia) ltac:(lia))).
    reflexivity.
Defined.

(** ** The second pass keeps what the first pass has decoded *)

Lemma same_decoded_refl e : same_decoded e e.
Proof. by unfold same_decoded. Qed.

Lemma same_decoded_trans e1 e2 e3 :
  same_decoded e1 e2 -> same_decoded e2 e3 -> same_decoded e1 e3.
Proof. unfold same_decoded. intros (? & ? & ? & ?) (? & ? & ? & ?). repeat split; congruence. Qed.

Lemma fastsim_backward_frame W base_pc last_pc seg (fuel : nat) :
  forall acc pc d d',
    fastsim_backward fuel W base_pc last_pc seg acc pc d = Some d' ->
    forall i, same_decoded (entry_at d i) (entry_at d' i).
Proof.
  induction fuel as [|fuel IH]; intros acc pc d d'; cbn [fastsim_backward].
  - destruct (pc <? base_pc); [|done]. intros [= <-] i. apply same_decoded_refl.
  - destruct (pc <? base_pc); [intros [= <-] i; apply same_decoded_refl|].
    intros Hrun i. eapply same_decoded_trans; [|by eapply IH].
    rewrite entry_at_insert. destruct (decide _) as [<- |]; [|apply same_decoded_refl].
    by unfold same_decoded.
Qed.

Lemma fastsim_fill_frame W last_pc seg :
  forall data size i pc dl d j,
    same_decoded (entry_at d j)
      (entry_at (fastsim_fill W last_pc seg data size i pc dl d) j).
Proof.
  induction data as [|idx data IH]; intros size i pc dl d j; cbn [fastsim_fill].
  - apply same_decoded_refl.
  - eapply same_decoded_trans; [|apply IH].
    rewrite entry_at_insert. destruct (decide _) as [<- |]; [|apply same_decoded_refl].
    by unfold same_decoded.
Qed.

Lemma fastsim_forward_frame W last_pc seg (fuel : nat) :
  forall pc d d',
    fastsim_forward fuel W last_pc seg pc d = Some d' ->
    forall i, same_decoded (entry_at d i) (entry_at d' i).
Proof.
  induction fuel as [|fuel IH]; intros pc d d'; cbn [fastsim_forward].
  - destruct (pc <? last_pc); [done|]. intros [= <-] i. apply same_decoded_refl.
  - destruct (pc <? last_pc); [|intros [= <-] i; apply same_decoded_refl].
    destruct (fastsim_measure _ _ _ _ _ _ _ _) as [[[data pc1] dl]|]; [|done].
    intros Hrun i. eapply same_decoded_trans; [|by eapply IH].
    apply fastsim_fill_frame.
Qed.

(** The second pass comes to an end and keeps handlers, bytecodes and
    instruction bits. *)
Lemma realize_fastsim_frame c W base_pc last_pc seg d :
  8 * W <= 64 -> 4 <= base_pc <= last_pc -> last_pc + 4 <= 2 ^ (8 * W) ->
  exists d',
    realize_fastsim c W base_pc last_pc seg d = Some d'
    /\ forall i, same_decoded (entry_at d i) (entry_at d' i).
Proof.
  intros HW Hbase Hlast. destruct c.
  - destruct (fastsim_forward_spec W last_pc seg d (Z.to_nat (last_pc - base_pc)) base_pc d
                ltac:(done) ltac:(lia) Hlast HW ltac:(lia)) as (d' & Hrun & _).
    exists d'. split; [done|]. unfold realize_fastsim in Hrun.
    by eapply fastsim_forward_frame.
  - destruct (realize_fastsim_backward_spec W base_pc last_pc seg d Hbase ltac:(lia))
      as (d' & Hrun & _).
    exists d'. split; [done|]. unfold realize_fastsim in Hrun.
    by eapply fastsim_backward_frame.
Qed.

(** ** The first pass *)

Lemma DIVISOR_cases c : DIVISOR c = 2 \/ DIVISOR c = 4.
Proof. destruct c; auto. Qed.

Lemma handler_space_exn_length (t t' : list Z) :
  List.length t' = List.length t -> handler_space_exn t' = handler_space_exn t.
Proof. unfold handler_space_exn. by intros ->. Qed.

Lemma handler_index_for_length (t t' : list Z) (h : Z) (i : nat) :
  handler_index_for t h = inr (i, t') ->
  List.length t' = List.length t /\ (1 <= i < List.length t)%nat.
Proof.
  intros Hcall. pose proof (handler_index_for_spec t h) as Hs. rewrite Hcall in Hs.
  destruct Hs as (Hi & _ & [[_ ->] | (_ & _ & ->)]); [done|].
  by rewrite length_insert.
Qed.

Lemma decode_segment_spec c W translated rewriter decode decode_rewrite seg addr len
    (fuel : nat) :
  0 <= addr -> 0 <= len -> addr + len + 4 <= 2 ^ (8 * W) ->
  (forall p, (decoded_at rewriter decode decode_rewrite seg (addr + len) p).1 <> nullptr) ->
  forall dst wf (t : list Z) (d : decoder),
    0 <= dst ->
    addr + len - dst <= Z.of_nat fuel ->
    (List.length t <= 256)%nat ->
    (translated = true ->
     forall j, dst / DIVISOR c <= j -> m_handler (entry_at d j) = 0) ->
    match decode_segment fuel c W translated rewriter decode decode_rewrite
            seg addr len dst wf t d with
    | None => False
    | Some (inl e) => e = Terminate (handler_space_exn t)
    | Some (inr (dst', t', d')) =>
      dst <= dst' /\ addr + len <= dst'
      /\ (dst < addr + len -> dst' < addr + len + DIVISOR c)
      /\ (addr + len <= dst -> dst' = dst)
      /\ (dst' - dst) mod DIVISOR c = 0
      /\ List.length t' = List.length t
      /\ (forall h i, h <> nullptr -> interned t h i -> interned t' h i)
      /\ (forall j, j < dst / DIVISOR c \/ dst / DIVISOR c + (dst' - dst) / DIVISOR c <= j ->
          d' !! j = d !! j)
      /\ (forall p, dst <= p < addr + len -> (p - dst) mod DIVISOR c = 0 ->
          let e := entry_at d' (p / DIVISOR c) in
          let hw := decoded_at rewriter decode decode_rewrite seg (addr + len) p in
          instr e = hw.2 /\ idxend e = 0
          /\ interned t' hw.1 (Z.to_nat (m_handler e))
          /\ m_bytecode e = m_bytecode (entry_at d (p / DIVISOR c)))
    end.
Proof.
  intros Haddr Hlen Hend Hnn.
  assert (Hendw : wrap (8 * W) (addr + len) = addr + len) by (apply wrap_small; lia).
  pose proof (DIVISOR_cases c) as HD.
  induction fuel as [|fuel IH]; intros dst wf t d Hdst Hfuel Ht Htr;
    cbn [decode_segment]; rewrite Hendw.
  - rewrite (proj2 (Z.ltb_ge _ _)) by lia.
    split; [lia|]. split; [lia|]. split; [lia|]. split; [done|].
    rewrite Z.sub_diag. split; [by destruct HD as [-> | ->]|].
    split; [done|]. split; [done|]. split; [done|]. intros p Hp. lia.
  - destruct (Z.ltb_spec dst (addr + len)) as [Hlt | Hge].
    2:{ split; [lia|]. split; [lia|]. split; [lia|]. split; [done|].
        rewrite Z.sub_diag. split; [by destruct HD as [-> | ->]|].
        split; [done|]. split; [done|]. split; [done|]. intros p Hp. lia. }
    set (idx := dst / DIVISOR c).
    set (entry0 := set_idxend c 0 (set_instr 0 (entry_at d idx))).
    assert (Hisset : translated && isset entry0 = false).
    { destruct translated; [|done]. cbn [andb]. unfold isset, entry0. cbn.
      rewrite (Htr eq_refl idx) by (subst idx; lia). done. }
    rewrite Hisset.
    pose proof (Hnn dst) as Hh.
    destruct (decoded_at rewriter decode decode_rewrite seg (addr + len) dst)
      as [h w] eqn:Hdec. cbn [fst] in Hh.
    unfold set_insn_handler.
    pose proof (handler_index_for_spec t h) as Hspec.
    destruct (handler_index_for t h) as [e | [i t1]] eqn:Hcall.
    { by destruct Hspec as [-> _]. }
    destruct (handler_index_for_length _ _ _ _ Hcall) as [Hlen1 Hi].
    pose proof (handler_index_for_interned _ _ _ _ Hh Hcall) as Hint1.
    set (entry1 := set_instr w (set_m_handler (Z.of_nat i) entry0)).
    set (d1 := <[idx := entry1]> d).
    assert (Hstep : wrap (8 * W) (dst + DIVISOR c) = dst + DIVISOR c)
      by (apply wrap_small; lia).
    assert (Hidx1 : (dst + DIVISOR c) / DIVISOR c = idx + 1).
    { subst idx. destruct HD as [-> | ->]; Z.div_mod_to_equations; lia. }
    assert (Htr1 : translated = true ->
              forall j, (dst + DIVISOR c) / DIVISOR c <= j -> m_handler (entry_at d1 j) = 0).
    { intros Htrue j Hj. rewrite Hidx1 in Hj. unfold d1.
      rewrite entry_at_insert, decide_False by lia. apply (Htr Htrue). subst idx. lia. }
    assert (Hdst1 : 0 <= dst + DIVISOR c) by lia.
    assert (Hfuel1 : addr + len - (dst + DIVISOR c) <= Z.of_nat fuel) by lia.
    assert (Ht1 : (List.length t1 <= 256)%nat) by lia.
    pose proof (IH (dst + DIVISOR c)
                  (if c then (if wf then length (read_instruction seg dst (addr + len)) =? 2
                              else true) else wf) t1 d1 Hdst1 Hfuel1 Ht1 Htr1) as Hrec.
    assert (Hsame : (if c
              then decode_segment fuel c W translated rewriter decode decode_rewrite
                     seg addr len (wrap (8 * W) (dst + 2))
                     (if wf then length (read_instruction seg dst (addr + len)) =? 2 else true)
                     t1 d1
              else decode_segment fuel c W translated rewriter decode decode_rewrite
                     seg addr len (wrap (8 * W) (dst + 4)) wf t1 d1)
            = decode_segment fuel c W translated rewriter decode decode_rewrite
                seg addr len (dst + DIVISOR c)
                (if c then (if wf then length (read_instruction seg dst (addr + len)) =? 2
                            else true) else wf) t1 d1).
    { destruct c; cbn [DIVISOR] in *; by rewrite Hstep. }
    fold entry1. fold d1. rewrite Hsame.
    destruct (decode_segment fuel c W translated rewriter decode decode_rewrite
                seg addr len (dst + DIVISOR c) _ t1 d1) as [[e | [[dst' t'] d']]|];
      [|  |done].
    { rewrite Hrec. f_equal. by apply handler_space_exn_length. }
    destruct Hrec as (Hle & Hge' & Hlt' & Hstay & Hmod & Hlen' & Hmono & Hframe & Hentries).
    assert (Hdiv : (dst' - dst) / DIVISOR c = 1 + (dst' - (dst + DIVISOR c)) / DIVISOR c).
    { destruct HD as [HD | HD]; rewrite HD in *; Z.div_mod_to_equations; lia. }
    assert (Hq : 0 <= (dst' - (dst + DIVISOR c)) / DIVISOR c) by (apply Z.div_pos; lia).
    split; [lia|]. split; [lia|]. split.
    { intros _. destruct (Z.lt_ge_cases (dst + DIVISOR c) (addr + len)) as [H1 | H1].
      - by apply Hlt'.
      - rewrite (Hstay H1). lia. }
    split; [lia|]. split.
    { replace (dst' - dst) with (dst' - (dst + DIVISOR c) + 1 * DIVISOR c) by lia.
      rewrite Z.mod_add by lia. done. }
    split; [lia|]. split.
    { intros h' i' Hh' Hint. apply Hmono; [done|].
      by eapply interned_preserved. }
    split.
    { intros j Hj. rewrite Hframe.
      - unfold d1. rewrite lookup_insert_ne; [done|]. subst idx. lia.
      - rewrite Hidx1. subst idx. lia. }
    intros p Hp Hpmod.
    destruct (Z.eq_dec p dst) as [-> | Hne].
    + fold idx. cbn zeta. rewrite Hdec. cbn [fst snd].
      assert (Hentry : entry_at d' idx = entry1).
      { unfold entry_at. rewrite Hframe by (rewrite Hidx1; lia).
        unfold d1. by rewrite lookup_insert_eq. }
      rewrite Hentry. split; [done|]. split.
      { unfold entry1, entry0. cbn. unfold wrap. by rewrite Z.mod_0_l by (destruct c; done). }
      split; [|done].
      assert (Hm : m_handler entry1 = Z.of_nat i).
      { unfold entry1. cbn. apply wrap_small. lia. }
      rewrite Hm, Nat2Z.id. by apply Hmono.
    + assert (Hp1 : dst + DIVISOR c <= p).
      { destruct HD as [HD | HD]; rewrite HD in *; Z.div_mod_to_equations; lia. }
      assert (Hpmod1 : (p - (dst + DIVISOR c)) mod DIVISOR c = 0).
      { replace (p - (dst + DIVISOR c)) with (p - dst + (-1) * DIVISOR c) by lia.
        by rewrite Z.mod_add by lia. }
      destruct (Hentries p ltac:(lia) Hpmod1) as (H1 & H2 & H3 & H4).
      split; [done|]. split; [done|]. split; [done|].
      rewrite H4. unfold d1. rewrite entry_at_insert, decide_False; [done|].
      subst idx. destruct HD as [HD | HD]; rewrite HD in *; Z.div_mod_to_equations; lia.
Qed.

(** X12. What [generate_decoder_cache] leaves in the decoder cache, for a
    segment that starts at address 4 or above and ends at least 8 bytes
    below the top of the address space, a cache of at least one page, a
    handler table of at most 256 slots and a decoder that never returns a
    null handler. Either [set_handler] runs out of slots: the exception
    [MAX_INSTRUCTIONS_REACHED] of [handler_index_for] then leaves the
    [noexcept] function [set_insn_handler], so that the program ends in
    [std::terminate] and no exception reaches the caller. Or the call
    returns, and every entry of the segment (one per [DIVISOR] bytes) is
    set, holds the instruction bits that were decoded at its address, and
    [get_handler()] returns for it the handler that the decoder gave for
    these bits. This is so whether the machine counts as binary translated
    or not, as long as no entry of the new cache has a handler yet. (A
    segment that starts below address 4 is left out: without the C
    extension the backward walk of the second pass can step below
    address 0 there and wrap around.) *)
Theorem generate_decoder_cache_entries (compressed_enabled : bool) (W page_bits : Z)
    (translated rewriter : bool) (decode : Z -> Z) (decode_rewrite : Z -> Z -> Z * Z)
    (exec_segment : memory) (pbase addr len : Z)
    (instr_handlers : list Z) (exec_decoder : decoder) :
  8 * W <= 64 -> 4 <= addr -> 0 <= len -> addr + len + 8 <= 2 ^ (8 * W) ->
  decoder_cache_pages W page_bits pbase addr len <> 0 ->
  (forall p, (decoded_at rewriter decode decode_rewrite exec_segment (addr + len) p).1
             <> nullptr) ->
  (List.length instr_handlers <= 256)%nat ->
  (translated = true -> forall j, m_handler (entry_at exec_decoder j) = 0) ->
  match generate_decoder_cache compressed_enabled W page_bits translated rewriter
          decode decode_rewrite exec_segment pbase addr len instr_handlers
          exec_decoder with
  | None => False
  | Some (inl abort) =>
    abort = Terminate (mkMachineException MAX_INSTRUCTIONS_REACHED
                         "Not enough instruction handler space"
                         (Z.of_nat (List.length instr_handlers)))
  | Some (inr (instr_handlers', exec_decoder')) =>
    List.length instr_handlers' = List.length instr_handlers
    /\ forall p, addr <= p < addr + len ->
         (p - addr) mod DIVISOR compressed_enabled = 0 ->
         let entry := decoder_entry_at compressed_enabled exec_decoder' p in
         let decoded :=
           decoded_at rewriter decode decode_rewrite exec_segment (addr + len) p in
         instr entry = decoded.2
         /\ get_handler instr_handlers' entry = decoded.1
         /\ isset entry = true
         /\ 1 <= m_handler entry < Z.of_nat (List.length instr_handlers')
  end.
Proof.
  intros HW Haddr Hlen Hend Hpages Hnn Ht Htr.
  unfold generate_decoder_cache. rewrite (proj2 (Z.eqb_neq _ _) Hpages).
  pose proof (decode_segment_spec compressed_enabled W translated rewriter decode
                decode_rewrite exec_segment addr len (Z.to_nat len)
                ltac:(lia) Hlen ltac:(lia) Hnn addr true instr_handlers exec_decoder
                ltac:(lia) ltac:(lia) Ht
                ltac:(intros Htrue j _; by apply Htr)) as Hloop.
  destruct (decode_segment _ _ _ _ _ _ _ _ _ _ _ _ _ _) as [[exn | [[dst t'] d1]]|];
    [done| |done].
  destruct Hloop as (Hle & Hge & Hlt & Hstay & _ & Hlen' & _ & _ & Hentries).
  pose proof (DIVISOR_cases compressed_enabled) as HD.
  assert (Hdst : dst < addr + len + 4).
  { destruct (Z.lt_ge_cases addr (addr + len)) as [H | H]; [specialize (Hlt H); lia|].
    specialize (Hstay H). lia. }
  destruct (realize_fastsim_frame compressed_enabled W addr dst exec_segment d1
              HW ltac:(lia) ltac:(lia)) as (d' & -> & Hframe).
  split; [done|]. intros p Hp Hmod. cbn zeta.
  destruct (Hentries p Hp Hmod) as (Hinstr & _ & Hint & _).
  unfold decoder_entry_at.
  destruct (Hframe (p / DIVISOR compressed_enabled)) as (Hh & Hi & _).
  rewrite Hi. split; [done|].
  destruct Hint as (Hrange & Hat & _). rewrite <- Hh in Hrange, Hat.
  unfold get_handler, isset. split; [done|].
  assert (0 < m_handler (entry_at d' (p / DIVISOR compressed_enabled))) by lia.
  split; [|lia].
  by rewrite (proj2 (Z.eqb_neq _ _)) by lia.
Qed.

Lemma generate_decoder_cache_entries_witness :
  match generate_decoder_cache false 4 12 false false (fun w => 100 + opcode w)
          (fun _ w => (0, w)) S1_segment 0x1000 0x1000 12 (replicate 256 nullptr) ∅ with
  | Some (inr (instr_handlers', exec_decoder')) =>
    instr (decoder_entry_at false exec_decoder' 0x1004) = 0x00818193
    /\ get_handler instr_handlers' (decoder_entry_at false exec_decoder' 0x1004)
       = 100 + RV32I_OP_IMM
    /\ m_handler (decoder_entry_at false exec_decoder' 0x1004) = 2
  | _ => False
  end.
Proof.
  pose proof (generate_decoder_cache_entries false 4 12 false false
                (fun w => 100 + opcode w) (fun _ w => (0, w)) S1_segment
                0x1000 0x1000 12 (replicate 256 nullptr) ∅
                ltac:(lia) ltac:(lia) ltac:(lia) ltac:(lia)
                ltac:(vm_compute; discriminate)
                ltac:(intros p; unfold decoded_at; cbn [fst]; unfold opcode, nullptr;
                      pose proof (bits_range (read_instruction S1_segment p (0x1000 + 12)) 0 7
                                    ltac:(lia)); lia)
                ltac:(vm_compute; lia) ltac:(discriminate)) as H.
  destruct (generate_decoder_cache _ _ _ _ _ _ _ _ _ _ _ _ _) as [[exn | [t' d']]|] eqn:Hrun;
    [| |done].
  - vm_compute in Hrun. discriminate Hrun.
  - destruct H as [_ H]. specialize (H 0x1004 ltac:(lia) eq_refl).
    cbn zeta in H. destruct H as (Hi & Hh & _ & _).
    vm_compute in Hrun. injection Hrun as <- <-.
    split; [exact Hi|]. split; [exact Hh|]. reflexivity.
Defined.

(** X13. Without the C extension and without the rewriter, on a segment
    of whole words, the two passes of [generate_decoder_cache] leave a
    decoder cache that describes itself: every entry holds the word at
    its address, and its [idxend] is 0 if the opcode of that word is
    BRANCH, JAL, JALR, AUIPC or SYSTEM, if the word is the block-end
    sentinel, or if the entry is the last one of the segment, and one more
    than the [idxend] of the next entry (modulo [2^16]) otherwise. *)
Theorem generate_decoder_cache_fastsim (W page_bits : Z) (translated : bool)
    (decode : Z -> Z) (decode_rewrite : Z -> Z -> Z * Z)
    (exec_segment : memory) (pbase addr len : Z)
    (instr_handlers instr_handlers' : list Z) (exec_decoder exec_decoder' : decoder) :
  8 * W <= 64 -> 4 <= addr -> 0 <= len -> len mod 4 = 0 ->
  addr + len + 8 <= 2 ^ (8 * W) ->
  (forall w, decode w <> nullptr) ->
  (List.length instr_handlers <= 256)%nat ->
  (translated = true -> forall j, m_handler (entry_at exec_decoder j) = 0) ->
  generate_decoder_cache false W page_bits translated false decode decode_rewrite
    exec_segment pbase addr len instr_handlers exec_decoder
  = Some (inr (instr_handlers', exec_decoder')) ->
  forall p, addr <= p < addr + len -> (p - addr) mod 4 = 0 ->
    let entry := decoder_entry_at false exec_decoder' p in
    instr entry = read_instruction exec_segment p (addr + len)
    /\ get_handler instr_handlers' entry = decode (instr entry)
    /\ idxend entry
       = if ends_block (opcode (instr entry)) entry || (p + 4 =? addr + len) then 0
         else (idxend (decoder_entry_at false exec_decoder' (p + 4)) + 1) mod 2 ^ 16.
Proof.
  intros HW Haddr Hlen Hwords Hend Hnn Ht Htr Hrun p Hp Hmod. cbn zeta.
  unfold generate_decoder_cache in Hrun.
  destruct (_ =? 0); [done|].
  pose proof (decode_segment_spec false W translated false decode
                decode_rewrite exec_segment addr len (Z.to_nat len)
                ltac:(lia) Hlen ltac:(lia) ltac:(intros q; apply Hnn)
                addr true instr_handlers exec_decoder
                ltac:(lia) ltac:(lia) Ht
                ltac:(intros Htrue j _; by apply Htr)) as Hloop.
  destruct (decode_segment _ _ _ _ _ _ _ _ _ _ _ _ _ _) as [[exn | [[dst t'] d1]]|];
    [done| |done].
  destruct Hloop as (Hle & Hge & Hlt & Hstay & Hdmod & Hlen' & _ & _ & Hentries).
  change (DIVISOR false) with 4 in *.
  assert (Hdst : dst = addr + len).
  { specialize (Hlt ltac:(lia)). Z.div_mod_to_equations. lia. }
  subst dst.
  destruct (realize_fastsim_backward_spec W addr (addr + len) exec_segment d1
              ltac:(lia) ltac:(lia)) as (d' & Hfast & Hinstr & Hrec).
  rewrite Hfast in Hrun. injection Hrun as <- <-.
  destruct (Hentries p Hp Hmod) as (Hi & _ & Hint & _).
  unfold decoded_at in Hi, Hint. cbn [fst snd] in Hi, Hint.
  assert (Hframe : forall i, same_decoded (entry_at d1 i) (entry_at d' i)).
  { unfold realize_fastsim in Hfast. by eapply fastsim_backward_frame. }
  unfold decoder_entry_at in *. change (DIVISOR false) with 4 in *.
  destruct (Hframe (p / 4)) as (Hh & Hi' & _).
  rewrite Hi'. split; [done|]. split.
  - unfold get_handler. rewrite Hh. destruct Hint as (_ & -> & _). by rewrite Hi.
  - rewrite Hrec.
    + unfold terminates_at. by rewrite Hi.
    + lia.
    + clear -Hwords Hmod. Z.div_mod_to_equations. lia.
Qed.

Lemma generate_decoder_cache_fastsim_witness :
  exists instr_handlers' exec_decoder',
    generate_decoder_cache false 4 12 false false (fun w => 100 + opcode w)
      (fun _ w => (0, w)) (mem_of_words 0x1000 [0x00000013; 0x00000013; 0x00008067; 0x00000013])
      0x1000 0x1000 16 (replicate 256 nullptr) ∅
    = Some (inr (instr_handlers', exec_decoder'))
    /\ map (fun p => idxend (decoder_entry_at false exec_decoder' p))
         [0x1000; 0x1004; 0x1008; 0x100C] = [2; 1; 0; 0].
Proof.
  destruct (generate_decoder_cache false 4 12 false false (fun w => 100 + opcode w)
              (fun _ w => (0, w))
              (mem_of_words 0x1000 [0x00000013; 0x00000013; 0x00008067; 0x00000013])
              0x1000 0x1000 16 (replicate 256 nullptr) ∅)
    as [[exn | [t' d']]|] eqn:Hrun.
  - vm_compute in Hrun. discriminate Hrun.
  - exists t', d'. split; [reflexivity|].
    pose proof (generate_decoder_cache_fastsim 4 12 false (fun w => 100 + opcode w)
                  (fun _ w => (0, w))
                  (mem_of_words 0x1000 [0x00000013; 0x00000013; 0x00008067; 0x00000013])
                  0x1000 0x1000 16 (replicate 256 nullptr) t' ∅ d'
                  ltac:(lia) ltac:(lia) ltac:(lia) eq_refl ltac:(lia)
                  ltac:(intros w; unfold opcode, nullptr;
                        pose proof (bits_range w 0 7 ltac:(lia)); lia)
                  ltac:(vm_compute; lia) ltac:(discriminate) Hrun) as H.
    pose proof (H 0x1000 ltac:(lia) eq_refl) as (_ & _ & H0).
    pose proof (H 0x1004 ltac:(lia) eq_refl) as (_ & _ & H1).
    pose proof (H 0x1008 ltac:(lia) eq_refl) as (_ & _ & H2).
    pose proof (H 0x100C ltac:(lia) eq_refl) as (_ & _ & H3).
    clear H. vm_compute in Hrun. injection Hrun as <- <-. reflexivity.
  - vm_compute in Hrun. discriminate Hrun.
Defined.

(** ** Writes to the decoder cache stay inside its pages *)

Lemma fastsim_backward_dom W base_pc last_pc seg (fuel : nat) :
  forall acc pc (d d' : decoder),
    4 <= base_pc -> base_pc - 4 <= pc < 2 ^ (8 * W) ->
    fastsim_backward fuel W base_pc last_pc seg acc pc d = Some d' ->
    forall j, d' !! j <> None -> d !! j <> None \/ base_pc / 4 <= j <= pc / 4.
Proof.
  induction fuel as [|fuel IH]; intros acc pc d d' Hbase Hpc; cbn [fastsim_backward].
  - destruct (pc <? base_pc); [|done]. intros [= <-] j Hj. by left.
  - destruct (Z.ltb_spec pc base_pc) as [Hlt | Hge]; [intros [= <-] j Hj; by left|].
    rewrite (wrap_small (8 * W) (pc - 4)) by lia. change (DIVISOR false) with 4.
    intros Hrun j Hj.
    assert (Hpc' : base_pc - 4 <= pc - 4 < 2 ^ (8 * W)) by lia.
    destruct (IH _ _ _ _ Hbase Hpc' Hrun j Hj) as [Hin | Hin].
    + destruct (decide (j = pc / 4)) as [-> | Hne].
      * right. split; [|lia]. apply Z.div_le_mono; lia.
      * left. by rewrite lookup_insert_ne in Hin.
    + right. split; [lia|]. etrans; [apply Hin|]. apply Z.div_le_mono; lia.
Qed.

Lemma fastsim_fill_dom W last_pc seg :
  forall data size i pc dl (d : decoder) j,
    fastsim_fill W last_pc seg data size i pc dl d !! j <> None ->
    d !! j <> None \/ j ∈ data.
Proof.
  induction data as [|idx data IH]; intros size i pc dl d j; cbn [fastsim_fill].
  - by left.
  - intros Hj. destruct (IH _ _ _ _ _ _ Hj) as [Hin | Hin].
    + destruct (decide (j = idx)) as [-> | Hne].
      * right. apply elem_of_cons. by left.
      * left. by rewrite lookup_insert_ne in Hin.
    + right. apply elem_of_cons. by right.
Qed.

Lemma fastsim_forward_dom W last_pc seg (fuel : nat) :
  forall pc (d d' : decoder),
    0 <= pc -> last_pc + 4 <= 2 ^ (8 * W) -> 8 * W <= 64 ->
    last_pc - pc <= Z.of_nat fuel ->
    fastsim_forward fuel W last_pc seg pc d = Some d' ->
    forall j, d' !! j <> None ->
      d !! j <> None \/ exists p, pc <= p < last_pc /\ j = p / 2.
Proof.
  induction fuel as [|fuel IH]; intros pc d d' Hpc Hlast HW Hfuel; cbn [fastsim_forward].
  - destruct (pc <? last_pc); [done|]. intros [= <-] j Hj. by left.
  - destruct (Z.ltb_spec pc last_pc) as [Hlt | Hge]; [|intros [= <-] j Hj; by left].
    assert (Hpow : 2 ^ (8 * W) <= 2 ^ 64) by (apply Z.pow_le_mono_r; lia).
    rewrite fastsim_measure_spec by lia. cbn [app]. rewrite Z.add_0_l.
    set (starts := block_starts (Z.to_nat (last_pc - pc)) W last_pc seg d pc).
    assert (Hch : chain seg last_pc pc starts) by apply block_starts_chain.
    pose proof (chain_halfwords_bound _ _ _ _ Hch) as Hup.
    pose proof (halfwords_nonneg seg last_pc starts) as Hnn.
    pose proof (block_starts_nonempty W last_pc seg d (Z.to_nat (last_pc - pc)) pc
                  Hlt ltac:(lia)) as Hne.
    fold starts in Hne.
    intros Hrun j Hj.
    assert (Hpc1 : 0 <= pc + 2 * halfwords seg last_pc starts) by lia.
    assert (Hfuel1 : last_pc - (pc + 2 * halfwords seg last_pc starts) <= Z.of_nat fuel)
      by lia.
    destruct (IH _ _ _ Hpc1 Hlast HW Hfuel1 Hrun j Hj) as [Hin | Hin].
    + destruct (fastsim_fill_dom _ _ _ _ _ _ _ _ _ _ Hin) as [Hd | Hdata]; [by left|].
      right. apply list_elem_of_fmap in Hdata as (p & -> & Hp).
      apply list_elem_of_lookup in Hp as [k Hk].
      destruct (chain_bounds _ _ _ _ _ _ Hch Hk) as [Hb _].
      exists p. split; [lia|done].
    + right. destruct Hin as (p & Hp & ->). exists p. split; [lia|done].
Qed.

Lemma decoder_cache_pages_closed (W page_bits pbase addr len : Z) :
  0 <= page_bits < 64 -> 0 <= pbase <= addr -> addr < 2 ^ (8 * W) -> 0 <= len ->
  8 * W <= 64 ->
  addr - pbase + len + 2 ^ page_bits <= 2 ^ 64 ->
  decoder_cache_pages W page_bits pbase addr len
  = (addr - pbase + len + 2 ^ page_bits - 1) / 2 ^ page_bits.
Proof.
  intros Hk Hp Ha Hl HW Hfit. unfold decoder_cache_pages.
  assert (HP : 0 < 2 ^ page_bits) by (apply Z.pow_pos_nonneg; lia).
  assert (Hpow : 2 ^ (8 * W) <= 2 ^ 64) by (apply Z.pow_le_mono_r; lia).
  rewrite (wrap_small (8 * W) (addr - pbase)) by lia.
  rewrite (wrap_small 64 (addr - pbase)) by lia.
  rewrite (wrap_small 64 (len + (addr - pbase))) by lia.
  rewrite (wrap_small 64 (len + (addr - pbase) + (2 ^ page_bits - 1))) by lia.
  rewrite (land_page_mask 64 page_bits) by lia.
  rewrite Z.mod_small by lia.
  rewrite Z.mul_comm, Z.div_mul by lia. f_equal. lia.
Qed.

(** X14. For a segment whose first address [addr] is at least 4 and a
    multiple of [DIVISOR], and which ends at least 8 bytes below the top
    of the address space, the decoder cache that [generate_decoder_cache]
    allocates is large enough for what it writes (handler table of at most
    256 slots, decoder that never returns a null handler). With [pbase] a
    page boundary at or below [addr], the number of pages is the length
    from [pbase] to the end of the segment, rounded up to whole pages; it
    is 0, and the call throws [INVALID_PROGRAM], only for an empty segment
    on a page boundary; otherwise the call ends the program in
    [std::terminate] when the handler table is full, or it returns, and
    every entry that the two passes have written has its index inside the
    [n_pages] arrays of [PageSize / DIVISOR] entries that start at entry
    [pbase / DIVISOR]. (A segment that starts below address 4 is left
    out: without the C extension the backward walk of the second pass
    can step below address 0 there and wrap around.) *)
Theorem generate_decoder_cache_within_pages (compressed_enabled : bool)
    (W page_bits : Z) (translated rewriter : bool) (decode : Z -> Z)
    (decode_rewrite : Z -> Z -> Z * Z) (exec_segment : memory) (pbase addr len : Z)
    (instr_handlers : list Z) (exec_decoder : decoder) :
  8 * W <= 64 -> 2 <= page_bits < 64 ->
  0 <= pbase <= addr -> pbase mod 2 ^ page_bits = 0 ->
  4 <= addr -> addr mod DIVISOR compressed_enabled = 0 ->
  0 <= len -> addr + len + 8 <= 2 ^ (8 * W) ->
  addr - pbase + len + 2 ^ page_bits <= 2 ^ 64 ->
  (forall p, (decoded_at rewriter decode decode_rewrite exec_segment (addr + len) p).1
             <> nullptr) ->
  (List.length instr_handlers <= 256)%nat ->
  (translated = true -> forall j, m_handler (entry_at exec_decoder j) = 0) ->
  let n_pages := decoder_cache_pages W page_bits pbase addr len in
  let entries_per_page := 2 ^ page_bits / DIVISOR compressed_enabled in
  n_pages = (addr - pbase + len + 2 ^ page_bits - 1) / 2 ^ page_bits
  /\ addr + len <= pbase + n_pages * 2 ^ page_bits
  /\ (n_pages = 0 <-> len = 0 /\ addr = pbase)
  /\ match generate_decoder_cache compressed_enabled W page_bits translated rewriter
             decode decode_rewrite exec_segment pbase addr len instr_handlers
             exec_decoder with
     | None => False
     | Some (inl abort) =>
       if n_pages =? 0
       then abort = Throw (mkMachineException INVALID_PROGRAM
                             "Program produced empty decoder cache" 0)
       else abort = Terminate (handler_space_exn instr_handlers)
     | Some (inr (_, exec_decoder')) =>
       0 < n_pages
       /\ forall j, exec_decoder' !! j <> None ->
            exec_decoder !! j <> None
            \/ pbase / DIVISOR compressed_enabled <= j
               < pbase / DIVISOR compressed_enabled + n_pages * entries_per_page
     end.
Proof.
  intros HW Hk Hp Hpmod Haddr Halign Hlen Hend Hfit Hnn Ht Htr n_pages epp.
  assert (HP : 0 < 2 ^ page_bits) by (apply Z.pow_pos_nonneg; lia).
  assert (Hpow : 2 ^ (8 * W) <= 2 ^ 64) by (apply Z.pow_le_mono_r; lia).
  assert (Hpages : n_pages = (addr - pbase + len + 2 ^ page_bits - 1) / 2 ^ page_bits).
  { apply decoder_cache_pages_closed; lia. }
  assert (Hcover : addr + len <= pbase + n_pages * 2 ^ page_bits).
  { rewrite Hpages. Z.div_mod_to_equations. nia. }
  assert (Hzero : n_pages = 0 <-> len = 0 /\ addr = pbase).
  { rewrite Hpages. split.
    - intros Hz. Z.div_mod_to_equations. nia.
    - intros [-> ->]. apply Z.div_small. lia. }
  assert (Hnneg : 0 <= n_pages).
  { rewrite Hpages. apply Z.div_pos; lia. }
  split; [done|]. split; [done|]. split; [done|].
  unfold generate_decoder_cache. fold n_pages.
  destruct (Z.eqb_spec n_pages 0) as [Hz | Hnz]; [done|].
  pose proof (decode_segment_spec compressed_enabled W translated rewriter decode
                decode_rewrite exec_segment addr len (Z.to_nat len)
                ltac:(lia) Hlen ltac:(lia) Hnn addr true instr_handlers exec_decoder
                ltac:(lia) ltac:(lia) Ht
                ltac:(intros Htrue j _; by apply Htr)) as Hloop.
  destruct (decode_segment _ _ _ _ _ _ _ _ _ _ _ _ _ _) as [[exn | [[dst t'] d1]]|];
    [done| |done].
  destruct Hloop as (Hle & Hge & Hlt & Hstay & Hdmod & _ & _ & Hframe & _).
  pose proof (DIVISOR_cases compressed_enabled) as HD.
  assert (Hdst : dst < addr + len + DIVISOR compressed_enabled).
  { destruct (Z.lt_ge_cases addr (addr + len)) as [H | H]; [by apply Hlt|].
    specialize (Hstay H). lia. }
  assert (HPD : 2 ^ page_bits = epp * DIVISOR compressed_enabled
                /\ 2 ^ page_bits mod DIVISOR compressed_enabled = 0).
  { subst epp. replace page_bits with (page_bits - 2 + 2) by lia.
    rewrite Z.pow_add_r by lia. change (2 ^ 2) with 4.
    destruct HD as [-> | ->].
    - replace (2 ^ (page_bits - 2) * 4) with (2 ^ (page_bits - 2) * 2 * 2) by lia.
      rewrite Z.div_mul, Z.mod_mul by lia. done.
    - rewrite Z.div_mul, Z.mod_mul by lia. done. }
  destruct HPD as [HPD HPmod].
  (* the end of the last page, in entries *)
  assert (Hdstmod : dst mod DIVISOR compressed_enabled = 0).
  { clear -Hdmod Halign HD. destruct HD as [HD | HD]; rewrite HD in *;
      Z.div_mod_to_equations; lia. }
  assert (Hbound : dst <= pbase + n_pages * 2 ^ page_bits).
  { assert (Hm : (pbase + n_pages * 2 ^ page_bits) mod DIVISOR compressed_enabled = 0).
    { rewrite HPD. rewrite Z.mul_assoc, Z.mod_add by lia.
      clear -Hpmod HPD HD HP. destruct HD as [HD | HD]; rewrite HD in *;
        Z.div_mod_to_equations; nia. }
    clear -Hdstmod Hm Hdst Hcover HD. destruct HD as [HD | HD]; rewrite HD in *;
      Z.div_mod_to_equations; lia. }
  assert (Hendidx : (pbase + n_pages * 2 ^ page_bits) / DIVISOR compressed_enabled
                    = pbase / DIVISOR compressed_enabled + n_pages * epp).
  { rewrite HPD, Z.mul_assoc, Z.div_add by lia. done. }
  assert (Hfirst : forall j, d1 !! j <> None ->
            exec_decoder !! j <> None
            \/ addr / DIVISOR compressed_enabled <= j < dst / DIVISOR compressed_enabled).
  { intros j Hj.
    destruct (Z.lt_ge_cases j (addr / DIVISOR compressed_enabled)) as [Hlo | Hlo].
    { left. by rewrite <- Hframe by (by left). }
    destruct (Z.lt_ge_cases j (dst / DIVISOR compressed_enabled)) as [Hhi | Hhi];
      [right; lia|].
    left. rewrite <- Hframe; [done|]. right.
    clear -Hhi Hdmod Halign Hdstmod HD Hle. destruct HD as [HD | HD]; rewrite HD in *;
      Z.div_mod_to_equations; lia. }
  assert (Hrange : forall j,
            addr / DIVISOR compressed_enabled <= j < dst / DIVISOR compressed_enabled
            \/ (exists p, addr <= p < dst /\ j = p / DIVISOR compressed_enabled) ->
            pbase / DIVISOR compressed_enabled <= j
            < pbase / DIVISOR compressed_enabled + n_pages * epp).
  { intros j Hj. rewrite <- Hendidx.
    assert (Hlow : pbase / DIVISOR compressed_enabled <= addr / DIVISOR compressed_enabled)
      by (apply Z.div_le_mono; lia).
    assert (Hhigh : dst / DIVISOR compressed_enabled
                    <= (pbase + n_pages * 2 ^ page_bits) / DIVISOR compressed_enabled)
      by (apply Z.div_le_mono; lia).
    destruct Hj as [Hj | (q & Hq & ->)]; [lia|].
    split.
    - etrans; [exact Hlow|]. apply Z.div_le_mono; lia.
    - eapply Z.lt_le_trans; [|exact Hhigh].
      clear -Hq Hdstmod HD. destruct HD as [HD | HD]; rewrite HD in *;
        Z.div_mod_to_equations; lia. }
  destruct (realize_fastsim_frame compressed_enabled W addr dst exec_segment d1
              HW ltac:(lia) ltac:(lia)) as (d' & Hfast & _).
  rewrite Hfast. split; [lia|]. intros j Hj.
  unfold realize_fastsim in Hfast. destruct compressed_enabled.
  - change (DIVISOR true) with 2 in *.
    assert (H0 : 0 <= addr) by lia.
    assert (Hl : dst + 4 <= 2 ^ (8 * W)) by lia.
    assert (Hf : dst - addr <= Z.of_nat (Z.to_nat (dst - addr))) by lia.
    destruct (fastsim_forward_dom _ _ _ _ _ _ _ H0 Hl HW Hf Hfast j Hj) as [Hin | Hin].
    + destruct (Hfirst j Hin) as [? | ?]; [by left|right; apply Hrange; by left].
    + right. apply Hrange. by right.
  - change (DIVISOR false) with 4 in *.
    destruct (Z.lt_ge_cases addr dst) as [Hlt' | Hge'].
    + assert (Hw : wrap (8 * W) (dst - 4) = dst - 4) by (apply wrap_small; lia).
      rewrite Hw in Hfast.
      assert (Hpc : addr - 4 <= dst - 4 < 2 ^ (8 * W)) by lia.
      destruct (fastsim_backward_dom _ _ _ _ _ _ _ _ _ Haddr Hpc Hfast j Hj)
        as [Hin | Hin].
      * destruct (Hfirst j Hin) as [? | ?]; [by left|right; apply Hrange; by left].
      * right. apply Hrange. right.
        exists (4 * j).
        clear -Hin Hlt' Halign Hdstmod. Z.div_mod_to_equations. lia.
    + assert (dst = addr) by lia. subst dst.
      assert (Hd : d' = d1).
      { assert (Hw : wrap (8 * W) (addr - 4) = addr - 4) by (apply wrap_small; lia).
        rewrite Hw in Hfast.
        destruct (Z.to_nat ((addr - addr) / 4)); cbn [fastsim_backward] in Hfast;
          rewrite (proj2 (Z.ltb_lt _ _)) in Hfast by lia;
          by injection Hfast. }
      subst d'. destruct (Hfirst j Hj) as [? | ?]; [by left|lia].
Qed.

(** ** What [block_bytes()] measures *)

Lemma run_length_spec seg last_pc (d : decoder) (fuel : nat) :
  forall p,
    p < last_pc -> (last_pc - p) mod 4 = 0 -> last_pc - p <= 4 * Z.of_nat fuel ->
    let n := run_length fuel seg last_pc d p in
    0 <= n /\ p + 4 * n < last_pc
    /\ (terminates_at seg last_pc d (p + 4 * n) = true \/ p + 4 * n + 4 = last_pc)
    /\ forall k, 0 <= k < n ->
         terminates_at seg last_pc d (p + 4 * k) = false /\ p + 4 * k + 4 <> last_pc.
Proof.
  induction fuel as [|fuel IH]; intros p Hp Hmod Hfuel; [lia|].
  cbn [run_length].
  destruct (terminates_at seg last_pc d p) eqn:Hterm; cbn [orb].
  { cbn zeta. rewrite Z.mul_0_r, Z.add_0_r. split; [done|]. split; [done|].
    split; [by left|]. intros k Hk. lia. }
  destruct (Z.eqb_spec (p + 4) last_pc) as [Hlast | Hnot].
  { cbn zeta. rewrite Z.mul_0_r, Z.add_0_r. split; [done|]. split; [done|].
    split; [by right|]. intros k Hk. lia. }
  assert (Hp1 : p + 4 < last_pc) by (clear -Hp Hmod Hnot; Z.div_mod_to_equations; lia).
  assert (Hmod1 : (last_pc - (p + 4)) mod 4 = 0)
    by (clear -Hmod; Z.div_mod_to_equations; lia).
  destruct (IH (p + 4) Hp1 Hmod1 ltac:(lia)) as (Hn & Hlt & Hend & Hbefore).
  cbn zeta. set (n := run_length fuel seg last_pc d (p + 4)) in *.
  replace (p + 4 * (1 + n)) with (p + 4 + 4 * n) by lia.
  split; [lia|]. split; [done|]. split; [done|].
  intros k Hk. destruct (Z.eq_dec k 0) as [-> | Hk0].
  - rewrite Z.mul_0_r, Z.add_0_r. done.
  - replace (p + 4 * k) with (p + 4 + 4 * (k - 1)) by lia. apply Hbefore. lia.
Qed.

(** X15. Without the C extension, [block_bytes()] of an entry is the
    distance in bytes to the last instruction of its block, and
    [instruction_count()] the number of instructions up to and including
    that one: the entry [block_bytes()] further on ends the block (by its
    opcode, as the block-end sentinel, or as the last entry of the
    segment), and no entry in between does. This holds for entries less
    than [2^16] instructions away from the end of the segment. *)
Theorem block_bytes_reaches_block_end (W base_pc last_pc : Z)
    (exec_segment : memory) (d : decoder) :
  4 <= base_pc <= last_pc -> last_pc < 2 ^ (8 * W) ->
  exists d',
    realize_fastsim false W base_pc last_pc exec_segment d = Some d'
    /\ forall p, base_pc <= p < last_pc -> (last_pc - p) mod 4 = 0 ->
       last_pc - p <= 4 * 2 ^ 16 ->
       let entry := decoder_entry_at false d' p in
       let q := p + block_bytes false entry in
       p <= q < last_pc /\ (q - p) mod 4 = 0
       /\ (terminates_at exec_segment last_pc d' q = true \/ q + 4 = last_pc)
       /\ (forall r, p <= r < q -> (r - p) mod 4 = 0 ->
           terminates_at exec_segment last_pc d' r = false)
       /\ instruction_count false entry = (q - p) / 4 + 1.
Proof.
  intros Hbase Hlast.
  destruct (realize_fastsim_backward_spec W base_pc last_pc exec_segment d Hbase Hlast)
    as (d' & Hrun & _ & Hrec).
  exists d'. split; [done|]. intros p Hp Hmod Hnear. cbn zeta.
  assert (Hfuel : last_pc - p <= 4 * Z.of_nat (Z.to_nat ((last_pc - p) / 4))).
  { rewrite Z2Nat.id by (apply Z.div_pos; lia). clear -Hmod. Z.div_mod_to_equations. lia. }
  pose proof (run_length_closed_form exec_segment last_pc d' base_pc Hrec
                (Z.to_nat ((last_pc - p) / 4)) p Hp Hmod Hfuel) as Hidx.
  destruct (run_length_spec exec_segment last_pc d' (Z.to_nat ((last_pc - p) / 4)) p
              ltac:(lia) Hmod Hfuel) as (Hn & Hlt & Hend & Hbefore).
  set (n := run_length _ _ _ _ _) in *.
  rewrite wrap_small in Hidx by lia.
  unfold block_bytes, instruction_count. rewrite Hidx.
  replace (p + n * 4) with (p + 4 * n) by lia.
  split; [lia|]. split.
  { replace (p + 4 * n - p) with (n * 4) by lia. apply Z.mod_mul. lia. }
  split; [done|]. split.
  - intros r Hr Hrmod.
    replace r with (p + 4 * ((r - p) / 4)) by (clear -Hrmod; Z.div_mod_to_equations; lia).
    apply Hbefore. clear -Hr Hrmod. Z.div_mod_to_equations. lia.
  - replace (p + 4 * n - p) with (n * 4) by lia. rewrite Z.div_mul by lia. lia.
Qed.

Lemma block_bytes_reaches_block_end_witness :
  exists d',
    realize_fastsim false 4 0x1000 0x1010
      (mem_of_words 0x1000 [0x00000013; 0x00000013; 0x00008067; 0x00000013]) ∅ = Some d'
    /\ 0x1000 + block_bytes false (decoder_entry_at false d' 0x1000) = 0x1008
    /\ terminates_at
         (mem_of_words 0x1000 [0x00000013; 0x00000013; 0x00008067; 0x00000013])
         0x1010 d' 0x1008 = true
    /\ terminates_at
         (mem_of_words 0x1000 [0x00000013; 0x00000013; 0x00008067; 0x00000013])
         0x1010 d' 0x1004 = false
    /\ instruction_count false (decoder_entry_at false d' 0x1000) = 3.
Proof.
  destruct (block_bytes_reaches_block_end 4 0x1000 0x1010
              (mem_of_words 0x1000 [0x00000013; 0x00000013; 0x00008067; 0x00000013]) ∅
              ltac:(lia) ltac:(lia)) as (d' & Hrun & Hall).
  exists d'. split; [exact Hrun|].
  destruct (Hall 0x1000 ltac:(lia) eq_refl ltac:(lia)) as (_ & _ & Hend & Hbefore & Hcount).
  assert (Hq : 0x1000 + block_bytes false (decoder_entry_at false d' 0x1000) = 0x1008).
  { clear -Hrun. vm_compute in Hrun. injection Hrun as <-. reflexivity. }
  rewrite Hq in Hend, Hbefore, Hcount. split; [exact Hq|]. split.
  { destruct Hend as [Hend | Hend]; [exact Hend | lia]. }
  split; [apply Hbefore; [lia | reflexivity] | exact Hcount].
Defined.

Lemma chain_drop seg last_pc starts :
  forall pc k p, chain seg last_pc pc starts -> starts !! k = Some p ->
    p + 2 * halfwords seg last_pc (drop k starts)
    = pc + 2 * halfwords seg last_pc starts.
Proof.
  induction starts as [|q starts IH]; intros pc k p Hch Hk; [done|].
  cbn [chain] in Hch. destruct Hch as (-> & Hlt & Hch).
  destruct k as [|k]; cbn in Hk.
  - injection Hk as <-. by rewrite drop_0.
  - cbn [drop]. rewrite (IH _ _ _ Hch Hk), halfwords_cons.
    destruct (length_at_cases seg last_pc pc) as [Hl | Hl]; rewrite Hl;
      change (2 / 2) with 1; change (4 / 2) with 2; lia.
Qed.

(** X16. With the C extension, [block_bytes()] of an entry is the distance
    in bytes to the end of its block, that is, to the address that follows
    the last instruction of the block: it leads every instruction start of
    a block of at most 255 half-words to the same address. *)
Theorem block_bytes_reaches_end_of_block (W base_pc last_pc : Z)
    (exec_segment : memory) (d : decoder) :
  8 * W <= 64 -> 0 <= base_pc -> last_pc + 4 <= 2 ^ (8 * W) ->
  exists d',
    realize_fastsim true W base_pc last_pc exec_segment d = Some d'
    /\ forall b,
       b ∈ block_bases (Z.to_nat (last_pc - base_pc)) W last_pc exec_segment d base_pc ->
       let starts := block_starts (Z.to_nat (last_pc - b)) W last_pc exec_segment d b in
       let block_end := b + 2 * halfwords exec_segment last_pc starts in
       halfwords exec_segment last_pc starts <= 255 ->
       forall k p, starts !! k = Some p ->
         p + block_bytes true (decoder_entry_at true d' p) = block_end
         /\ (S k = List.length starts ->
             p + length_at exec_segment last_pc p = block_end).
Proof.
  intros HW Hbase Hlast. unfold realize_fastsim.
  destruct (fastsim_forward_spec W last_pc exec_segment d
              (Z.to_nat (last_pc - base_pc)) base_pc d
              ltac:(done) Hbase Hlast HW ltac:(lia))
    as (d' & Hrun & _ & _ & Hblocks).
  exists d'. split; [done|]. intros b Hb Hfit k p Hk.
  destruct (Hblocks b Hb k p Hk) as (Hidx & _).
  set (starts := block_starts _ _ _ _ _ _) in *.
  set (block_end := b + 2 * halfwords exec_segment last_pc starts).
  assert (Hch : chain exec_segment last_pc b starts) by apply block_starts_chain.
  pose proof (chain_drop _ _ _ _ _ _ Hch Hk) as Hdrop.
  pose proof (halfwords_drop_le exec_segment last_pc starts k) as Hle.
  pose proof (halfwords_nonneg exec_segment last_pc (drop k starts)) as Hnn.
  unfold decoder_entry_at, DIVISOR, block_bytes. rewrite Hidx.
  rewrite wrap_small by lia. split; [subst block_end; lia|].
  intros Hlast_entry. rewrite (drop_S starts p k Hk), Hlast_entry, drop_all in Hdrop.
  rewrite halfwords_cons in Hdrop. cbn in Hdrop. subst block_end.
  destruct (length_at_cases exec_segment last_pc p) as [Hl | Hl]; rewrite Hl in *;
    change (2 / 2) with 1 in *; change (4 / 2) with 2 in *; lia.
Qed.

Lemma block_bytes_reaches_end_of_block_witness :
  exists d',
    realize_fastsim true 4 0x1000 0x100A
      (mem_of_bytes 0x1000 [0x01; 0x00; 0x13; 0x00; 0x00; 0x00; 0x82; 0x80; 0x01; 0x00]) ∅
    = Some d'
    /\ 0x1000 + block_bytes true (decoder_entry_at true d' 0x1000) = 0x1008
    /\ 0x1002 + block_bytes true (decoder_entry_at true d' 0x1002) = 0x1008
    /\ 0x1006 + block_bytes true (decoder_entry_at true d' 0x1006) = 0x1008
    /\ 0x1006 + length_at
         (mem_of_bytes 0x1000 [0x01; 0x00; 0x13; 0x00; 0x00; 0x00; 0x82; 0x80; 0x01; 0x00])
         0x100A 0x1006 = 0x1008.
Proof.
  destruct (block_bytes_reaches_end_of_block 4 0x1000 0x100A
              (mem_of_bytes 0x1000 [0x01; 0x00; 0x13; 0x00; 0x00; 0x00; 0x82; 0x80; 0x01; 0x00]) ∅
              ltac:(lia) ltac:(lia) ltac:(lia)) as (d' & Hrun & Hall).
  exists d'. split; [exact Hrun|].
  assert (Hb : 0x1000 ∈ block_bases (Z.to_nat (0x100A - 0x1000)) 4 0x100A
            (mem_of_bytes 0x1000 [0x01; 0x00; 0x13; 0x00; 0x00; 0x00; 0x82; 0x80; 0x01; 0x00])
            ∅ 0x1000) by (vm_compute; left).
  assert (Hfit : halfwords
            (mem_of_bytes 0x1000 [0x01; 0x00; 0x13; 0x00; 0x00; 0x00; 0x82; 0x80; 0x01; 0x00])
            0x100A
            (block_starts (Z.to_nat (0x100A - 0x1000)) 4 0x100A
               (mem_of_bytes 0x1000 [0x01; 0x00; 0x13; 0x00; 0x00; 0x00; 0x82; 0x80; 0x01; 0x00])
               ∅ 0x1000) <= 255) by (vm_compute; discriminate).
  pose proof (Hall 0x1000 Hb Hfit 0%nat 0x1000 eq_refl) as (H0 & _).
  pose proof (Hall 0x1000 Hb Hfit 1%nat 0x1002 eq_refl) as (H1 & _).
  pose proof (Hall 0x1000 Hb Hfit 2%nat 0x1006 eq_refl) as (H2 & H3).
  split; [exact H0|]. split; [exact H1|]. split; [exact H2|]. exact (H3 eq_refl).
Defined.

Lemma stopping_instruction_ends_fastsim_block_witness :
  is_stopping_instruction false 0x00008067 = true
  /\ ends_block (opcode 0x00008067) zero_entry = true
  /\ is_stopping_instruction true 0x8082 = true
  /\ is_regular_compressed 4 (half0 0x8082) = false.
Proof.
  destruct (stopping_instruction_ends_fastsim_block 4 0x00008067 zero_entry) as (Hfull & _).
  destruct (stopping_instruction_ends_fastsim_block 4 0x8082 zero_entry) as (_ & Hshort).
  split; [reflexivity|]. split; [exact (Hfull eq_refl)|].
  split; [reflexivity|]. exact (Hshort eq_refl).
Defined.

Lemma jump_instruction_ends_fastsim_block_witness :
  jump_location false 4 0x0080006F 0x1000 = Some (true, 0x1008)
  /\ ends_block (opcode 0x0080006F) zero_entry = true
  /\ jump_location true 4 0xA011 0x1000 = Some (true, 0x1004)
  /\ is_regular_compressed 4 (half0 0xA011) = false.
Proof.
  split; [reflexivity|]. split.
  { exact (jump_instruction_ends_fastsim_block false 4 0x0080006F 0x1000 zero_entry
             (true, 0x1008) eq_refl). }
  split; [reflexivity|].
  exact (jump_instruction_ends_fastsim_block true 4 0xA011 0x1000 zero_entry
           (true, 0x1004) eq_refl).
Defined.

Lemma generate_decoder_cache_within_pages_witness :
  decoder_cache_pages 4 12 0x1000 0x1ff0 32 = 2
  /\ exists instr_handlers' exec_decoder',
       generate_decoder_cache false 4 12 false false (fun w => 100 + opcode w)
         (fun _ w => (0, w)) (mem_of_words 0x1ff0 [0x00000013; 0x00008067])
         0x1000 0x1ff0 32 (replicate 256 nullptr) ∅
       = Some (inr (instr_handlers', exec_decoder'))
       /\ forall j, exec_decoder' !! j <> None -> 0x400 <= j < 0xC00.
Proof.
  pose proof (generate_decoder_cache_within_pages false 4 12 false false
                (fun w => 100 + opcode w) (fun _ w => (0, w))
                (mem_of_words 0x1ff0 [0x00000013; 0x00008067])
                0x1000 0x1ff0 32 (replicate 256 nullptr) ∅
                ltac:(lia) ltac:(lia) ltac:(lia) eq_refl ltac:(lia) eq_refl
                ltac:(lia) ltac:(lia) ltac:(lia)
                ltac:(intros p; unfold decoded_at; cbn [fst]; unfold opcode, nullptr;
                      match goal with |- 100 + bits ?w 0 7 <> 0 =>
                        pose proof (bits_range w 0 7 ltac:(lia)) end; lia)
                ltac:(vm_compute; lia) ltac:(discriminate))
    as (Hn & _ & _ & Hgen).
  split; [exact Hn|].
  destruct (generate_decoder_cache false 4 12 false false (fun w => 100 + opcode w)
              (fun _ w => (0, w)) (mem_of_words 0x1ff0 [0x00000013; 0x00008067])
              0x1000 0x1ff0 32 (replicate 256 nullptr) ∅)
    as [[exn | [t' d']]|] eqn:Hrun.
  - exfalso. clear -Hrun. vm_compute in Hrun. discriminate Hrun.
  - exists t', d'. split; [reflexivity|]. destruct Hgen as (_ & Hdom).
    intros j Hj. destruct (Hdom j Hj) as [Hold | Hin].
    + exfalso. apply Hold. apply lookup_empty.
    + exact Hin.
  - destruct Hgen.
Defined.

(** ** Mappings of the generated code *)

Lemma numbered_empty : numbered ∅ [].
Proof.
  split; [constructor|]. intros s i. rewrite lookup_empty. split; [done|].
  intros [_ H]. by rewrite lookup_nil in H.
Qed.

Lemma numbered_fresh mi h s :
  numbered mi h -> mi !! s = None -> Z.of_nat (List.length h) < 2 ^ 32 ->
  numbered (<[s := wrap 32 (Z.of_nat (List.length h))]> mi) (h ++ [s]).
Proof.
  intros [Hnd Hmap] Hnone Hlen. rewrite wrap_small by lia.
  assert (Hnotin : s ∉ h).
  { intros Hin. apply list_elem_of_lookup in Hin as (k & Hk).
    assert (mi !! s = Some (Z.of_nat k)) as Hs.
    { apply Hmap. rewrite Nat2Z.id. split; [lia | done]. }
    by rewrite Hnone in Hs. }
  split.
  { apply NoDup_app. split; [done|]. split; [|apply NoDup_singleton].
    intros x Hx Hx'. apply list_elem_of_singleton in Hx'. by subst. }
  intros s' i. destruct (decide (s = s')) as [<- | Hne].
  - rewrite lookup_insert_eq. split.
    + intros [= <-]. rewrite Nat2Z.id. split; [lia|].
      rewrite lookup_app_r by lia. by rewrite Nat.sub_diag.
    + intros [Hi Hlook]. f_equal.
      destruct (decide (Z.to_nat i < List.length h)%nat) as [Hlt | Hge].
      * rewrite lookup_app_l in Hlook by done.
        exfalso. apply Hnotin. by eapply list_elem_of_lookup_2.
      * apply lookup_lt_Some in Hlook. rewrite length_app in Hlook. cbn in Hlook. lia.
  - rewrite lookup_insert_ne by done. rewrite Hmap. split.
    + intros [Hi Hlook]. split; [done|].
      rewrite lookup_app_l; [done|]. by eapply lookup_lt_Some.
    + intros [Hi Hlook]. split; [done|].
      destruct (decide (Z.to_nat i < List.length h)%nat) as [Hlt | Hge].
      * by rewrite lookup_app_l in Hlook.
      * rewrite lookup_app_r in Hlook by lia.
        apply list_lookup_singleton_Some in Hlook as [_ Heq]. done.
Qed.

Lemma unique_mappings_spec (dlmappings : list TransMapping) :
  forall mi h rows mi' h',
    numbered mi h ->
    Z.of_nat (List.length h + List.length dlmappings) <= 2 ^ 32 ->
    unique_mappings dlmappings mi h = (rows, mi', h') ->
    numbered mi' h'
    /\ (exists new, h' = h ++ new)
    /\ (forall s, s ∈ h' <-> s ∈ h \/ s ∈ map snd dlmappings)
    /\ Forall2 (fun (m : TransMapping) (row : Z * Z) =>
                  row.1 = m.1 /\ 0 <= row.2
                  /\ h' !! Z.to_nat row.2 = Some m.2) dlmappings rows.
Proof.
  induction dlmappings as [|[addr symbol] dl IH]; intros mi h rows mi' h' Hnum Hlen;
    cbn [unique_mappings].
  - intros [= <- <- <-]. split; [done|]. split; [by exists []; rewrite app_nil_r|].
    split; [|constructor]. intros s. cbn. rewrite elem_of_nil. tauto.
  - cbn [List.length] in Hlen.
    destruct (mi !! symbol) as [i|] eqn:Hlook.
    + destruct (unique_mappings dl mi h) as [[rows0 mi0] h0] eqn:Hrec.
      intros [= <- <- <-].
      destruct (IH _ _ _ _ _ Hnum ltac:(lia) Hrec) as (Hnum' & (new & ->) & Hin & Hrows).
      split; [done|]. split; [by exists new|].
      destruct Hnum as [_ Hmap]. apply Hmap in Hlook as [Hi Hlook].
      split.
      { intros s. rewrite Hin. cbn [map snd]. rewrite elem_of_cons.
        split; [tauto|]. intros [?|[->|?]]; [tauto| |tauto].
        left. by eapply list_elem_of_lookup_2. }
      constructor; [|done]. cbn. split; [done|]. split; [done|].
      rewrite lookup_app_l; [done|]. by eapply lookup_lt_Some.
    + destruct (unique_mappings dl _ _) as [[rows0 mi0] h0] eqn:Hrec.
      intros [= <- <- <-].
      pose proof (numbered_fresh mi h symbol Hnum Hlook ltac:(lia)) as Hnum1.
      assert (Hlen1 : Z.of_nat (List.length (h ++ [symbol]) + List.length dl) <= 2 ^ 32)
        by (rewrite length_app; cbn; lia).
      destruct (IH _ _ _ _ _ Hnum1 Hlen1 Hrec) as (Hnum' & (new & ->) & Hin & Hrows).
      split; [done|]. split; [exists (symbol :: new); by rewrite <- app_assoc|].
      split.
      { intros s. rewrite Hin. cbn [map snd].
        rewrite elem_of_app, list_elem_of_singleton, elem_of_cons. tauto. }
      constructor; [|done]. cbn. rewrite wrap_small by lia. rewrite Nat2Z.id.
      split; [done|]. split; [lia|].
      rewrite <- app_assoc. rewrite lookup_app_r by lia. by rewrite Nat.sub_diag.
Qed.

(** X17. The numbering of the mappings in the footer of [try_translate]:
    the rows keep the addresses of the mappings in their order, the index
    of each row is the position of the mapping's symbol in the handler
    array, the handler array lists every symbol of the mappings exactly
    once, and so two rows carry the same index exactly when their mappings
    have the same symbol. *)
Theorem unique_mappings_numbering (dlmappings : list TransMapping) :
  Z.of_nat (List.length dlmappings) <= 2 ^ 32 ->
  let '(rows, _, handlers) := unique_mappings dlmappings ∅ [] in
  map fst rows = map fst dlmappings
  /\ NoDup handlers
  /\ (forall s, s ∈ handlers <-> s ∈ map snd dlmappings)
  /\ (forall k addr symbol, dlmappings !! k = Some (addr, symbol) ->
      exists index, rows !! k = Some (addr, index) /\ 0 <= index
                    /\ handlers !! Z.to_nat index = Some symbol)
  /\ (forall k1 k2 m1 m2 r1 r2,
      dlmappings !! k1 = Some m1 -> dlmappings !! k2 = Some m2 ->
      rows !! k1 = Some r1 -> rows !! k2 = Some r2 ->
      (r1.2 = r2.2 <-> m1.2 = m2.2)).
Proof.
  intros Hlen.
  destruct (unique_mappings dlmappings ∅ []) as [[rows mi'] handlers] eqn:Hrun.
  destruct (unique_mappings_spec dlmappings ∅ [] rows mi' handlers numbered_empty
              ltac:(cbn; lia) Hrun) as ([Hnd _] & _ & Hin & Hrows).
  assert (Hrow : forall k m r, dlmappings !! k = Some m -> rows !! k = Some r ->
            r.1 = m.1 /\ 0 <= r.2 /\ handlers !! Z.to_nat r.2 = Some m.2).
  { intros k m r Hm Hr.
    destruct (Forall2_lookup_l _ _ _ _ _ Hrows Hm) as (r' & Hr' & Hok).
    rewrite Hr in Hr'. by injection Hr' as <-. }
  split.
  { clear -Hrows. induction Hrows as [|m r dl rs (H1 & _) _ IH]; [done|].
    cbn. by rewrite H1, IH. }
  split; [done|]. split.
  { intros s. rewrite Hin, elem_of_nil. tauto. }
  split.
  - intros k addr symbol Hk.
    destruct (Forall2_lookup_l _ _ _ _ _ Hrows Hk) as ([a index] & Hr & Ha & Hi & Hh).
    cbn in *. subst a. by exists index.
  - intros k1 k2 m1 m2 r1 r2 Hm1 Hm2 Hr1 Hr2.
    destruct (Hrow _ _ _ Hm1 Hr1) as (_ & H1 & L1).
    destruct (Hrow _ _ _ Hm2 Hr2) as (_ & H2 & L2).
    split.
    + intros Heq. rewrite Heq in L1. rewrite L1 in L2. by injection L2.
    + intros Heq. rewrite Heq in L1.
      pose proof (NoDup_lookup _ _ _ _ Hnd L1 L2) as Hk. lia.
Qed.

Lemma unique_mappings_numbering_witness :
  unique_mappings [(0x1000, "f_1000"); (0x1008, "f_1000"); (0x2000, "f_2000");
                   (0x100C, "f_1000")] ∅ []
  = ([(0x1000, 0); (0x1008, 0); (0x2000, 1); (0x100C, 0)],
     {[ "f_1000" := 0; "f_2000" := 1 ]}, ["f_1000"; "f_2000"])
  /\ ((0x1008, 0).2 = (0x100C, 0).2 <-> ("f_1000" : string) = "f_1000").
Proof.
  pose proof (unique_mappings_numbering
                [(0x1000, "f_1000"); (0x1008, "f_1000"); (0x2000, "f_2000");
                 (0x100C, "f_1000")] ltac:(cbn; lia)) as H.
  assert (Hrun : unique_mappings [(0x1000, "f_1000"); (0x1008, "f_1000");
                   (0x2000, "f_2000"); (0x100C, "f_1000")] ∅ []
                 = ([(0x1000, 0); (0x1008, 0); (0x2000, 1); (0x100C, 0)],
                    {[ "f_1000" := 0; "f_2000" := 1 ]}, ["f_1000"; "f_2000"])).
  { cbn. rewrite insert_empty. reflexivity. }
  rewrite Hrun in H. split; [exact Hrun|].
  destruct H as (_ & _ & _ & _ & Hsame).
  exact (Hsame 1%nat 3%nat (0x1008, "f_1000") (0x100C, "f_1000") (0x1008, 0) (0x100C, 0)
           eq_refl eq_refl eq_refl eq_refl).
Defined.

Lemma reentry_mappings_spec func reentry pcs :
  forall i, Forall (fun m : TransMapping => m.2 = func /\ m.1 ∈ pcs)
                   (reentry_mappings func reentry i pcs).
Proof.
  induction pcs as [|pc pcs IH]; intros i; cbn [reentry_mappings]; [constructor|].
  apply Forall_app. split.
  - destruct ((0 <? i)%nat && reentry i pc); [|constructor].
    constructor; [|constructor]. cbn. split; [done|]. apply elem_of_cons. by left.
  - eapply Forall_impl; [apply IH|]. cbn. intros m [? ?]. split; [done|].
    apply elem_of_cons. by right.
Qed.

Lemma unique_mappings_known (s : string) (i : Z) (group : list TransMapping) :
  forall rest mi h,
    mi !! s = Some i -> Forall (fun m : TransMapping => m.2 = s) group ->
    unique_mappings (group ++ rest) mi h
    = let '(rows, mi', h') := unique_mappings rest mi h in
      (map (fun m : TransMapping => (m.1, i)) group ++ rows, mi', h').
Proof.
  induction group as [|[addr s'] group IH]; intros rest mi h Hlook Hall.
  - cbn. by destruct (unique_mappings rest mi h) as [[? ?] ?].
  - apply Forall_cons in Hall as [Hs Hall]. cbn in Hs. subst s'.
    cbn [app unique_mappings]. rewrite Hlook. rewrite (IH rest mi h Hlook Hall).
    by destruct (unique_mappings rest mi h) as [[? ?] ?].
Qed.

Lemma unique_mappings_blocks c W reentry (blocks : list TransInfo) :
  forall mi h,
    NoDup (map (fun b => funclabel "f" (basepc b)) blocks) ->
    (forall b, b ∈ blocks -> mi !! funclabel "f" (basepc b) = None) ->
    exists mi',
      unique_mappings (dlmappings_of c W reentry blocks) mi h
      = (block_rows c W reentry (List.length h) blocks, mi',
         h ++ map (fun b => funclabel "f" (basepc b)) blocks).
Proof.
  induction blocks as [|b blocks IH]; intros mi h Hnd Hfresh.
  - exists mi. cbn. by rewrite app_nil_r.
  - cbn [map] in Hnd. apply NoDup_cons in Hnd as [Hnotin Hnd].
    unfold dlmappings_of. cbn [map concat]. fold (dlmappings_of c W reentry blocks).
    unfold emit_mappings at 1. cbn zeta. cbn [app unique_mappings].
    rewrite (Hfresh b) by (apply elem_of_cons; by left).
    set (func := funclabel "f" (basepc b)) in *.
    set (index := wrap 32 (Z.of_nat (List.length h))).
    set (mi1 := <[func := index]> mi).
    rewrite (unique_mappings_known func index _ (dlmappings_of c W reentry blocks)
               mi1 (h ++ [func])).
    2:{ subst mi1. apply lookup_insert_eq. }
    2:{ eapply Forall_impl; [apply reentry_mappings_spec|]. cbn. by intros m [? _]. }
    destruct (IH mi1 (h ++ [func]) Hnd) as (mi' & Hrec).
    { intros b' Hb'. subst mi1. rewrite lookup_insert_ne; [apply Hfresh; apply elem_of_cons; by right|].
      intros Heq. apply Hnotin. rewrite Heq. apply list_elem_of_fmap. by exists b'. }
    rewrite Hrec. exists mi'. cbn [block_rows]. unfold emit_mappings. cbn zeta. cbn [map].
    rewrite length_app. cbn [List.length]. rewrite Nat.add_1_r.
    rewrite <- app_assoc. done.
Qed.

Lemma block_rows_spec c W reentry (blocks : list TransInfo) :
  forall n row, row ∈ block_rows c W reentry n blocks ->
    exists k b m, blocks !! k = Some b
                  /\ m ∈ emit_mappings c W (reentry b) b
                  /\ row = (m.1, wrap 32 (Z.of_nat (n + k))).
Proof.
  induction blocks as [|b blocks IH]; intros n row; cbn [block_rows].
  - by intros ?%elem_of_nil.
  - intros [Hin | Hin]%elem_of_app.
    + apply list_elem_of_fmap in Hin as (m & -> & Hm).
      exists 0%nat, b, m. by rewrite Nat.add_0_r.
    + destruct (IH _ _ Hin) as (k & b' & m & Hk & Hm & ->).
      exists (S k), b', m. split; [done|]. split; [done|]. do 3 f_equal. lia.
Qed.

Lemma sorted_extents_NoDup (blocks : list TransInfo) :
  StronglySorted before (map extent blocks) ->
  Forall (fun b => basepc b < endpc b) blocks ->
  NoDup (map basepc blocks).
Proof.
  induction blocks as [|b blocks IH]; cbn [map]; intros Hs Hpos; [constructor|].
  apply StronglySorted_inv in Hs as [Hs Hall].
  apply Forall_cons in Hpos as [Hb Hpos].
  apply NoDup_cons. split; [|by apply IH].
  intros Hin. apply list_elem_of_fmap in Hin as (b' & Heq & Hb').
  rewrite Forall_forall in Hall.
  assert (Hbefore : before (extent b) (extent b')).
  { apply Hall. apply list_elem_of_fmap. by exists b'. }
  unfold before, extent in Hbefore. cbn in Hbefore. lia.
Qed.

(** X18. For the blocks that the block scanner of [try_translate] finds,
    once their code is generated, the footer is made without the
    exception [Mismatch in unique mappings]:
    the handler array holds the function of each block, in the order of
    the blocks, and every row of the mapping table maps an address inside
    a block to the index of that block's function. *)
Theorem found_blocks_unique_mappings (compressed_enabled : bool) (W : Z)
    (options : MachineOptions) (exec_data : memory)
    (start_address arena base endbasepc : Z)
    (reentry : TransInfo -> nat -> Z -> bool) :
  8 * W <= 64 -> 0 <= base -> endbasepc + 8 <= 2 ^ (8 * W) ->
  translate_invoke_compiler options = true ->
  translate_blocks_max options <= 2 ^ 32 ->
  exists d rows,
    try_translate_discover compressed_enabled W options exec_data
      start_address arena base endbasepc = Some (Some d)
    /\ mappings_footer (List.length (found_blocks d))
         (dlmappings_of compressed_enabled W reentry (found_blocks d))
       = inr (rows, map (fun b => funclabel "f" (basepc b)) (found_blocks d))
    /\ forall addr index, (addr, index) ∈ rows ->
       exists b, 0 <= index /\ found_blocks d !! Z.to_nat index = Some b
                 /\ basepc b <= addr < endpc b.
Proof.
  intros HW Hbase Hend Hinvoke Hmax.
  destruct (discover_blocks compressed_enabled W options exec_data start_address arena
              base endbasepc Hbase Hend Hinvoke) as (d & Hrun & Hall & Hsorted & Hpos).
  destruct (discovered_block_pcs compressed_enabled W options exec_data start_address arena
              base endbasepc Hbase Hend Hinvoke) as (d1 & Hrun1 & Hpcs).
  rewrite Hrun in Hrun1. injection Hrun1 as <-.
  assert (Hcount : Z.of_nat (List.length (found_blocks d)) <= 2 ^ 32).
  { pose proof Hrun as Hrun2. unfold try_translate_discover in Hrun2.
    rewrite Hinvoke in Hrun2. cbn [negb] in Hrun2.
    destruct (scan_for_gp _ _ _ _ _ _) as [gp|]; [|done].
    destruct (scan_blocks _ _ _ _ _ _ _ _ _ _ _ _ _) as [[[blocks gl'] ic']|] eqn:Hscan;
      [|done].
    injection Hrun2 as <-. cbn [found_blocks].
    destruct (scan_blocks_budget _ _ _ _ _ _ _ _ _ _ _ _ _ _ _ _
                ltac:(split; [exact Hbase|reflexivity]) Hend HW ltac:(reflexivity)
                ltac:(rewrite Z.sub_diag; reflexivity) Hscan)
      as (new & _ & _ & _ & Hlen).
    cbn [List.length] in Hlen. lia. }
  assert (Hrange : Forall (fun b => 0 <= basepc b < 2 ^ 64) (found_blocks d)).
  { eapply Forall_impl; [exact Hall|]. cbn. intros b [Hb _].
    assert (2 ^ (8 * W) <= 2 ^ 64) by (apply Z.pow_le_mono_r; lia). lia. }
  assert (Hnd : NoDup (map (fun b => funclabel "f" (basepc b)) (found_blocks d))).
  { pose proof (sorted_extents_NoDup _ Hsorted Hpos) as Hnd0.
    revert Hnd0 Hrange. generalize (found_blocks d). clear.
    induction l as [|b l IH]; cbn [map]; intros Hnd Hr; [constructor|].
    apply NoDup_cons in Hnd as [Hnotin Hnd]. apply Forall_cons in Hr as [Hb Hr].
    apply NoDup_cons. split; [|by apply IH].
    intros Hin. apply list_elem_of_fmap in Hin as (b' & Heq & Hb').
    apply Hnotin. apply list_elem_of_fmap. exists b'. split; [|done].
    assert (Hin' : 0 <= basepc b' < 2 ^ 64) by (by apply (proj1 (Forall_forall _ _) Hr)).
    pose proof (funclabel_text_length "f" (basepc b) 16 ltac:(lia) Hb) as L1.
    pose proof (funclabel_text_length "f" (basepc b') 16 ltac:(lia) Hin') as L2.
    cbn [String.length] in L1, L2.
    apply (funclabel_inj "f"); [done|done|lia|lia|done]. }
  destruct (unique_mappings_blocks compressed_enabled W reentry (found_blocks d) ∅ [] Hnd)
    as (mi' & Hum).
  { intros b _. apply lookup_empty. }
  cbn [app List.length] in Hum.
  exists d, (block_rows compressed_enabled W reentry 0 (found_blocks d)).
  split; [done|]. split.
  { unfold mappings_footer. rewrite Hum. rewrite length_map.
    destruct (decide _) as [Hne | _]; [done|done]. }
  intros addr index Hrow.
  destruct (block_rows_spec _ _ _ _ _ _ Hrow) as (k & b & m & Hk & Hm & Heq).
  injection Heq as -> ->. cbn [Nat.add].
  assert (Hklt : (k < List.length (found_blocks d))%nat) by (by eapply lookup_lt_Some).
  rewrite wrap_small by lia. rewrite Nat2Z.id.
  exists b. split; [lia|]. split; [done|].
  assert (Hb : b ∈ found_blocks d) by (by eapply list_elem_of_lookup_2).
  pose proof (proj1 (Forall_forall _ _) Hpos b Hb) as Hlt. cbn in Hlt.
  destruct (Hpcs b Hb) as (pcs & Hwalk & _ & Hbounds).
  unfold emit_mappings in Hm. cbn zeta in Hm. rewrite Hwalk in Hm. cbn [fst] in Hm.
  apply elem_of_cons in Hm as [-> | Hm]; [cbn; lia|].
  pose proof (reentry_mappings_spec (funclabel "f" (basepc b)) (reentry b) pcs 0) as Hre.
  destruct (proj1 (Forall_forall _ _) Hre m Hm) as [_ Hin].
  exact (proj1 (Forall_forall _ _) Hbounds _ Hin).
Qed.

Lemma found_blocks_unique_mappings_witness :
  exists d rows,
    try_translate_discover false 4 (translating_options 16 5000) two_functions_memory
      0x1000 0 0x1000 (0x1000 + 4 * 2501) = Some (Some d)
    /\ mappings_footer (List.length (found_blocks d))
         (dlmappings_of false 4 (fun _ i _ => (i =? 1)%nat) (found_blocks d))
       = inr (rows, ["f_1000"; "f_2388"; "f_3710"])
    /\ rows = [(0x1000, 0); (0x1004, 0); (0x2388, 1); (0x238C, 1); (0x3710, 2)].
Proof.
  destruct (found_blocks_unique_mappings false 4 (translating_options 16 5000)
              two_functions_memory 0x1000 0 0x1000 (0x1000 + 4 * 2501)
              (fun _ i _ => (i =? 1)%nat)
              ltac:(lia) ltac:(lia) ltac:(lia) eq_refl ltac:(cbn; lia))
    as (d & rows & Hrun & Hfooter & _).
  exists d, rows. split; [exact Hrun|].
  vm_compute in Hrun. injection Hrun as <-.
  split; [exact Hfooter|].
  vm_compute in Hfooter. injection Hfooter as <-. reflexivity.
Defined.

(** ** Embedded translations at load time *)

Lemma find_embedded_translation_spec (used tail : list EmbeddedTranslation)
    (checksum : Z) (fuel : nat) :
  forall i, (List.length used <= i + fuel)%nat ->
    find_embedded_translation fuel
      (mkEmbeddedTranslations (used ++ tail) (List.length used)) checksum i
    = match list_find (fun t => et_hash t = checksum) (drop i used) with
      | Some (k, t) => Some ((i + k)%nat, t)
      | None => None
      end.
Proof.
  induction fuel as [|fuel IH]; intros i Hfuel.
  - cbn [find_embedded_translation count]. rewrite drop_ge by lia. cbn.
    by destruct (decide _).
  - cbn [find_embedded_translation count translations].
    destruct (decide (i < List.length used)%nat) as [Hlt | Hge].
    2:{ rewrite drop_ge by lia. done. }
    destruct (lookup_lt_is_Some_2 used i Hlt) as [t Ht].
    rewrite lookup_app_l by done. rewrite Ht.
    rewrite (drop_S used t i Ht). cbn [list_find].
    destruct (Z.eqb_spec (et_hash t) checksum) as [Heq | Hne].
    + rewrite decide_True by done. by rewrite Nat.add_0_r.
    + rewrite decide_False by done. rewrite IH by lia.
      destruct (list_find _ (drop (S i) used)) as [[k t']|]; cbn; [|done].
      do 2 f_equal. lia.
Qed.

Lemma registered_translations (rs : list registration) :
  (List.length rs <= MAX_EMBEDDED)%nat ->
  snd (register_all rs registered_embedded_translations)
  = mkEmbeddedTranslations
      (map slot_of rs
       ++ replicate (MAX_EMBEDDED - List.length rs) (mkEmbeddedTranslation 0 0 0 0 0 0))
      (List.length (map slot_of rs)).
Proof.
  intros Hfit.
  pose proof (register_all_prefix rs []
                (replicate (List.length rs) (mkEmbeddedTranslation 0 0 0 0 0 0))
                ltac:(cbn; lia) ltac:(by rewrite length_replicate)
                (replicate (MAX_EMBEDDED - List.length rs) (mkEmbeddedTranslation 0 0 0 0 0 0)))
    as Hall.
  cbn [app List.length Nat.add] in Hall.
  rewrite <- replicate_add in Hall.
  replace (List.length rs + (MAX_EMBEDDED - List.length rs))%nat with MAX_EMBEDDED in Hall by lia.
  fold registered_embedded_translations in Hall.
  rewrite Hall. cbn [snd]. by rewrite length_map.
Qed.

(** X19. Looking up an embedded translation after registering: when at
    most 12 translations were registered into the empty registry, the
    lookup of [load_translation] returns the first registered translation
    that has the hash of the segment, with the slot it was stored in; it
    finds nothing when no registered translation has that hash, also for
    the hash 0 that the unused slots carry. *)
Theorem embedded_translation_lookup (rs : list registration) (checksum : Z) :
  (List.length rs <= MAX_EMBEDDED)%nat ->
  let reg := snd (register_all rs registered_embedded_translations) in
  (forall k r, rs !! k = Some r -> hash_of r = checksum ->
     (forall j r', (j < k)%nat -> rs !! j = Some r' -> hash_of r' <> checksum) ->
     embedded_translation_for reg checksum = Some (k, slot_of r))
  /\ ((forall r, r ∈ rs -> hash_of r <> checksum) ->
      embedded_translation_for reg checksum = None)
  /\ (forall k t, embedded_translation_for reg checksum = Some (k, t) ->
      et_hash t = checksum /\ exists r, rs !! k = Some r /\ t = slot_of r).
Proof.
  intros Hfit reg. subst reg. rewrite (registered_translations rs Hfit).
  unfold embedded_translation_for. cbn [count].
  rewrite find_embedded_translation_spec by lia. rewrite drop_0.
  split; [|split].
  - intros k r Hk Hhash Hfirst.
    assert (Hfind : list_find (fun t => et_hash t = checksum) (map slot_of rs)
                    = Some (k, slot_of r)).
    { apply list_find_Some. split; [by rewrite list_lookup_fmap, Hk|].
      split; [done|]. intros j t Hj Hlt.
      rewrite list_lookup_fmap in Hj.
      destruct (rs !! j) as [r'|] eqn:Hr'; [|done]. injection Hj as <-.
      by apply (Hfirst j r'). }
    by rewrite Hfind.
  - intros Hnone.
    assert (Hfind : list_find (fun t => et_hash t = checksum) (map slot_of rs) = None).
    { apply list_find_None. apply Forall_forall. intros t Ht.
      apply list_elem_of_fmap in Ht as (r & -> & Hr). by apply Hnone. }
    by rewrite Hfind.
  - intros k t Hfound.
    destruct (list_find _ (map slot_of rs)) as [[k' t']|] eqn:Hfind; [|done].
    injection Hfound as <- <-. cbn [Nat.add].
    apply list_find_Some in Hfind as (Hk & Hhash & _).
    split; [done|]. rewrite list_lookup_fmap in Hk.
    destruct (rs !! k') as [r|]; [|done]. injection Hk as <-. by exists r.
Qed.

Lemma embedded_translation_lookup_witness :
  let rs := [(0x1111, 0x7000, 1, 0x8000, 1, 0x9000);
             (0x2222, 0x7100, 2, 0x8100, 1, 0x9000);
             (0x2222, 0x7200, 3, 0x8200, 1, 0x9000)] in
  let reg := snd (register_all rs registered_embedded_translations) in
  embedded_translation_for reg 0x2222
  = Some (1%nat, mkEmbeddedTranslation 0x2222 2 1 0x7100 0x8100 0x9000)
  /\ embedded_translation_for reg 0 = None.
Proof.
  intros rs reg.
  destruct (embedded_translation_lookup rs 0x2222 ltac:(vm_compute; lia)) as (Hfirst & _ & _).
  destruct (embedded_translation_lookup rs 0 ltac:(vm_compute; lia)) as (_ & Hnone & _).
  split.
  - apply (Hfirst 1%nat (0x2222, 0x7100, 2, 0x8100, 1, 0x9000) eq_refl eq_refl).
    intros j r' Hj Hr'. destruct j as [|j]; [|lia].
    injection Hr' as <-. discriminate.
  - apply Hnone. intros r Hr.
    repeat (apply elem_of_cons in Hr as [-> | Hr]; [discriminate|]).
    by apply elem_of_nil in Hr.
Defined.

Lemma apply_embedded_mappings_spec c bytecode (mappings : list (Z * Z)) :
  forall (d : decoder) j,
    let e := entry_at d j in
    let e' := entry_at (apply_embedded_mappings c bytecode mappings d) j in
    m_handler e' = m_handler e /\ idxend e' = idxend e /\ icount e' = icount e
    /\ opcode_length e' = opcode_length e /\ instr_count e' = instr_count e
    /\ match list_find (fun m : Z * Z => m.1 / DIVISOR c = j) (reverse mappings) with
       | Some (_, m) => instr e' = m.2 /\ m_bytecode e' = wrap 8 (wrap 16 bytecode)
       | None => e' = e
       end.
Proof.
  induction mappings as [|[addr index] mappings IH]; intros d j; cbn zeta.
  - cbn. done.
  - cbn [apply_embedded_mappings].
    set (d1 := <[addr / DIVISOR c := _]> d).
    destruct (IH d1 j) as (H1 & H2 & H3 & H4 & H5 & H6).
    assert (Hd1 : let e1 := entry_at d1 j in
              m_handler e1 = m_handler (entry_at d j)
              /\ idxend e1 = idxend (entry_at d j)
              /\ icount e1 = icount (entry_at d j)
              /\ opcode_length e1 = opcode_length (entry_at d j)
              /\ instr_count e1 = instr_count (entry_at d j)
              /\ if decide (addr / DIVISOR c = j)
                 then instr e1 = index /\ m_bytecode e1 = wrap 8 (wrap 16 bytecode)
                 else e1 = entry_at d j).
    { subst d1. unfold entry_at, decoder_entry_at.
      destruct (decide (addr / DIVISOR c = j)) as [<- | Hne].
      - rewrite lookup_insert_eq. cbn. done.
      - rewrite lookup_insert_ne by done. done. }
    cbn zeta in Hd1. destruct Hd1 as (G1 & G2 & G3 & G4 & G5 & G6).
    rewrite H1, H2, H3, H4, H5. do 5 (split; [done|]).
    rewrite reverse_cons.
    destruct (list_find _ (reverse mappings)) as [[k m]|] eqn:Hfind.
    + erewrite list_find_app_l by exact Hfind. done.
    + rewrite list_find_app_r by done. cbn [list_find].
      destruct (decide (addr / DIVISOR c = j)) as [Heq | Hne].
      * cbn [fst]. rewrite decide_True by done. cbn. rewrite H6. done.
      * cbn [fst]. rewrite decide_False by done. cbn. by rewrite H6.
Qed.

(** X20. Applying the mappings of an embedded translation changes only the
    decoder entries of the mapped addresses. Such an entry gets the mapping
    index of the last mapping that falls on it as its instruction bits and
    the block-end bytecode; its handler index and its block lengths stay,
    so [block_bytes()] and [instruction_count()] are the same as before for
    every entry. *)
Theorem embedded_mappings_applied (compressed_enabled : bool)
    (block_end_bytecode : Z) (mappings : list (Z * Z)) (exec_decoder : decoder) (j : Z) :
  let e := entry_at exec_decoder j in
  let e' := entry_at (apply_embedded_mappings compressed_enabled block_end_bytecode
                        mappings exec_decoder) j in
  m_handler e' = m_handler e
  /\ block_bytes compressed_enabled e' = block_bytes compressed_enabled e
  /\ instruction_count compressed_enabled e' = instruction_count compressed_enabled e
  /\ ((forall m, m ∈ mappings -> m.1 / DIVISOR compressed_enabled <> j) -> e' = e)
  /\ (forall k addr mapping_index,
        mappings !! k = Some (addr, mapping_index) ->
        addr / DIVISOR compressed_enabled = j ->
        (forall k' m, (k < k')%nat -> mappings !! k' = Some m ->
                      m.1 / DIVISOR compressed_enabled <> j) ->
        instr e' = mapping_index
        /\ m_bytecode e' = wrap 8 (wrap 16 block_end_bytecode)).
Proof.
  cbn zeta.
  destruct (apply_embedded_mappings_spec compressed_enabled block_end_bytecode mappings
              exec_decoder j) as (H1 & H2 & H3 & H4 & H5 & H6).
  split; [done|]. split; [unfold block_bytes; by rewrite H2|].
  split; [unfold instruction_count; by rewrite H2, H3|].
  split.
  - intros Hnone.
    destruct (list_find _ (reverse mappings)) as [[k m]|] eqn:Hfind; [|done].
    apply list_find_Some in Hfind as (Hk & Hj & _). exfalso.
    apply (Hnone m); [|done]. apply elem_of_reverse. by eapply list_elem_of_lookup_2.
  - intros k addr index Hk Hj Hlast.
    assert (Hklt : (k < List.length mappings)%nat) by (by eapply lookup_lt_Some).
    assert (Hfind : list_find (fun m : Z * Z => m.1 / DIVISOR compressed_enabled = j)
                      (reverse mappings)
                    = Some ((List.length mappings - S k)%nat, (addr, index))).
    { apply list_find_Some. split.
      { rewrite reverse_lookup by lia. rewrite <- Hk. f_equal. lia. }
      split; [done|]. intros i m Hi Hlt.
      assert (Hilt : (i < List.length mappings)%nat).
      { apply lookup_lt_Some in Hi. by rewrite length_reverse in Hi. }
      rewrite reverse_lookup in Hi by done.
      apply (Hlast (List.length mappings - S i)%nat m); [lia | done]. }
    rewrite Hfind in H6. done.
Qed.

Lemma embedded_mappings_applied_witness :
  let d := apply_embedded_mappings false 0x55 [(0x1000, 0); (0x1008, 1); (0x1002, 7)]
             (<[0x400 := mkDecoderData 3 9 2 0 0 0 0x13]> ∅) in
  instr (entry_at d 0x400) = 7
  /\ m_bytecode (entry_at d 0x400) = 0x55
  /\ m_handler (entry_at d 0x400) = 9
  /\ block_bytes false (entry_at d 0x400) = 8.
Proof.
  intros d.
  destruct (embedded_mappings_applied false 0x55 [(0x1000, 0); (0x1008, 1); (0x1002, 7)]
              (<[0x400 := mkDecoderData 3 9 2 0 0 0 0x13]> ∅) 0x400)
    as (Hhandler & Hbytes & _ & _ & Hlast).
  destruct (Hlast 2%nat 0x1002 7 eq_refl eq_refl) as (Hinstr & Hbytecode).
  { intros k' m Hk' Hm. destruct k' as [|[|[|k']]]; [lia | lia | lia | discriminate Hm]. }
  split; [exact Hinstr|]. split; [exact Hbytecode|].
  split; [exact Hhandler | exact Hbytes].
Defined.
